(** * Dove Search: crawl-and-index engine and keyword search

    A shallow embedding of [app.py]: the keyword extractor, the ranked
    search over the [pages] table, and the [RespectfulCrawler] class with
    its robots cache, politeness stamps, persistent frontier and page
    store.  SQLite tables are lists of rows in rowid order, Python dicts
    and sets are [gmap] and [gset], exceptions of the storage layer come
    from a script of outcomes, the [ValueError] of [urlparse] is an
    outcome of the call, and the non re-entrant [threading.Lock] is a
    boolean whose second acquisition blocks the calling thread. *)

From Stdlib Require Import ZArith Ascii String List Permutation Sorted Lia.
From stdpp Require Import gmap strings list fin_maps.

Local Open Scope string_scope.
Local Open Scope list_scope.

(** ** Python string primitives

    Text is a sequence of characters of the ASCII range; on such text
    the functions below are those of Python.  Outside ASCII Python goes
    by the Unicode tables (letters, capitals, white space), which are
    not modelled: a statement that depends on them asks for [is_ascii]
    text. *)

Definition ascii_is_ascii (c : ascii) : bool := (nat_of_ascii c <? 128)%nat.

Definition is_upper (c : ascii) : bool :=
  let n := nat_of_ascii c in ((65 <=? n) && (n <=? 90))%nat.

Definition ascii_lower (c : ascii) : ascii :=
  if is_upper c then ascii_of_nat (nat_of_ascii c + 32) else c.

(** [str.lower()] *)
Fixpoint lower (s : string) : string :=
  match s with
  | EmptyString => EmptyString
  | String c s' => String (ascii_lower c) (lower s')
  end.

Definition ascii_isalnum (c : ascii) : bool :=
  let n := nat_of_ascii c in
  (((48 <=? n) && (n <=? 57)) || ((65 <=? n) && (n <=? 90))
   || ((97 <=? n) && (n <=? 122)))%nat.

Fixpoint all_chars (p : ascii -> bool) (s : string) : bool :=
  match s with
  | EmptyString => true
  | String c s' => p c && all_chars p s'
  end.

(** [str.isascii()] *)
Definition is_ascii (s : string) : bool := all_chars ascii_is_ascii s.

(** [str.isalnum()]: false on the empty string. *)
Definition isalnum (s : string) : bool :=
  match s with
  | EmptyString => false
  | _ => all_chars ascii_isalnum s
  end.

(** [str.startswith(p)] *)
Definition startswith (s p : string) : bool := String.prefix p s.

(** [sub in s] *)
Fixpoint contains (s sub : string) : bool :=
  String.prefix sub s ||
  match s with
  | EmptyString => false
  | String _ s' => contains s' sub
  end.

(** [s.count(sub)]: occurrences found left to right, the scan resuming
    after the end of each match (so they never overlap); the empty
    pattern matches between all characters. *)
Fixpoint count_from (skip : nat) (s sub : string) : nat :=
  match s with
  | EmptyString =>
      match skip, sub with
      | O, EmptyString => 1
      | _, _ => 0
      end
  | String _ s' =>
      match skip with
      | S k => count_from k s' sub
      | O => if String.prefix sub s
             then S (count_from (String.length sub - 1) s' sub)
             else count_from 0 s' sub
      end
  end.

Definition str_count (s sub : string) : nat := count_from 0 s sub.

(** [x or ""] *)
Definition or_empty (x : option string) : string :=
  match x with
  | Some s => s
  | None => ""
  end.

(** [l[:limit]] for a Python integer [limit]. *)
Definition slice_to {A : Type} (l : list A) (limit : Z) : list A :=
  if (0 <=? limit)%Z then firstn (Z.to_nat limit) l
  else firstn (List.length l - Z.to_nat (- limit)) l.

(** ** Library functions the program imports

    [nltk], [urllib.parse] are not part of the repository; the program is
    verified for any implementation of them.  [urlparse] and [urljoin]
    raise [ValueError] on a malformed URL (an unmatched bracket in the
    host): [None] here. *)
Class Externals : Type := {
  word_tokenize : string -> list string;           (* nltk.tokenize.word_tokenize *)
  stopwords_words : string -> list string;         (* nltk.corpus.stopwords.words *)
  netloc : string -> option string;                (* urlparse(url).netloc *)
  urljoin : string -> string -> option string      (* urllib.parse.urljoin *)
}.

(** ** [sorted(results, key=..., reverse=True)]

    CPython reverses the list, runs its stable ascending sort and reverses
    the outcome; the ascending sort is modelled by a stable insertion
    sort. *)
Section PySorted.
Context {A : Type} (key : A -> nat).

Fixpoint insert_by (x : A) (l : list A) : list A :=
  match l with
  | [] => [x]
  | y :: l' => if (key x <=? key y)%nat then x :: l else y :: insert_by x l'
  end.

Fixpoint sort_asc (l : list A) : list A :=
  match l with
  | [] => []
  | x :: l' => insert_by x (sort_asc l')
  end.

Definition sorted_reverse (l : list A) : list A := rev (sort_asc (rev l)).

End PySorted.

(** ** Tables of [search_engine.db] *)

Record PageRow : Type := {
  p_url : string;
  p_title : option string;      (* NULL when [soup.title.string] is None *)
  p_content : string;
  p_indexed_at : Z;
  p_last_crawled : Z
}.

Record QueueRow : Type := {
  q_url : string;
  q_priority : Z;
  q_added_at : Z
}.

(** Outcome of one statement sent to SQLite. *)
Inductive db_outcome : Type :=
| DbOk
| DbLocked      (* sqlite3.OperationalError *)
| DbError.      (* any other exception *)

Definition next_outcome (faults : list db_outcome) : db_outcome * list db_outcome :=
  match faults with
  | [] => (DbOk, [])
  | o :: rest => (o, rest)
  end.

(** ** Search *)

(** A row of [SELECT url, title, content FROM pages]. *)
Definition SearchRow : Type := (option string * option string * option string)%type.

Definition select_row (p : PageRow) : SearchRow :=
  (Some (p_url p), p_title p, Some (p_content p)).

(** [col LIKE '%kw%'] for a keyword without wildcard: NULL never
    matches, and SQLite compares the letters of ASCII without case. *)
Definition like_contains (col : option string) (kw : string) : bool :=
  match col with
  | None => false
  | Some s => contains (lower s) (lower kw)
  end.

Definition row_matches (keywords : list string) (r : SearchRow) : bool :=
  let '(url, title, content) := r in
  existsb (fun kw => like_contains title kw || like_contains content kw
                     || like_contains url kw) keywords.

(** [SELECT url, title, content FROM pages WHERE ...] in table order. *)
Definition select_pages (keywords : list string) (pages : list PageRow) : list SearchRow :=
  List.filter (row_matches keywords) (map select_row pages).

Definition rank_result (keywords : list string) (result : SearchRow) : nat :=
  let '(url, title, content) := result in
  let title := or_empty title in
  let content := or_empty content in
  let url := or_empty url in
  list_sum (map (fun kw => str_count (lower title) kw * 3
                           + str_count (lower url) kw * 2
                           + str_count (lower content) kw) keywords).

Inductive search_event : Type :=
| SDbExecute     (* c.execute(...) on the connection *)
| SSleep         (* time.sleep(1) *)
| SError.        (* st.error(...) *)

Fixpoint search_attempts (attempts : nat) (keywords : list string)
    (pages : list PageRow) (limit : Z) (faults : list db_outcome)
    : list SearchRow * list search_event :=
  match attempts with
  | O => ([], [])
  | S attempts' =>
      match next_outcome faults with
      | (DbOk, _) =>
          (slice_to (sorted_reverse (rank_result keywords)
                       (select_pages keywords pages)) limit,
           [SDbExecute])
      | (DbLocked, rest) =>
          let '(r, log) := search_attempts attempts' keywords pages limit rest in
          (r, SDbExecute :: SSleep :: log)
      | (DbError, _) => ([], [SDbExecute; SError])
      end
  end.

Definition default_limit : Z := 20.

(** ** The crawler object and its environment *)

(** A [RobotFileParser] after a [read()] that returned. *)
Record RobotRules : Type := {
  rr_can_fetch : string -> bool;      (* rp.can_fetch("*", url) *)
  rr_crawl_delay : option Z           (* rp.crawl_delay("*"), in seconds *)
}.


(** [BeautifulSoup(response.text, 'html.parser')], as far as the crawler
    looks at it. *)
Record Document : Type := {
  doc_title : option (option string);   (* soup.title, then its .string *)
  doc_texts : list string;              (* get_text() of p, h1 .. h6 *)
  doc_hrefs : list string               (* href of every a[href] *)
}.

(** Outcome of [requests.get(url, headers=..., timeout=10)]; the latency
    is in microseconds. *)
Inductive http_result : Type :=
| HttpRaises (latency : Z)
| HttpResponse (latency : Z) (status_code : Z) (doc : Document).

Inductive event : Type :=
| EvSleep (d : Z)                          (* time.sleep *)
| EvStamp (domain : string) (t : Z)        (* domain_last_access[domain] = t *)
| EvRobotsRead (domain : string)           (* rp.read() *)
| EvHttpGet (url : string).                (* requests.get *)

Record Crawler : Type := {
  (* self.conn: the two tables, rows in rowid order *)
  tbl_pages : list PageRow;
  tbl_crawl_queue : list QueueRow;
  (* attributes set by __init__ *)
  crawl_queue : list (Z * string);                  (* items put in the PriorityQueue *)
  visited_urls : gset string;
  robot_parsers : gmap string (option RobotRules);
  domain_last_access : gmap string Z;
  crawl_delay : Z;
  running : bool;
  lock : bool;                                      (* is self.lock held *)
  (* the world around the object *)
  clock : Z;                                        (* microseconds *)
  faults : list db_outcome;                         (* outcomes of the next statements *)
  robots_txt : list (option RobotRules);            (* next rp.read(): None when it raises *)
  http : list http_result;                          (* outcomes of the next requests.get *)
  trace : list event
}.

Definition set_tbl_pages (f : list PageRow -> list PageRow) (s : Crawler) : Crawler :=
  {| tbl_pages := f (tbl_pages s); tbl_crawl_queue := tbl_crawl_queue s;
     crawl_queue := crawl_queue s; visited_urls := visited_urls s;
     robot_parsers := robot_parsers s; domain_last_access := domain_last_access s;
     crawl_delay := crawl_delay s; running := running s; lock := lock s;
     clock := clock s; faults := faults s; robots_txt := robots_txt s;
     http := http s; trace := trace s |}.

Definition set_tbl_crawl_queue (f : list QueueRow -> list QueueRow) (s : Crawler) : Crawler :=
  {| tbl_pages := tbl_pages s; tbl_crawl_queue := f (tbl_crawl_queue s);
     crawl_queue := crawl_queue s; visited_urls := visited_urls s;
     robot_parsers := robot_parsers s; domain_last_access := domain_last_access s;
     crawl_delay := crawl_delay s; running := running s; lock := lock s;
     clock := clock s; faults := faults s; robots_txt := robots_txt s;
     http := http s; trace := trace s |}.

Definition set_crawl_queue (f : list (Z * string) -> list (Z * string)) (s : Crawler) : Crawler :=
  {| tbl_pages := tbl_pages s; tbl_crawl_queue := tbl_crawl_queue s;
     crawl_queue := f (crawl_queue s); visited_urls := visited_urls s;
     robot_parsers := robot_parsers s; domain_last_access := domain_last_access s;
     crawl_delay := crawl_delay s; running := running s; lock := lock s;
     clock := clock s; faults := faults s; robots_txt := robots_txt s;
     http := http s; trace := trace s |}.

Definition set_visited_urls (f : gset string -> gset string) (s : Crawler) : Crawler :=
  {| tbl_pages := tbl_pages s; tbl_crawl_queue := tbl_crawl_queue s;
     crawl_queue := crawl_queue s; visited_urls := f (visited_urls s);
     robot_parsers := robot_parsers s; domain_last_access := domain_last_access s;
     crawl_delay := crawl_delay s; running := running s; lock := lock s;
     clock := clock s; faults := faults s; robots_txt := robots_txt s;
     http := http s; trace := trace s |}.

Definition set_robot_parsers
    (f : gmap string (option RobotRules) -> gmap string (option RobotRules))
    (s : Crawler) : Crawler :=
  {| tbl_pages := tbl_pages s; tbl_crawl_queue := tbl_crawl_queue s;
     crawl_queue := crawl_queue s; visited_urls := visited_urls s;
     robot_parsers := f (robot_parsers s); domain_last_access := domain_last_access s;
     crawl_delay := crawl_delay s; running := running s; lock := lock s;
     clock := clock s; faults := faults s; robots_txt := robots_txt s;
     http := http s; trace := trace s |}.

Definition set_domain_last_access (f : gmap string Z -> gmap string Z) (s : Crawler) : Crawler :=
  {| tbl_pages := tbl_pages s; tbl_crawl_queue := tbl_crawl_queue s;
     crawl_queue := crawl_queue s; visited_urls := visited_urls s;
     robot_parsers := robot_parsers s; domain_last_access := f (domain_last_access s);
     crawl_delay := crawl_delay s; running := running s; lock := lock s;
     clock := clock s; faults := faults s; robots_txt := robots_txt s;
     http := http s; trace := trace s |}.

Definition set_lock (b : bool) (s : Crawler) : Crawler :=
  {| tbl_pages := tbl_pages s; tbl_crawl_queue := tbl_crawl_queue s;
     crawl_queue := crawl_queue s; visited_urls := visited_urls s;
     robot_parsers := robot_parsers s; domain_last_access := domain_last_access s;
     crawl_delay := crawl_delay s; running := running s; lock := b;
     clock := clock s; faults := faults s; robots_txt := robots_txt s;
     http := http s; trace := trace s |}.

Definition set_clock (f : Z -> Z) (s : Crawler) : Crawler :=
  {| tbl_pages := tbl_pages s; tbl_crawl_queue := tbl_crawl_queue s;
     crawl_queue := crawl_queue s; visited_urls := visited_urls s;
     robot_parsers := robot_parsers s; domain_last_access := domain_last_access s;
     crawl_delay := crawl_delay s; running := running s; lock := lock s;
     clock := f (clock s); faults := faults s; robots_txt := robots_txt s;
     http := http s; trace := trace s |}.

Definition set_faults (f : list db_outcome -> list db_outcome) (s : Crawler) : Crawler :=
  {| tbl_pages := tbl_pages s; tbl_crawl_queue := tbl_crawl_queue s;
     crawl_queue := crawl_queue s; visited_urls := visited_urls s;
     robot_parsers := robot_parsers s; domain_last_access := domain_last_access s;
     crawl_delay := crawl_delay s; running := running s; lock := lock s;
     clock := clock s; faults := f (faults s); robots_txt := robots_txt s;
     http := http s; trace := trace s |}.

Definition set_robots_txt
    (f : list (option RobotRules) -> list (option RobotRules)) (s : Crawler) : Crawler :=
  {| tbl_pages := tbl_pages s; tbl_crawl_queue := tbl_crawl_queue s;
     crawl_queue := crawl_queue s; visited_urls := visited_urls s;
     robot_parsers := robot_parsers s; domain_last_access := domain_last_access s;
     crawl_delay := crawl_delay s; running := running s; lock := lock s;
     clock := clock s; faults := faults s; robots_txt := f (robots_txt s);
     http := http s; trace := trace s |}.

Definition set_http (f : list http_result -> list http_result) (s : Crawler) : Crawler :=
  {| tbl_pages := tbl_pages s; tbl_crawl_queue := tbl_crawl_queue s;
     crawl_queue := crawl_queue s; visited_urls := visited_urls s;
     robot_parsers := robot_parsers s; domain_last_access := domain_last_access s;
     crawl_delay := crawl_delay s; running := running s; lock := lock s;
     clock := clock s; faults := faults s; robots_txt := robots_txt s;
     http := f (http s); trace := trace s |}.

Definition set_trace (f : list event -> list event) (s : Crawler) : Crawler :=
  {| tbl_pages := tbl_pages s; tbl_crawl_queue := tbl_crawl_queue s;
     crawl_queue := crawl_queue s; visited_urls := visited_urls s;
     robot_parsers := robot_parsers s; domain_last_access := domain_last_access s;
     crawl_delay := crawl_delay s; running := running s; lock := lock s;
     clock := clock s; faults := faults s; robots_txt := robots_txt s;
     http := http s; trace := f (trace s) |}.

(** [RespectfulCrawler(conn)] on a database with the given tables. *)
Definition new_crawler (pages : list PageRow) (queue : list QueueRow) (now : Z)
    (fs : list db_outcome) (rs : list (option RobotRules)) (hs : list http_result) : Crawler :=
  {| tbl_pages := pages; tbl_crawl_queue := queue;
     crawl_queue := []; visited_urls := ∅; robot_parsers := ∅;
     domain_last_access := ∅; crawl_delay := 5; running := false; lock := false;
     clock := now; faults := fs; robots_txt := rs; http := hs; trace := [] |}.

(** ** Methods as state transformers

    A call returns, or never returns because the thread waits for a
    lock it holds itself, or raises the [ValueError] of [urlparse] in
    the state it has reached. [OutOfFuel] only bounds the recursion of
    the model. *)
Inductive outcome (A : Type) : Type :=
| Returned (a : A)
| Blocked
| OutOfFuel
| Raised (s : Crawler).
Arguments Returned {A} a.
Arguments Blocked {A}.
Arguments OutOfFuel {A}.
Arguments Raised {A} s.

Definition M (A : Type) : Type := Crawler -> outcome (A * Crawler).

Definition ret {A : Type} (a : A) : M A := fun s => Returned (a, s).

Definition bind {A B : Type} (m : M A) (k : A -> M B) : M B :=
  fun s => match m s with
           | Returned (a, s') => k a s'
           | Blocked => Blocked
           | OutOfFuel => OutOfFuel
           | Raised s' => Raised s'
           end.

Definition gets {A : Type} (f : Crawler -> A) : M A := fun s => Returned (f s, s).

Definition modify (g : Crawler -> Crawler) : M unit := fun s => Returned (tt, g s).

Definition block {A : Type} : M A := fun _ => Blocked.

Definition out_of_fuel {A : Type} : M A := fun _ => OutOfFuel.

(** [raise ValueError(...)] *)
Definition raise {A : Type} : M A := fun s => Raised s.

(** [try: body] followed by [except Exception: handler] *)
Definition try_except {A : Type} (body handler : M A) : M A :=
  fun s => match body s with
           | Raised s' => handler s'
           | o => o
           end.

Notation "x <~ m ;; k" := (bind m (fun x => k))
  (at level 100, m at next level, right associativity).
Notation "m ;;; k" := (bind m (fun _ => k))
  (at level 100, right associativity).

Definition seconds (n : Z) : Z := (n * 1000000)%Z.

Definition emit (e : event) : M unit := modify (set_trace (fun tr => tr ++ [e])).

(** [time.time()] and [datetime.now()]: the clock moves only while the
    thread sleeps or waits for a request, so two readings in a row
    agree. *)
Definition now : M Z := gets clock.

(** [time.sleep(d)] *)
Definition sleep (d : Z) : M unit :=
  modify (set_clock (fun t => (t + d)%Z)) ;;; emit (EvSleep d).

(** Outcome of the next statement (with its commit) on [self.conn]. *)
Definition db_step : M db_outcome :=
  o <~ gets (fun s => fst (next_outcome (faults s))) ;;
  modify (set_faults (fun fs => snd (next_outcome fs))) ;;;
  ret o.

(** [with self.lock: body]: the lock is released when the body ends,
    also by an exception. *)
Definition with_lock {A : Type} (body : M A) : M A :=
  held <~ gets lock ;;
  if held then block
  else modify (set_lock true) ;;;
       a <~ try_except body (modify (set_lock false) ;;; raise) ;;
       modify (set_lock false) ;;;
       ret a.

(** [for x in xs: body(x)] *)
Fixpoint for_each {A : Type} (xs : list A) (body : A -> M unit) : M unit :=
  match xs with
  | [] => ret tt
  | x :: xs' => body x ;;; for_each xs' body
  end.

(** *** SQL statements on the tables *)

Definition has_url (url : string) (rows : list QueueRow) : bool :=
  existsb (fun r => String.eqb (q_url r) url) rows.

(** [INSERT OR IGNORE INTO crawl_queue VALUES (url, priority, added_at)] *)
Definition insert_or_ignore (row : QueueRow) (rows : list QueueRow) : list QueueRow :=
  if has_url (q_url row) rows then rows else rows ++ [row].

(** [DELETE FROM crawl_queue WHERE url = ?] *)
Definition delete_url (url : string) (rows : list QueueRow) : list QueueRow :=
  List.filter (fun r => negb (String.eqb (q_url r) url)) rows.

(** Does [a] come strictly before [b] in [ORDER BY priority, added_at]? *)
Definition queue_lt (a b : QueueRow) : bool :=
  ((q_priority a <? q_priority b)
   || ((q_priority a =? q_priority b) && (q_added_at a <? q_added_at b)))%Z.

(** [SELECT url, priority FROM crawl_queue ORDER BY priority, added_at
    LIMIT 1]: the first row of the table that no other row precedes. *)
Fixpoint select_first (rows : list QueueRow) : option QueueRow :=
  match rows with
  | [] => None
  | r :: rows' =>
      match select_first rows' with
      | None => Some r
      | Some m => if queue_lt m r then Some m else Some r
      end
  end.

(** [INSERT OR REPLACE INTO pages VALUES (...)]: a row with the same key
    is deleted and the new row gets a fresh rowid. *)
Definition insert_or_replace (row : PageRow) (rows : list PageRow) : list PageRow :=
  List.filter (fun r => negb (String.eqb (p_url r) (p_url row))) rows ++ [row].

(** *** Text clean-up of [crawl_page] *)

Definition is_space (c : ascii) : bool :=
  let n := nat_of_ascii c in
  (((9 <=? n) && (n <=? 13)) || ((28 <=? n) && (n <=? 32)))%nat.

(** [' '.join(parts)] *)
Fixpoint join_blank (parts : list string) : string :=
  match parts with
  | [] => ""
  | [p] => p
  | p :: rest => p +:+ " " +:+ join_blank rest
  end.

(** [re.sub(r'\s+', ' ', s)] *)
Fixpoint collapse_ws (in_run : bool) (s : string) : string :=
  match s with
  | EmptyString => EmptyString
  | String c s' =>
      if is_space c
      then (if in_run then collapse_ws true s' else String " " (collapse_ws true s'))
      else String c (collapse_ws false s')
  end.

Fixpoint lstrip (s : string) : string :=
  match s with
  | EmptyString => EmptyString
  | String c s' => if is_space c then lstrip s' else s
  end.

Fixpoint rstrip (s : string) : string :=
  match s with
  | EmptyString => EmptyString
  | String c s' =>
      let r := rstrip s' in
      if is_space c && String.eqb r "" then EmptyString else String c r
  end.

(** [s.strip()] *)
Definition strip (s : string) : string := rstrip (lstrip s).

(** ** A small instance of the libraries, for running the model

    Tokens are split at blanks; the netloc is what lies between "//" and
    the next "/"; absolute http(s) references resolve to themselves, as
    RFC 3986 asks; a URL with one bracket and not the other is
    malformed. *)
Fixpoint split_blank (cur : string) (s : string) : list string :=
  match s with
  | EmptyString => if String.eqb cur "" then [] else [cur]
  | String c s' =>
      if Ascii.eqb c " "
      then (if String.eqb cur "" then [] else [cur]) ++ split_blank "" s'
      else split_blank (cur +:+ String c "") s'
  end.

Fixpoint host_of (s : string) : string :=
  match s with
  | EmptyString => ""
  | String c s' => if Ascii.eqb c "/" then "" else String c (host_of s')
  end.

Definition malformed (url : string) : bool :=
  xorb (contains url "[") (contains url "]").

Definition demo_netloc (url : string) : option string :=
  if malformed url then None
  else if String.prefix "http://" url
  then Some (host_of (String.substring 7 (String.length url) url))
  else if String.prefix "https://" url
  then Some (host_of (String.substring 8 (String.length url) url))
  else Some "".

Definition demo_urljoin (base href : string) : option string :=
  if malformed base || malformed href then None
  else if String.prefix "http://" href || String.prefix "https://" href then Some href
  else Some (base +:+ href).

Definition demo_lib : Externals := {|
  word_tokenize := split_blank "";
  stopwords_words := fun _ => ["the"; "and"; "of"; "a"; "is"; "in"; "to"];
  netloc := demo_netloc;
  urljoin := demo_urljoin
|}.

(** The two pages of the ranking example. *)
Definition P1 : PageRow :=
  {| p_url := "a"; p_title := Some "cats and dogs"; p_content := "dogs";
     p_indexed_at := 0; p_last_crawled := 0 |}.

Definition P2 : PageRow :=
  {| p_url := "b"; p_title := Some "dogs"; p_content := "cats cats dogs";
     p_indexed_at := 0; p_last_crawled := 0 |}.

(** A crawler on an empty database, with a reachable and an unreachable
    site. *)
Definition fresh : Crawler := new_crawler [] [] 0 [] [] [].

Definition site_down : Crawler :=
  new_crawler [] [] 0 [] [None] [HttpRaises 3000000].

Definition site_up : Crawler :=
  new_crawler [] [] 0 [] [None]
    [HttpResponse 2000000 200
       {| doc_title := Some (Some "A page");
          doc_texts := ["Some  text"; "more"];
          doc_hrefs := ["http://b.example/next"; "#top"] |}].

Definition three_queued : list QueueRow :=
  [ {| q_url := "http://c.example/"; q_priority := 2; q_added_at := 10 |};
    {| q_url := "http://a.example/"; q_priority := 1; q_added_at := 30 |};
    {| q_url := "http://b.example/"; q_priority := 1; q_added_at := 20 |} ].

(** A crawler whose index has the two example pages, about to crawl a
    site that answers with two links. *)
Definition indexed : Crawler :=
  new_crawler [P1; P2]
    [ {| q_url := "http://a.example/page"; q_priority := 1; q_added_at := 0 |} ]
    0 [] [None]
    [HttpResponse 2000000 200
       {| doc_title := None;
          doc_texts := [" Some  text "; "more"];
          doc_hrefs := ["http://b.example/next"; "#top"; "http://a.example/page"] |}].

(** A crawler that comes back to a domain one second after its last
    access. *)
Definition revisit : Crawler :=
  set_domain_last_access (fun _ => {["a.example" := 1000000%Z]})
    (set_clock (fun _ => 2000000%Z) site_up).

Definition queue_of_three : Crawler := new_crawler [] three_queued 100 [] [] [].

(** A page that holds the word "cats" in its url only. *)
Definition P3 : PageRow :=
  {| p_url := "http://cats.example/"; p_title := Some "home"; p_content := "welcome";
     p_indexed_at := 0; p_last_crawled := 0 |}.

(** A crawler whose queue holds a URL with an unmatched bracket. *)
Definition bad_queued : Crawler :=
  new_crawler []
    [ {| q_url := "http://[bad"; q_priority := 1; q_added_at := 0 |} ]
    0 [] [] [].

(** A site whose page has a reference with an unmatched bracket. *)
Definition bad_href : Crawler :=
  new_crawler [] [] 0 [] [None]
    [HttpResponse 2000000 200
       {| doc_title := Some (Some "A page");
          doc_texts := ["text"];
          doc_hrefs := ["http://b.example/next"; "http://[bad"] |}].


Section Engine.
Context `{Lib : Externals}.

Definition stop_words : gset string := list_to_set (stopwords_words "english").

Definition extract_keywords (query : string) : list string :=
  map lower
    (List.filter (fun word => isalnum word && negb (bool_decide (lower word ∈ stop_words)))
                 (word_tokenize query)).

Definition simple_search (query : string) (pages : list PageRow) (limit : Z)
    (faults : list db_outcome) : list SearchRow * list search_event :=
  let keywords := extract_keywords query in
  match keywords with
  | [] => ([], [])
  | _ => search_attempts 3 keywords pages limit faults
  end.

(** *** Robots cache *)

(** [urlparse(url).netloc] *)
Definition urlparse_netloc (url : string) : M string :=
  match netloc url with
  | Some domain => ret domain
  | None => raise
  end.

Definition get_robot_parser (url : string) : M (option RobotRules) :=
  domain <~ urlparse_netloc url ;;
  cached <~ gets (fun s => robot_parsers s !! domain) ;;
  match cached with
  | Some rp => ret rp
  | None =>
      emit (EvRobotsRead domain) ;;;
      r <~ gets (fun s => match robots_txt s with
                          | Some rules :: _ => Some rules
                          | _ => None
                          end) ;;
      modify (set_robots_txt (fun rs => tl rs)) ;;;
      modify (set_robot_parsers (fun m => <[domain := r]> m)) ;;;
      ret r
  end.

Definition can_fetch (url : string) : M bool :=
  rp <~ get_robot_parser url ;;
  match rp with
  | Some rules => ret (rr_can_fetch rules url)
  | None => ret true
  end.

Definition get_crawl_delay (url : string) : M Z :=
  urlparse_netloc url ;;;
  rp <~ get_robot_parser url ;;
  match rp with
  | Some rules =>
      match rr_crawl_delay rules with
      | Some delay => if (delay =? 0)%Z then gets crawl_delay else ret delay
      | None => gets crawl_delay
      end
  | None => gets crawl_delay
  end.

(** *** Frontier *)

Fixpoint add_url_to_queue (fuel : nat) (url : string) (priority : Z) : M unit :=
  match fuel with
  | O => out_of_fuel
  | S fuel' =>
      visited <~ gets (fun s => bool_decide (url ∈ visited_urls s)) ;;
      if String.eqb url "" || visited then ret tt
      else
        with_lock (
          o <~ db_step ;;
          match o with
          | DbOk =>
              t <~ now ;;
              modify (set_tbl_crawl_queue (insert_or_ignore
                        {| q_url := url; q_priority := priority; q_added_at := t |})) ;;;
              modify (set_crawl_queue (fun q => q ++ [(priority, url)]))
          | DbLocked =>
              sleep (seconds 1) ;;;
              add_url_to_queue fuel' url priority
          | DbError => ret tt
          end)
  end.

(** How one pass through the [try] of the dequeue loop ends. *)
Inductive attempt_end : Type :=
| Completed        (* reached [break] after the [with] block *)
| RaisedLocked     (* sqlite3.OperationalError *)
| RaisedOther.     (* any other exception *)

(** The dequeue loop of [crawl_worker]; [url] and [priority] are the two
    local variables, assigned together. *)
Fixpoint pop_attempts (attempts : nat) (found : option (string * Z))
    : M (option (string * Z)) :=
  match attempts with
  | O => ret found
  | S attempts' =>
      r <~ with_lock (
        o <~ db_step ;;
        match o with
        | DbLocked => ret (found, RaisedLocked)
        | DbError => ret (found, RaisedOther)
        | DbOk =>
            result <~ gets (fun s => select_first (tbl_crawl_queue s)) ;;
            match result with
            | None => ret (found, Completed)
            | Some row =>
                let found' := Some (q_url row, q_priority row) in
                o' <~ db_step ;;
                match o' with
                | DbOk =>
                    modify (set_tbl_crawl_queue (delete_url (q_url row))) ;;;
                    ret (found', Completed)
                | DbLocked => ret (found', RaisedLocked)
                | DbError => ret (found', RaisedOther)
                end
            end
        end) ;;
      match snd r with
      | Completed => ret (fst r)
      | RaisedLocked => sleep (seconds 1) ;;; pop_attempts attempts' (fst r)
      | RaisedOther => ret (fst r)
      end
  end.

Definition pop : M (option (string * Z)) := pop_attempts 3 None.

(** *** Fetch and extract *)

Definition keep_link (full_url : string) : bool :=
  (startswith full_url "http://" || startswith full_url "https://")
  && negb (contains full_url "#").

(** The loop of [extract_links] over the references that are left, with
    the links found so far; a [ValueError] of [urljoin] ends it
    ([None]). *)
Fixpoint extract_links_from (links : list string) (hrefs : list string)
    (base_url : string) : option (list string) :=
  match hrefs with
  | [] => Some links
  | href :: rest =>
      match urljoin base_url href with
      | Some full_url =>
          extract_links_from (if keep_link full_url then links ++ [full_url] else links)
                             rest base_url
      | None => None
      end
  end.

Definition extract_links (hrefs : list string) (base_url : string)
    : option (list string) :=
  extract_links_from [] hrefs base_url.

(** The store loop of [crawl_page]. *)
Fixpoint store_page (attempts : nat) (url : string) (title : option string)
    (text_content : string) : M unit :=
  match attempts with
  | O => ret tt
  | S attempts' =>
      again <~ with_lock (
        o <~ db_step ;;
        match o with
        | DbOk =>
            t1 <~ now ;;
            t2 <~ now ;;
            modify (set_tbl_pages (insert_or_replace
                      {| p_url := url; p_title := title; p_content := text_content;
                         p_indexed_at := t1; p_last_crawled := t2 |})) ;;;
            ret false
        | DbLocked => sleep (seconds 1) ;;; ret true
        | DbError => ret false
        end) ;;
      if again then store_page attempts' url title text_content else ret tt
  end.

Definition stamp (domain : string) : M unit :=
  t <~ now ;;
  modify (set_domain_last_access (fun m => <[domain := t]> m)) ;;;
  emit (EvStamp domain t).

(** What the next [requests.get] does. *)
Definition next_http (s : Crawler) : http_result :=
  match http s with
  | r :: _ => r
  | [] => HttpRaises 0
  end.

Definition requests_get (url : string) : M http_result :=
  emit (EvHttpGet url) ;;;
  r <~ gets next_http ;;
  modify (set_http (fun hs => tl hs)) ;;;
  modify (set_clock (fun t => match r with
                              | HttpRaises l => t + l
                              | HttpResponse l _ _ => t + l
                              end)%Z) ;;;
  ret r.

(** The block "Respect crawl delays" at the head of [crawl_page]. *)
Definition respect_crawl_delay (domain url : string) : M unit :=
  current_time <~ now ;;
  last <~ gets (fun s => domain_last_access s !! domain) ;;
  match last with
  | Some t0 =>
      let time_passed := (current_time - t0)%Z in
      delay_needed <~ get_crawl_delay url ;;
      if (time_passed <? seconds delay_needed)%Z
      then sleep (seconds delay_needed - time_passed)
      else ret tt
  | None => ret tt
  end.

(** A [ValueError] of [urlparse] leaves the call: line 124 is outside
    the [try]. Inside it, the errors of the request and of
    [extract_links] end in [return []]. *)
Definition crawl_page (url : string) : M (list string) :=
  domain <~ urlparse_netloc url ;;
  respect_crawl_delay domain url ;;;
  stamp domain ;;;
  allowed <~ can_fetch url ;;
  if negb allowed then ret []
  else
    response <~ requests_get url ;;
    match response with
    | HttpRaises _ => ret []
    | HttpResponse _ status_code soup =>
        stamp domain ;;;
        if (status_code =? 200)%Z then
          let title := match doc_title soup with
                       | Some t => t
                       | None => Some url
                       end in
          let text_content := strip (collapse_ws false (join_blank (doc_texts soup))) in
          store_page 3 url title text_content ;;;
          match extract_links (doc_hrefs soup) url with
          | Some links => ret links
          | None => ret []
          end
        else ret []
    end.

(** One pass through the body of [while self.running] in [crawl_worker];
    the handler sleeps five seconds after the [ValueError] that
    [crawl_page] raises on a URL that [urlparse] refuses. *)
Definition crawl_worker_step : M unit :=
  try_except (
    found <~ pop ;;
    match found with
    | None => sleep (seconds 1)
    | Some (url, priority) =>
        if String.eqb url "" then sleep (seconds 1)
        else
          visited <~ gets (fun s => bool_decide (url ∈ visited_urls s)) ;;
          (if visited then ret tt
           else
             modify (set_visited_urls (fun v => {[url]} ∪ v)) ;;;
             links <~ crawl_page url ;;
             for_each links (fun link =>
               seen <~ gets (fun s => bool_decide (link ∈ visited_urls s)) ;;
               if seen then ret tt else add_url_to_queue 2 link (priority + 1)%Z)) ;;;
          sleep 100000
    end)
  (sleep (seconds 5)).

(** Calls made on the crawler by its worker thread and by the page. *)
Inductive call : Type :=
| Push (url : string) (priority : Z)     (* add_url_to_queue *)
| Pop                                    (* the dequeue loop *)
| CrawlPage (url : string)
| CanFetch (url : string)
| GetCrawlDelay (url : string)
| WorkerStep.

(** A caller that goes on after an exception of the call, as the
    worker does. *)
Definition caught {A : Type} (m : M A) : M unit :=
  try_except (m ;;; ret tt) (ret tt).

(** The calls in order; the answers of the dequeues are collected. *)
Fixpoint run (calls : list call) : M (list (option (string * Z))) :=
  match calls with
  | [] => ret []
  | c :: rest =>
      match c with
      | Push url priority => add_url_to_queue 2 url priority ;;; run rest
      | Pop => r <~ pop ;; rs <~ run rest ;; ret (r :: rs)
      | CrawlPage url => caught (crawl_page url) ;;; run rest
      | CanFetch url => caught (can_fetch url) ;;; run rest
      | GetCrawlDelay url => caught (get_crawl_delay url) ;;; run rest
      | WorkerStep => crawl_worker_step ;;; run rest
      end
  end.

(** *** The page around the crawler *)

(** [INSERT OR IGNORE INTO pages VALUES (...)] *)
Definition insert_or_ignore_page (row : PageRow) (rows : list PageRow) : list PageRow :=
  if existsb (fun r => String.eqb (p_url r) (p_url row)) rows
  then rows else rows ++ [row].

Definition sample_data : list (string * string * string) :=
  [ ("https://moz.com/top500",
     "Top 500 Most Popular Websites - Moz",
     "Moz's list of the most popular 500 websites on the internet, based on an index of over 40 trillion links!") ].

(** The loop of [ensure_data] over the sample rows; nothing catches the
    exception of a statement, so the script stops there ([None]). *)
Fixpoint insert_samples (samples : list (string * string * string)) : M (option unit) :=
  match samples with
  | [] => ret (Some tt)
  | (url, title, content) :: rest =>
      o <~ db_step ;;
      match o with
      | DbOk =>
          t1 <~ now ;;
          t2 <~ now ;;
          modify (set_tbl_pages (insert_or_ignore_page
                    {| p_url := url; p_title := Some title; p_content := content;
                       p_indexed_at := t1; p_last_crawled := t2 |})) ;;;
          insert_samples rest
      | _ => ret None
      end
  end.

Definition ensure_data : M (option unit) :=
  o <~ db_step ;;
  match o with
  | DbOk =>
      count <~ gets (fun s => List.length (tbl_pages s)) ;;
      if Nat.eqb count 0 then insert_samples sample_data else ret (Some tt)
  | _ => ret None
  end.

(** The loop behind "Pages Indexed" and "URLs in Queue"; the two local
    variables start at 0. *)
Fixpoint stats_attempts (attempts : nat) (page_count queue_count : nat)
    : M (nat * nat) :=
  match attempts with
  | O => ret (page_count, queue_count)
  | S attempts' =>
      o <~ db_step ;;
      match o with
      | DbOk =>
          page_count' <~ gets (fun s => List.length (tbl_pages s)) ;;
          o' <~ db_step ;;
          match o' with
          | DbOk =>
              queue_count' <~ gets (fun s => List.length (tbl_crawl_queue s)) ;;
              ret (page_count', queue_count')
          | DbLocked =>
              sleep (seconds 1) ;;; stats_attempts attempts' page_count' queue_count
          | DbError => ret (page_count', queue_count)
          end
      | DbLocked => sleep (seconds 1) ;;; stats_attempts attempts' page_count queue_count
      | DbError => ret (page_count, queue_count)
      end
  end.

Definition crawler_stats : M (nat * nat) := stats_attempts 3 0 0.

(** [ORDER BY last_crawled DESC]: rows crawled at the same time stay in
    table order. *)
Fixpoint insert_recent (x : PageRow) (l : list PageRow) : list PageRow :=
  match l with
  | [] => [x]
  | y :: l' =>
      if (p_last_crawled y <=? p_last_crawled x)%Z then x :: l
      else y :: insert_recent x l'
  end.

Fixpoint order_recent (l : list PageRow) : list PageRow :=
  match l with
  | [] => []
  | x :: l' => insert_recent x (order_recent l')
  end.

(** [SELECT url, last_crawled FROM pages ORDER BY last_crawled DESC LIMIT 5] *)
Definition select_recent (rows : list PageRow) : list (string * Z) :=
  map (fun r => (p_url r, p_last_crawled r)) (firstn 5 (order_recent rows)).

(** The loop behind "Recently Indexed Pages". *)
Fixpoint recent_attempts (attempts : nat) : M (list (string * Z)) :=
  match attempts with
  | O => ret []
  | S attempts' =>
      o <~ db_step ;;
      match o with
      | DbOk => gets (fun s => select_recent (tbl_pages s))
      | DbLocked => sleep (seconds 1) ;;; recent_attempts attempts'
      | DbError => ret []
      end
  end.

Definition recent_pages : M (list (string * Z)) := recent_attempts 3.

(** [s[:n]] *)
Fixpoint take_chars (n : nat) (s : string) : string :=
  match n, s with
  | S n', String c s' => String c (take_chars n' s')
  | _, _ => EmptyString
  end.

(** [content[:300] + "..." if content and len(content) > 300 else content or ""] *)
Definition content_snippet (content : option string) : string :=
  match content with
  | Some c =>
      if negb (String.eqb c "") && (300 <? String.length c)%nat
      then take_chars 300 c +:+ "..."
      else c
  | None => ""
  end.

(** What [re] makes of a replacement template for a pattern without
    groups: nothing when the template is refused, else the text put in
    place of a match. *)
Class Regex : Type := {
  expand_template : string -> option (string -> string)
}.

(** [pattern.sub(repl, text)] for the pattern [re.escape(query)] with
    [re.IGNORECASE], [query] not empty, on ASCII text: matches are taken
    from left to right and do not overlap. *)
Fixpoint sub_ignorecase (skip : nat) (text query : string) (repl : string -> string)
    : string :=
  match text with
  | EmptyString => EmptyString
  | String c text' =>
      match skip with
      | S k => sub_ignorecase k text' query repl
      | O =>
          if String.prefix (lower query) (lower text)
          then repl (take_chars (String.length query) text)
               +:+ sub_ignorecase (String.length query - 1) text' query repl
          else String c (sub_ignorecase 0 text' query repl)
      end
  end.

Definition double_quote : string := String (ascii_of_nat 34) EmptyString.

Definition span_open : string :=
  "<span class=" +:+ double_quote +:+ "highlight" +:+ double_quote +:+ ">".

Definition span_close : string := "</span>".

Definition highlight_terms `{Rx : Regex} (text query : string) : string :=
  if String.eqb text "" || String.eqb query "" then text
  else
    match expand_template (span_open +:+ query +:+ span_close) with
    | Some repl => sub_ignorecase 0 text query repl
    | None => text
    end.

(** A [re] that takes a template without backslash as it is and refuses
    the others, for running [highlight_terms]. *)
Definition demo_regex : Regex := {|
  expand_template := fun t =>
    if contains t (String (ascii_of_nat 92) EmptyString) then None
    else Some (fun _ => t)
|}.

(** ** Vocabulary of the properties *)

(** [m] keeps the invariant [I] whenever it returns or raises. *)
Definition preserves {A : Type} (Inv : Crawler -> Prop) (m : M A) : Prop :=
  forall s, Inv s -> match m s with
                   | Returned (_, s') => Inv s'
                   | Raised s' => Inv s'
                   | _ => True
                   end.

Definition count_url (url : string) (rows : list QueueRow) : nat :=
  List.length (List.filter (fun r => String.eqb (q_url r) url) rows).

(** The primary key of [crawl_queue]. *)
Definition queue_unique (s : Crawler) : Prop := List.NoDup (map q_url (tbl_crawl_queue s)).

(** No storage error among the next [n] statements. *)
Definition no_fault (n : nat) (fs : list db_outcome) : bool :=
  forallb (fun o => match o with DbOk => true | _ => false end) (firstn n fs).

(** State after a push whose insert succeeded. *)
Definition push_effect (url : string) (priority : Z) (s : Crawler) : Crawler :=
  set_lock false
    (set_crawl_queue (fun q => q ++ [(priority, url)])
       (set_tbl_crawl_queue
          (insert_or_ignore {| q_url := url; q_priority := priority; q_added_at := clock s |})
          (set_faults (fun fs => snd (next_outcome fs)) (set_lock true s)))).

(** [a] is not after [b] in [ORDER BY priority, added_at]. *)
Definition queue_le (a b : QueueRow) : Prop :=
  (q_priority a < q_priority b
   \/ (q_priority a = q_priority b /\ q_added_at a <= q_added_at b))%Z.

(** State after a dequeue that found [row] and deleted it. *)
Definition pop_effect (row : QueueRow) (s : Crawler) : Crawler :=
  set_lock false
    (set_tbl_crawl_queue (delete_url (q_url row))
       (set_faults (fun fs => snd (next_outcome fs))
          (set_faults (fun fs => snd (next_outcome fs)) (set_lock true s)))).

(** State after a dequeue on an empty table. *)
Definition pop_nothing (s : Crawler) : Crawler :=
  set_lock false (set_faults (fun fs => snd (next_outcome fs)) (set_lock true s)).

Definition erase_mirror (s : Crawler) : Crawler := set_crawl_queue (fun _ => []) s.

(** Two states that differ at most in [self.crawl_queue]. *)
Definition same_but_mirror (s1 s2 : Crawler) : Prop := erase_mirror s1 = erase_mirror s2.

(** Two outcomes with equal answers and states equal up to the mirror. *)
Definition agree {A : Type} (o1 o2 : outcome (A * Crawler)) : Prop :=
  match o1, o2 with
  | Returned (a1, s1), Returned (a2, s2) => a1 = a2 /\ same_but_mirror s1 s2
  | Blocked, Blocked => True
  | OutOfFuel, OutOfFuel => True
  | Raised s1, Raised s2 => same_but_mirror s1 s2
  | _, _ => False
  end.

Definition mirror_blind {A : Type} (m : M A) : Prop :=
  forall s1 s2, same_but_mirror s1 s2 -> agree (m s1) (m s2).

(** No exception leaves [m]. *)
Definition never_raises {A : Type} (m : M A) : Prop :=
  forall s s', m s <> Raised s'.

(** A reference to a place of the page itself. *)
Definition fragment_only (href : string) : bool := startswith href "#".

(** The references resolved against the base URL, in document order;
    nothing when one of them cannot be resolved. *)
Fixpoint resolve_all (base_url : string) (hrefs : list string) : option (list string) :=
  match hrefs with
  | [] => Some []
  | href :: rest =>
      match urljoin base_url href, resolve_all base_url rest with
      | Some u, Some us => Some (u :: us)
      | _, _ => None
      end
  end.

(** The links as the specification words them: the resolved absolute
    http(s) links, leaving out only the fragment-only references. *)
Definition spec_links (hrefs : list string) (base_url : string) : option (list string) :=
  option_map (List.filter (fun u => startswith u "http://" || startswith u "https://"))
    (resolve_all base_url (List.filter (fun href => negb (fragment_only href)) hrefs)).

Definition rows_for (url : string) (rows : list PageRow) : list PageRow :=
  List.filter (fun r => String.eqb (p_url r) url) rows.

Definition rows_but (url : string) (rows : list PageRow) : list PageRow :=
  List.filter (fun r => negb (String.eqb (p_url r) url)) rows.

(** State after an upsert that succeeded at once. *)
Definition store_effect (url : string) (title : option string) (text : string)
    (s : Crawler) : Crawler :=
  set_lock false
    (set_tbl_pages
       (insert_or_replace
          {| p_url := url; p_title := title; p_content := text;
             p_indexed_at := clock s; p_last_crawled := clock s |})
       (set_faults (fun fs => snd (next_outcome fs)) (set_lock true s))).





(** Events other than stamps and requests. *)
Definition quiet_ev (e : event) : bool :=
  match e with
  | EvSleep _ | EvRobotsRead _ => true
  | _ => false
  end.

(** [m] returns from every state and leaves the lock as it found it. *)
Definition total {A : Type} (m : M A) : Prop :=
  forall s, exists a s', m s = Returned (a, s') /\ lock s' = lock s.

(** [m] returns from every state in which the lock is free, and leaves
    it free. *)
Definition returns_unlocked {A : Type} (m : M A) : Prop :=
  forall s, lock s = false ->
            exists a s', m s = Returned (a, s') /\ lock s' = false.

(** Stamps of domain [d] logged after the first request for [url]. *)
Fixpoint stamps_after_get (d url : string) (tr : list event) : list Z :=
  match tr with
  | [] => []
  | EvHttpGet u :: tr' =>
      if String.eqb u url
      then flat_map (fun e => match e with
                              | EvStamp d' t => if String.eqb d' d then [t] else []
                              | _ => []
                              end) tr'
      else stamps_after_get d url tr'
  | _ :: tr' => stamps_after_get d url tr'
  end.

(** What [can_fetch] will answer for [url] of [domain]: the cached
    rules, or the rules the next read brings. *)
Definition robots_verdict (domain url : string) (s : Crawler) : bool :=
  match robot_parsers s !! domain with
  | Some (Some rules) => rr_can_fetch rules url
  | Some None => true
  | None =>
      match robots_txt s with
      | Some rules :: _ => rr_can_fetch rules url
      | _ => true
      end
  end.

(** Since a state with trace [tr0], only quiet events were added, and
    the stamps, the pending responses, the lock and the verdict on [url]
    are as they were. *)
Definition quiet_since (tr0 : list event) (dla0 : gmap string Z)
    (h0 : list http_result) (domain url : string) (v0 : bool) (s : Crawler) : Prop :=
  (exists new, trace s = tr0 ++ new /\ forallb quiet_ev new = true)
  /\ domain_last_access s = dla0
  /\ http s = h0
  /\ robots_verdict domain url s = v0.

(** The primary key of [pages]. *)
Definition pages_unique (s : Crawler) : Prop := List.NoDup (map p_url (tbl_pages s)).

(** [k] rounds of a statement that meets a locked database. *)
Fixpoint locked_rounds (k : nat) : list search_event :=
  match k with
  | O => []
  | S k' => SDbExecute :: SSleep :: locked_rounds k'
  end.

(** State after [domain_last_access[domain] = time.time()]. *)
Definition stamped (domain : string) (s : Crawler) : Crawler :=
  set_trace (fun tr => tr ++ [EvStamp domain (clock s)])
    (set_domain_last_access (fun m => <[domain := clock s]> m) s).

(** The links that [crawl_page] returns for a document. *)
Definition links_of (soup : Document) (url : string) : list string :=
  match extract_links (doc_hrefs soup) url with
  | Some links => links
  | None => []
  end.

(** The part of [crawl_page] that follows the check of robots.txt. *)
Definition fetch_and_store (domain url : string) (allowed : bool) : M (list string) :=
  if negb allowed then ret []
  else
    response <~ requests_get url ;;
    match response with
    | HttpRaises _ => ret []
    | HttpResponse _ status_code soup =>
        stamp domain ;;;
        if (status_code =? 200)%Z then
          let title := match doc_title soup with
                       | Some t => t
                       | None => Some url
                       end in
          let text_content := strip (collapse_ws false (join_blank (doc_texts soup))) in
          store_page 3 url title text_content ;;;
          ret (links_of soup url)
        else ret []
    end.

(** Duration of a request. *)
Definition latency_of (r : http_result) : Z :=
  match r with
  | HttpRaises l => l
  | HttpResponse l _ _ => l
  end.

(** The tables, the sets and the pending outcomes of [s0] are those of
    [s]. *)
Definition kept (s0 s : Crawler) : Prop :=
  tbl_pages s = tbl_pages s0
  /\ tbl_crawl_queue s = tbl_crawl_queue s0
  /\ crawl_queue s = crawl_queue s0
  /\ visited_urls s = visited_urls s0
  /\ faults s = faults s0
  /\ lock s = lock s0
  /\ http s = http s0
  /\ crawl_delay s = crawl_delay s0.

(** The log of [s] is [tr0] followed by further events. *)
Definition extends (tr0 : list event) (s : Crawler) : Prop :=
  exists new, trace s = tr0 ++ new.

(** The row that [crawl_page] writes for [url] at time [t]. *)
Definition page_row (url : string) (title : option string) (text : string) (t : Z)
    : PageRow :=
  {| p_url := url; p_title := title; p_content := text;
     p_indexed_at := t; p_last_crawled := t |}.

(** State after [requests.get(url)]. *)
Definition requested (url : string) (s : Crawler) : Crawler :=
  set_clock (fun t => t + latency_of (next_http s))%Z
    (set_http (fun hs => tl hs)
       (set_trace (fun tr => tr ++ [EvHttpGet url]) s)).

(** The row that a push of [url] at [priority] inserts at time [t]. *)
Definition queue_row (url : string) (priority t : Z) : QueueRow :=
  {| q_url := url; q_priority := priority; q_added_at := t |}.

(** URLs requested, in the order of the requests. *)
Fixpoint http_gets (tr : list event) : list string :=
  match tr with
  | [] => []
  | EvHttpGet u :: tr' => u :: http_gets tr'
  | _ :: tr' => http_gets tr'
  end.

(** No URL was requested twice, and every URL requested is in the
    visited set. *)
Definition fetched_once (s : Crawler) : Prop :=
  List.NoDup (http_gets (trace s))
  /\ (forall u, In u (http_gets (trace s)) -> u ∈ visited_urls s).

(** Calls other than a direct call of [crawl_page]. *)
Definition worker_call (c : call) : bool :=
  match c with
  | CrawlPage _ => false
  | _ => true
  end.

(** Every queued row is a row of [rows0] or a link found at depth
    [priority], not visited; the visited set is [visited]. *)
Definition links_queued (rows0 : list QueueRow) (priority : Z) (visited : gset string)
    (s : Crawler) : Prop :=
  visited_urls s = visited
  /\ (forall row, In row (tbl_crawl_queue s) ->
                  In row rows0 \/ (q_priority row = priority /\ q_url row ∉ visited)).

(** [late a b]: [a] was crawled no earlier than [b]. *)
Definition late (a b : PageRow) : Prop := (p_last_crawled b <= p_last_crawled a)%Z.

(** * Properties *)

(** ** The sort behind [sorted(..., reverse=True)] *)

Section PySortedFacts.
Context {A : Type} (key : A -> nat).

Lemma insert_by_perm (x : A) (l : list A) :
  Permutation (insert_by key x l) (x :: l).
Proof.
  induction l as [|y l IH]; simpl; [reflexivity|].
  destruct (key x <=? key y)%nat; [reflexivity|].
  rewrite IH. apply perm_swap.
Qed.

Lemma sort_asc_perm (l : list A) : Permutation (sort_asc key l) l.
Proof.
  induction l as [|x l IH]; simpl; [reflexivity|].
  rewrite insert_by_perm. now constructor.
Qed.








Lemma sorted_reverse_perm (l : list A) : Permutation (sorted_reverse key l) l.
Proof.
  unfold sorted_reverse.
  rewrite <- Permutation_rev, sort_asc_perm, <- Permutation_rev. reflexivity.
Qed.



End PySortedFacts.

(** ** Keyword extraction and search *)

Lemma ascii_lower_idem (c : ascii) : ascii_lower (ascii_lower c) = ascii_lower c.
Proof. destruct c as [[] [] [] [] [] [] [] []]; reflexivity. Qed.

Lemma lower_idem (s : string) : lower (lower s) = lower s.
Proof.
  induction s as [|c s IH]; [reflexivity|].
  simpl. now rewrite ascii_lower_idem, IH.
Qed.

Lemma keywords_lowercase (query kw : string) :
  In kw (extract_keywords query) -> lower kw = kw.
Proof.
  unfold extract_keywords. rewrite in_map_iff.
  intros (w & <- & _). apply lower_idem.
Qed.







Lemma extract_keywords_all_stop (query : string) :
  (forall w, In w (word_tokenize query) -> In (lower w) (stopwords_words "english")) ->
  extract_keywords query = [].
Proof.
  intros H. unfold extract_keywords.
  induction (word_tokenize query) as [|w ws IH]; [reflexivity|].
  simpl. rewrite bool_decide_eq_true_2.
  - rewrite andb_false_r. apply IH. intros w' Hw'. apply H. now right.
  - unfold stop_words. apply elem_of_list_to_set, list_elem_of_In, H. now left.
Qed.

(** C7: with a tokenizer that finds no token in the empty string and
    splits "the and of" into its three words, all of them stop words,
    both queries give no keyword; and a query without keywords makes
    [simple_search] return the empty list without any statement sent to
    the storage, whatever the storage would have answered. *)
Theorem no_keywords_no_storage_access :
  word_tokenize "" = [] ->
  word_tokenize "the and of" = ["the"; "and"; "of"] ->
  (forall w, In w ["the"; "and"; "of"] -> In w (stopwords_words "english")) ->
  extract_keywords "" = []
  /\ extract_keywords "the and of" = []
  /\ (forall query pages limit faults,
        extract_keywords query = [] ->
        simple_search query pages limit faults = ([], [])).
Proof.
  intros H0 H1 H2. split; [|split].
  - unfold extract_keywords. now rewrite H0.
  - apply extract_keywords_all_stop. rewrite H1. intros w Hw. apply H2.
    simpl in Hw. destruct Hw as [<-|[<-|[<-|[]]]]; simpl; auto.
  - intros query pages limit faults E. unfold simple_search. now rewrite E.
Qed.

(** ** Reasoning about method calls *)

Lemma preserves_ret {A : Type} (Inv : Crawler -> Prop) (a : A) : preserves Inv (ret a).
Proof. intros s H. exact H. Qed.

Lemma preserves_bind {A B : Type} (Inv : Crawler -> Prop) (m : M A) (k : A -> M B) :
  preserves Inv m -> (forall a, preserves Inv (k a)) -> preserves Inv (bind m k).
Proof.
  intros Hm Hk s H. unfold bind. specialize (Hm s H).
  destruct (m s) as [[a s']| | |s']; [|exact Logic.I..|exact Hm]. now apply Hk.
Qed.

Lemma preserves_gets {A : Type} (Inv : Crawler -> Prop) (f : Crawler -> A) :
  preserves Inv (gets f).
Proof. intros s H. exact H. Qed.

Lemma preserves_modify (Inv : Crawler -> Prop) (g : Crawler -> Crawler) :
  (forall s, Inv s -> Inv (g s)) -> preserves Inv (modify g).
Proof. intros Hg s H. now apply Hg. Qed.

Lemma preserves_block {A : Type} (Inv : Crawler -> Prop) : preserves Inv (@block A).
Proof. intros s H. exact Logic.I. Qed.

Lemma preserves_out_of_fuel {A : Type} (Inv : Crawler -> Prop) :
  preserves Inv (@out_of_fuel A).
Proof. intros s H. exact Logic.I. Qed.

Lemma preserves_raise {A : Type} (Inv : Crawler -> Prop) : preserves Inv (@raise A).
Proof. intros s H. exact H. Qed.

Lemma preserves_try_except {A : Type} (Inv : Crawler -> Prop) (body handler : M A) :
  preserves Inv body -> preserves Inv handler -> preserves Inv (try_except body handler).
Proof.
  intros Hb Hh s H. unfold try_except. specialize (Hb s H).
  destruct (body s) as [[a s']| | |s']; [exact Hb|exact Logic.I..|now apply Hh].
Qed.

Lemma preserves_urlparse_netloc (Inv : Crawler -> Prop) (url : string) :
  preserves Inv (urlparse_netloc url).
Proof.
  unfold urlparse_netloc. destruct (netloc url); [apply preserves_ret|apply preserves_raise].
Qed.

Lemma preserves_for_each {A : Type} (Inv : Crawler -> Prop) (xs : list A)
    (body : A -> M unit) :
  (forall x, preserves Inv (body x)) -> preserves Inv (for_each xs body).
Proof.
  intros Hb. induction xs as [|x xs IH]; simpl.
  - apply preserves_ret.
  - apply preserves_bind; [apply Hb | intros _; exact IH].
Qed.

Lemma preserves_with_lock {A : Type} (Inv : Crawler -> Prop) (body : M A) :
  (forall b s, Inv s -> Inv (set_lock b s)) ->
  preserves Inv body -> preserves Inv (with_lock body).
Proof.
  intros Hl Hb. unfold with_lock.
  apply preserves_bind; [apply preserves_gets|]. intros [].
  - apply preserves_block.
  - apply preserves_bind; [apply preserves_modify, Hl|]. intros _.
    apply preserves_bind.
    + apply preserves_try_except; [exact Hb|].
      apply preserves_bind; [apply preserves_modify, Hl|]. intros _.
      apply preserves_raise.
    + intros a. apply preserves_bind; [apply preserves_modify, Hl|]. intros _.
      apply preserves_ret.
Qed.

(** Splits the goal along the structure of a method body. *)
Ltac preserves_step :=
  match goal with
  | |- preserves _ (bind _ _) => apply preserves_bind; [|intros ?]
  | |- preserves _ (ret _) => apply preserves_ret
  | |- preserves _ (gets _) => apply preserves_gets
  | |- preserves _ block => apply preserves_block
  | |- preserves _ out_of_fuel => apply preserves_out_of_fuel
  | |- preserves _ raise => apply preserves_raise
  | |- preserves _ (urlparse_netloc _) => apply preserves_urlparse_netloc
  | |- preserves _ (try_except _ _) => apply preserves_try_except
  | |- preserves _ now => apply preserves_gets
  | |- preserves _ (with_lock _) => apply preserves_with_lock; [now intros ? ? ?|]
  | |- preserves _ (for_each _ _) => apply preserves_for_each; intros ?
  | |- preserves _ (modify _) => apply preserves_modify; try (intros ? ?; assumption)
  | |- preserves _ (match ?x with _ => _ end) => destruct x
  end.

Ltac preserves_auto :=
  repeat first
    [ assumption
    | preserves_step
    | progress unfold sleep, emit, db_step, stamp, requests_get, caught ].

(** ** Frontier: uniqueness of queued URLs *)

Lemma NoDup_snoc {A : Type} (l : list A) (a : A) :
  List.NoDup l -> ~ In a l -> List.NoDup (l ++ [a]).
Proof.
  induction l as [|x l IH]; simpl; intros Hl Ha.
  - constructor; [intros []|constructor].
  - apply List.NoDup_cons_iff in Hl as [Hx Hl].
    apply List.NoDup_cons_iff. split.
    + rewrite in_app_iff. intros [H|[H|[]]]; [contradiction|]. apply Ha. now left.
    + apply IH; [exact Hl|]. intros H. apply Ha. now right.
Qed.

Lemma has_url_In (url : string) (rows : list QueueRow) :
  has_url url rows = true <-> In url (map q_url rows).
Proof.
  unfold has_url. rewrite existsb_exists, in_map_iff. split.
  - intros (r & Hr & E). apply String.eqb_eq in E. eauto.
  - intros (r & E & Hr). exists r. split; [exact Hr|]. now apply String.eqb_eq.
Qed.

Lemma count_url_app (url : string) (a b : list QueueRow) :
  count_url url (a ++ b) = count_url url a + count_url url b.
Proof. unfold count_url. now rewrite List.filter_app, length_app. Qed.

Lemma count_url_absent (url : string) (rows : list QueueRow) :
  ~ In url (map q_url rows) -> count_url url rows = 0.
Proof.
  unfold count_url. induction rows as [|r rows IH]; [reflexivity|].
  simpl. intros H. destruct (String.eqb_spec (q_url r) url) as [E|E].
  - exfalso. apply H. now left.
  - apply IH. intros Hin. apply H. now right.
Qed.

Lemma count_url_unique (url : string) (rows : list QueueRow) :
  List.NoDup (map q_url rows) -> In url (map q_url rows) -> count_url url rows = 1.
Proof.
  induction rows as [|r rows IH]; simpl; [intros _ []|].
  intros Hnd Hin. apply List.NoDup_cons_iff in Hnd as [Hr Hnd].
  unfold count_url in *. simpl.
  destruct (String.eqb_spec (q_url r) url) as [E|E].
  - simpl. f_equal. apply (count_url_absent url rows). now rewrite <- E.
  - destruct Hin as [Hin|Hin]; [contradiction|]. now apply IH.
Qed.

Lemma insert_or_ignore_unique (row : QueueRow) (rows : list QueueRow) :
  List.NoDup (map q_url rows) -> List.NoDup (map q_url (insert_or_ignore row rows)).
Proof.
  intros H. unfold insert_or_ignore.
  destruct (has_url (q_url row) rows) eqn:E; [exact H|].
  rewrite map_app. simpl. apply NoDup_snoc; [exact H|].
  intros Hu. apply has_url_In in Hu. congruence.
Qed.

Lemma insert_or_ignore_In (row : QueueRow) (rows : list QueueRow) :
  In (q_url row) (map q_url (insert_or_ignore row rows)).
Proof.
  unfold insert_or_ignore.
  destruct (has_url (q_url row) rows) eqn:E.
  - now apply has_url_In.
  - rewrite map_app, in_app_iff. right. now left.
Qed.

Lemma delete_url_unique (url : string) (rows : list QueueRow) :
  List.NoDup (map q_url rows) -> List.NoDup (map q_url (delete_url url rows)).
Proof.
  unfold delete_url. induction rows as [|r rows IH]; simpl; [auto|].
  intros H. apply List.NoDup_cons_iff in H as [Hr H].
  destruct (negb (String.eqb (q_url r) url)); [|now apply IH].
  simpl. apply List.NoDup_cons_iff. split; [|now apply IH].
  intros Hin. apply Hr. apply in_map_iff in Hin as (x & E & Hx).
  apply List.filter_In in Hx as [Hx _]. apply in_map_iff. eauto.
Qed.

Lemma delete_url_absent (url : string) (rows : list QueueRow) :
  ~ In url (map q_url (delete_url url rows)).
Proof.
  unfold delete_url. rewrite in_map_iff. intros (r & E & Hr).
  apply List.filter_In in Hr as [_ Hr].
  apply negb_true_iff, String.eqb_neq in Hr. contradiction.
Qed.

Lemma add_url_to_queue_unique (fuel : nat) (url : string) (priority : Z) :
  preserves queue_unique (add_url_to_queue fuel url priority).
Proof.
  induction fuel as [|fuel IH]; simpl; preserves_auto.
  intros s H. now apply insert_or_ignore_unique.
Qed.

Lemma pop_attempts_unique (n : nat) (found : option (string * Z)) :
  preserves queue_unique (pop_attempts n found).
Proof.
  revert found. induction n as [|n IH]; intros found; simpl; preserves_auto;
    try apply IH.
  intros s H. now apply delete_url_unique.
Qed.

Lemma store_page_unique (n : nat) (url : string) (title : option string)
    (text : string) :
  preserves queue_unique (store_page n url title text).
Proof.
  revert url title text. induction n as [|n IH]; intros; simpl; preserves_auto;
    try apply IH.
Qed.

Lemma get_robot_parser_unique (url : string) :
  preserves queue_unique (get_robot_parser url).
Proof. unfold get_robot_parser. preserves_auto. Qed.

Lemma crawl_page_unique (url : string) : preserves queue_unique (crawl_page url).
Proof.
  unfold crawl_page, respect_crawl_delay, get_crawl_delay, can_fetch.
  preserves_auto; try apply get_robot_parser_unique; try apply store_page_unique.
Qed.

Lemma crawl_worker_step_unique : preserves queue_unique crawl_worker_step.
Proof.
  unfold crawl_worker_step, pop.
  preserves_auto;
    try apply pop_attempts_unique; try apply crawl_page_unique;
    try apply add_url_to_queue_unique.
Qed.

Lemma run_unique (calls : list call) : preserves queue_unique (run calls).
Proof.
  induction calls as [|c calls IH]; cbn [run]; [apply preserves_ret|].
  destruct c; unfold pop, can_fetch, get_crawl_delay; preserves_auto;
    try apply add_url_to_queue_unique; try apply pop_attempts_unique;
    try apply crawl_page_unique; try apply get_robot_parser_unique;
    try apply crawl_worker_step_unique.
Qed.

Lemma count_url_le_one (url : string) (rows : list QueueRow) :
  List.NoDup (map q_url rows) -> count_url url rows <= 1.
Proof.
  intros H. destruct (has_url url rows) eqn:E.
  - apply has_url_In in E. now rewrite count_url_unique.
  - rewrite count_url_absent; [lia|]. intros Hin. apply has_url_In in Hin. congruence.
Qed.

(** Unfolds the monadic operations of a method body applied to a state. *)
Ltac exec :=
  cbv [bind gets modify ret block out_of_fuel raise try_except with_lock db_step
       now sleep emit stamp requests_get];
  cbn.

Lemma no_fault_next (n : nat) (fs : list db_outcome) :
  no_fault (S n) fs = true ->
  fst (next_outcome fs) = DbOk /\ no_fault n (snd (next_outcome fs)) = true.
Proof.
  destruct fs as [|[] fs]; simpl; try discriminate; auto.
  intros _. split; [reflexivity|]. now destruct n.
Qed.

Lemma add_url_to_queue_ok (fuel : nat) (s : Crawler) (url : string) (p : Z) :
  url <> "" ->
  url ∉ visited_urls s ->
  lock s = false ->
  no_fault 1 (faults s) = true ->
  add_url_to_queue (S fuel) url p s = Returned (tt, push_effect url p s).
Proof.
  intros Hne Hv Hl Hf. apply String.eqb_neq in Hne.
  apply no_fault_next in Hf as [Hf _].
  cbn [add_url_to_queue]. exec.
  rewrite Hne, (bool_decide_eq_false_2 _ Hv). cbn. rewrite Hl. cbn.
  rewrite Hf. reflexivity.
Qed.

Lemma add_url_to_queue_skips (fuel : nat) (s : Crawler) (url : string) (p : Z) :
  url = "" \/ url ∈ visited_urls s ->
  add_url_to_queue (S fuel) url p s = Returned (tt, s).
Proof.
  intros H. cbn [add_url_to_queue]. exec.
  destruct H as [->|H]; [reflexivity|].
  rewrite (bool_decide_eq_true_2 _ H), orb_true_r. reflexivity.
Qed.

(** What a push of a URL that passes the guard does, when it returns. *)
Lemma add_url_to_queue_inserted (fuel : nat) (url : string) (p : Z) (s s' : Crawler) :
  url <> "" ->
  url ∉ visited_urls s ->
  add_url_to_queue fuel url p s = Returned (tt, s') ->
  visited_urls s' = visited_urls s
  /\ faults s' = snd (next_outcome (faults s))
  /\ (forall u, In u (map q_url (tbl_crawl_queue s)) ->
                In u (map q_url (tbl_crawl_queue s')))
  /\ (fst (next_outcome (faults s)) = DbOk -> In url (map q_url (tbl_crawl_queue s'))).
Proof.
  intros Hne Hv. apply String.eqb_neq in Hne.
  pose proof (bool_decide_eq_false_2 _ Hv) as Hb.
  destruct fuel as [|fuel]; [discriminate|].
  cbn [add_url_to_queue]. exec. rewrite Hne, Hb. cbn.
  destruct (lock s) eqn:Hl; [discriminate|]. cbn.
  destruct (fst (next_outcome (faults s))) eqn:E; cbn.
  - intros [= <-]. cbn. split; [reflexivity|]. split; [reflexivity|]. split.
    + intros u Hu. unfold insert_or_ignore. cbn.
      destruct (has_url url (tbl_crawl_queue s)); [exact Hu|].
      rewrite map_app, in_app_iff. now left.
    + intros _.
      apply (insert_or_ignore_In {| q_url := url; q_priority := p; q_added_at := clock s |}).
  - destruct fuel as [|fuel]; cbn; [discriminate|].
    rewrite Hne, Hb. cbn. discriminate.
  - intros [= <-]. cbn. split; [reflexivity|]. split; [reflexivity|].
    split; [auto|discriminate].
Qed.

(** C2 (amended): on a queue table in which no URL has two rows, two
    pushes of a URL in a row that both return leave at most one row for
    it; exactly one when the URL is not empty, was not visited, and at
    least one of the two inserts meets no storage error; and the state
    as it was, both pushes doing nothing, when the URL is empty or was
    visited.  And after any sequence of calls made on such a table, no
    URL has more than one row. *)
Theorem push_twice_one_entry :
  (forall (s s2 : Crawler) (url : string) (p p' : Z) (r : list (option (string * Z))),
      queue_unique s ->
      run [Push url p; Push url p'] s = Returned (r, s2) ->
      count_url url (tbl_crawl_queue s2) <= 1
      /\ (url = "" \/ url ∈ visited_urls s -> s2 = s)
      /\ (url <> "" -> url ∉ visited_urls s ->
          fst (next_outcome (faults s)) = DbOk
          \/ fst (next_outcome (snd (next_outcome (faults s)))) = DbOk ->
          count_url url (tbl_crawl_queue s2) = 1))
  /\ (forall (calls : list call) (s s' : Crawler) (r : list (option (string * Z))),
        queue_unique s ->
        run calls s = Returned (r, s') ->
        forall u, count_url u (tbl_crawl_queue s') <= 1).
Proof.
  assert (Hinv : forall calls s s' r,
             queue_unique s -> run calls s = Returned (r, s') ->
             forall u, count_url u (tbl_crawl_queue s') <= 1).
  { intros calls s s' r H0 Hr u. apply count_url_le_one.
    pose proof (run_unique calls s H0) as H. now rewrite Hr in H. }
  split; [|exact Hinv].
  intros s s2 url p p' r Hu Hrun.
  split; [exact (Hinv _ s s2 r Hu Hrun url)|]. split.
  - intros Hskip. cbn [run] in Hrun. unfold bind in Hrun.
    rewrite (add_url_to_queue_skips 1 s url p Hskip) in Hrun.
    rewrite (add_url_to_queue_skips 1 s url p' Hskip) in Hrun.
    now injection Hrun as _ <-.
  - intros Hne Hv Hok.
    assert (Hu2 : queue_unique s2).
    { pose proof (run_unique [Push url p; Push url p'] s Hu) as H.
      now rewrite Hrun in H. }
    apply count_url_unique; [exact Hu2|].
    cbn [run] in Hrun. unfold bind in Hrun.
    destruct (add_url_to_queue 2 url p s) as [[[] s1]| | |s1] eqn:E1; try discriminate.
    destruct (add_url_to_queue 2 url p' s1) as [[[] s1']| | |s1'] eqn:E2;
      try discriminate.
    injection Hrun as _ <-.
    destruct (add_url_to_queue_inserted _ _ _ _ _ Hne Hv E1) as (Hv1 & Hf1 & Hk1 & Hi1).
    assert (Hv' : url ∉ visited_urls s1) by now rewrite Hv1.
    destruct (add_url_to_queue_inserted _ _ _ _ _ Hne Hv' E2) as (_ & _ & Hk2 & Hi2).
    destruct Hok as [Hok|Hok].
    + now apply Hk2, Hi1.
    + apply Hi2. now rewrite Hf1.
Qed.

(** C3: when the insert of a push meets a locked database, the retry is
    a nested call made while [self.lock] is still held, so the thread
    waits on its own lock: the push never returns, whatever the bound on
    the recursion of the model. *)
Theorem push_blocks_on_contention (fuel : nat) (s : Crawler) (url : string) (p : Z)
    (rest : list db_outcome) :
  url <> "" ->
  url ∉ visited_urls s ->
  lock s = false ->
  faults s = DbLocked :: rest ->
  add_url_to_queue (S (S fuel)) url p s = Blocked
  /\ (forall n a, add_url_to_queue n url p s <> Returned a).
Proof.
  intros Hne Hv Hl Hf. apply String.eqb_neq in Hne.
  pose proof (bool_decide_eq_false_2 _ Hv) as Hb.
  assert (H2 : forall k, add_url_to_queue (S (S k)) url p s = Blocked).
  { intros k. cbn [add_url_to_queue]. exec. rewrite Hne, Hb. cbn. rewrite Hl. cbn.
    rewrite Hf. cbn. rewrite Hb. reflexivity. }
  split; [apply H2|].
  intros [|[|k]] a.
  - discriminate.
  - cbn [add_url_to_queue]. exec. rewrite Hne, Hb. cbn. rewrite Hl. cbn.
    rewrite Hf. cbn. discriminate.
  - rewrite H2. discriminate.
Qed.

(** ** Frontier: dequeue order *)

Lemma select_first_none (rows : list QueueRow) :
  select_first rows = None <-> rows = [].
Proof.
  destruct rows as [|r rows]; simpl; [tauto|].
  split; [|discriminate].
  destruct (select_first rows) as [m|]; [|discriminate].
  destruct (queue_lt m r); discriminate.
Qed.

Lemma select_first_min (rows : list QueueRow) (m : QueueRow) :
  select_first rows = Some m ->
  In m rows /\ (forall r, In r rows -> queue_le m r).
Proof.
  revert m. induction rows as [|r rows IH]; simpl; [discriminate|].
  intros m. destruct (select_first rows) as [m'|] eqn:E.
  - destruct (IH m' eq_refl) as [Hin Hmin].
    unfold queue_lt. intros H.
    destruct ((q_priority m' <? q_priority r)
              || (q_priority m' =? q_priority r) && (q_added_at m' <? q_added_at r))%Z eqn:C;
      injection H as <-.
    + split; [now right|]. intros x [<-|Hx]; [|now apply Hmin].
      unfold queue_le. lia.
    + split; [now left|]. intros x [<-|Hx]; [unfold queue_le; lia|].
      specialize (Hmin x Hx). unfold queue_le in *. lia.
  - intros [= <-]. apply select_first_none in E. subst rows.
    split; [now left|]. intros x [<-|[]]. unfold queue_le. lia.
Qed.

Lemma pop_found (s : Crawler) (row : QueueRow) :
  lock s = false ->
  no_fault 2 (faults s) = true ->
  select_first (tbl_crawl_queue s) = Some row ->
  pop s = Returned (Some (q_url row, q_priority row), pop_effect row s).
Proof.
  intros Hl Hf Hs.
  apply no_fault_next in Hf as [Hf1 Hf2]. apply no_fault_next in Hf2 as [Hf2 _].
  unfold pop. cbn [pop_attempts]. exec. rewrite Hl. cbn.
  rewrite Hf1. cbn. rewrite Hs. cbn. rewrite Hf2. reflexivity.
Qed.

Lemma pop_empty (s : Crawler) :
  lock s = false ->
  no_fault 1 (faults s) = true ->
  tbl_crawl_queue s = [] ->
  pop s = Returned (None, pop_nothing s).
Proof.
  intros Hl Hf Hs. apply no_fault_next in Hf as [Hf _].
  unfold pop. cbn [pop_attempts]. exec. rewrite Hl. cbn.
  rewrite Hf. cbn. rewrite Hs. reflexivity.
Qed.

Lemma delete_url_length (row : QueueRow) (rows : list QueueRow) :
  List.NoDup (map q_url rows) -> In row rows ->
  S (List.length (delete_url (q_url row) rows)) = List.length rows.
Proof.
  intros Hnd Hin.
  assert (H : forall l : list QueueRow,
             List.length (delete_url (q_url row) l) + count_url (q_url row) l
             = List.length l).
  { induction l as [|r l IH]; [reflexivity|].
    unfold delete_url, count_url in *. simpl.
    destruct (String.eqb (q_url r) (q_url row)); simpl; lia. }
  specialize (H rows).
  rewrite count_url_unique in H; [lia|exact Hnd|now apply in_map].
Qed.

(** C4: with the lock free and no storage error on the two statements, a
    dequeue on a non-empty table returns the url and priority of a row
    that no row precedes in (priority, added_at) order, and leaves the
    table without that row and with all its other rows; on an empty
    table it returns nothing and the table stays empty. *)
Theorem pop_returns_most_urgent (s : Crawler) :
  lock s = false ->
  no_fault 2 (faults s) = true ->
  queue_unique s ->
  match tbl_crawl_queue s with
  | [] => exists s', pop s = Returned (None, s') /\ tbl_crawl_queue s' = []
  | _ :: _ =>
      exists row s',
        pop s = Returned (Some (q_url row, q_priority row), s')
        /\ In row (tbl_crawl_queue s)
        /\ (forall r, In r (tbl_crawl_queue s) -> queue_le row r)
        /\ ~ In row (tbl_crawl_queue s')
        /\ (forall r, In r (tbl_crawl_queue s') <->
                      In r (tbl_crawl_queue s) /\ r <> row)
        /\ S (List.length (tbl_crawl_queue s')) = List.length (tbl_crawl_queue s)
        /\ lock s' = false
  end.
Proof.
  intros Hl Hf Hu.
  destruct (tbl_crawl_queue s) as [|r0 rows] eqn:Et.
  - exists (pop_nothing s). split; [|exact Et].
    apply pop_empty; try assumption.
    destruct (faults s) as [|[] ?]; try discriminate; reflexivity.
  - destruct (select_first (tbl_crawl_queue s)) as [row|] eqn:Es.
    2:{ apply select_first_none in Es. congruence. }
    destruct (select_first_min _ _ Es) as [Hin Hmin].
    assert (Hkey : forall r, In r (tbl_crawl_queue s) ->
                             q_url r = q_url row -> r = row).
    { unfold queue_unique in Hu. intros r Hr E.
      revert Hu Hin Hr. generalize (tbl_crawl_queue s). intros l.
      induction l as [|x l IH]; simpl; [tauto|].
      intros Hnd. apply List.NoDup_cons_iff in Hnd as [Hx Hnd].
      intros [->|H1] [->|H2]; auto.
      - exfalso. apply Hx. rewrite <- E. now apply in_map.
      - exfalso. apply Hx. rewrite E. now apply in_map. }
    exists row, (pop_effect row s). rewrite <- Et.
    split; [now apply pop_found|].
    split; [exact Hin|]. split; [exact Hmin|].
    cbn. unfold delete_url. split; [|split; [|split; [|reflexivity]]].
    + rewrite List.filter_In, String.eqb_refl. simpl. intros [_ H]. discriminate.
    + intros r. rewrite List.filter_In, negb_true_iff, String.eqb_neq.
      split; intros [H1 H2]; (split; [exact H1|]).
      * intros ->. now apply H2.
      * intros E. apply H2. now apply Hkey.
    + now apply delete_url_length.
Qed.

(** ** The in-memory mirror of the queue is never read *)

Lemma blind_ret {A : Type} (a : A) : mirror_blind (ret a).
Proof. intros s1 s2 H. split; [reflexivity|exact H]. Qed.

Lemma blind_bind {A B : Type} (m : M A) (k : A -> M B) :
  mirror_blind m -> (forall a, mirror_blind (k a)) -> mirror_blind (bind m k).
Proof.
  intros Hm Hk s1 s2 H. unfold bind. specialize (Hm s1 s2 H). unfold agree in Hm.
  destruct (m s1) as [[a1 t1]| | |t1], (m s2) as [[a2 t2]| | |t2]; try contradiction;
    try exact Logic.I; [|exact Hm].
  destruct Hm as [<- Ht]. now apply Hk.
Qed.

Lemma blind_gets {A : Type} (f : Crawler -> A) :
  (forall s, f s = f (erase_mirror s)) -> mirror_blind (gets f).
Proof.
  intros Hf s1 s2 H. split; [|exact H].
  rewrite (Hf s1), (Hf s2). now f_equal.
Qed.

Lemma blind_modify (g : Crawler -> Crawler) :
  (forall s, erase_mirror (g s) = erase_mirror (g (erase_mirror s))) ->
  mirror_blind (modify g).
Proof.
  intros Hg s1 s2 H. split; [reflexivity|]. unfold same_but_mirror in *.
  rewrite (Hg s1), (Hg s2). now rewrite H.
Qed.

Lemma blind_block {A : Type} : mirror_blind (@block A).
Proof. intros s1 s2 H. exact Logic.I. Qed.

Lemma blind_out_of_fuel {A : Type} : mirror_blind (@out_of_fuel A).
Proof. intros s1 s2 H. exact Logic.I. Qed.

Lemma blind_raise {A : Type} : mirror_blind (@raise A).
Proof. intros s1 s2 H. exact H. Qed.

Lemma blind_try_except {A : Type} (body handler : M A) :
  mirror_blind body -> mirror_blind handler -> mirror_blind (try_except body handler).
Proof.
  intros Hb Hh s1 s2 H. unfold try_except. specialize (Hb s1 s2 H). unfold agree in Hb.
  destruct (body s1) as [[a1 t1]| | |t1], (body s2) as [[a2 t2]| | |t2];
    try contradiction; try exact Logic.I; [exact Hb|].
  now apply Hh.
Qed.

Lemma blind_urlparse_netloc (url : string) : mirror_blind (urlparse_netloc url).
Proof.
  unfold urlparse_netloc. destruct (netloc url); [apply blind_ret|apply blind_raise].
Qed.

Lemma blind_for_each {A : Type} (xs : list A) (body : A -> M unit) :
  (forall x, mirror_blind (body x)) -> mirror_blind (for_each xs body).
Proof.
  intros Hb. induction xs as [|x xs IH]; simpl.
  - apply blind_ret.
  - apply blind_bind; [apply Hb | intros _; exact IH].
Qed.

Ltac blind_step :=
  match goal with
  | |- mirror_blind (bind _ _) => apply blind_bind; [|intros ?]
  | |- mirror_blind (ret _) => apply blind_ret
  | |- mirror_blind (gets _) => apply blind_gets; intros ?; reflexivity
  | |- mirror_blind block => apply blind_block
  | |- mirror_blind out_of_fuel => apply blind_out_of_fuel
  | |- mirror_blind raise => apply blind_raise
  | |- mirror_blind (urlparse_netloc _) => apply blind_urlparse_netloc
  | |- mirror_blind (try_except _ _) => apply blind_try_except
  | |- mirror_blind (for_each _ _) => apply blind_for_each; intros ?
  | |- mirror_blind (modify _) => apply blind_modify; intros ?; reflexivity
  | |- mirror_blind (match ?x with _ => _ end) => destruct x
  end.

Ltac blind_auto :=
  repeat first
    [ assumption
    | blind_step
    | progress unfold sleep, emit, db_step, stamp, requests_get, now, with_lock, caught ].

Lemma add_url_to_queue_blind (fuel : nat) (url : string) (priority : Z) :
  mirror_blind (add_url_to_queue fuel url priority).
Proof. induction fuel as [|fuel IH]; simpl; blind_auto. Qed.

Lemma pop_attempts_blind (n : nat) (found : option (string * Z)) :
  mirror_blind (pop_attempts n found).
Proof.
  revert found. induction n as [|n IH]; intros found; simpl; blind_auto;
    try apply IH.
Qed.

Lemma store_page_blind (n : nat) (url : string) (title : option string)
    (text : string) :
  mirror_blind (store_page n url title text).
Proof.
  revert url title text. induction n as [|n IH]; intros; simpl; blind_auto;
    try apply IH.
Qed.

Lemma get_robot_parser_blind (url : string) : mirror_blind (get_robot_parser url).
Proof. unfold get_robot_parser. blind_auto. Qed.

Lemma crawl_page_blind (url : string) : mirror_blind (crawl_page url).
Proof.
  unfold crawl_page, respect_crawl_delay, get_crawl_delay, can_fetch.
  blind_auto; try apply get_robot_parser_blind; try apply store_page_blind.
Qed.

Lemma crawl_worker_step_blind : mirror_blind crawl_worker_step.
Proof.
  unfold crawl_worker_step, pop.
  blind_auto;
    try apply pop_attempts_blind; try apply crawl_page_blind;
    try apply add_url_to_queue_blind.
Qed.

Lemma run_blind (calls : list call) : mirror_blind (run calls).
Proof.
  induction calls as [|c calls IH]; cbn [run]; [apply blind_ret|].
  destruct c; unfold pop, can_fetch, get_crawl_delay; blind_auto;
    try apply add_url_to_queue_blind; try apply pop_attempts_blind;
    try apply crawl_page_blind; try apply get_robot_parser_blind;
    try apply crawl_worker_step_blind.
Qed.

(** *** Calls that no exception leaves *)

Lemma never_raises_ret {A : Type} (a : A) : never_raises (ret a).
Proof. intros s s'. discriminate. Qed.

Lemma never_raises_bind {A B : Type} (m : M A) (k : A -> M B) :
  never_raises m -> (forall a, never_raises (k a)) -> never_raises (bind m k).
Proof.
  intros Hm Hk s s'. unfold bind. specialize (Hm s).
  destruct (m s) as [[a t]| | |t]; try discriminate; [apply Hk|].
  now destruct (Hm t).
Qed.

Lemma never_raises_try_except {A : Type} (body handler : M A) :
  never_raises handler -> never_raises (try_except body handler).
Proof.
  intros Hh s s'. unfold try_except.
  destruct (body s) as [[a t]| | |t]; try discriminate. apply Hh.
Qed.

Lemma never_raises_with_lock {A : Type} (body : M A) :
  never_raises body -> never_raises (with_lock body).
Proof.
  intros Hb s s'. unfold with_lock. exec. destruct (lock s); [discriminate|].
  specialize (Hb (set_lock true s)).
  destruct (body (set_lock true s)) as [[a t]| | |t]; try discriminate.
  now destruct (Hb t).
Qed.

Lemma never_raises_for_each {A : Type} (xs : list A) (body : A -> M unit) :
  (forall x, never_raises (body x)) -> never_raises (for_each xs body).
Proof.
  intros Hb. induction xs as [|x xs IH]; simpl.
  - apply never_raises_ret.
  - apply never_raises_bind; [apply Hb | intros _; exact IH].
Qed.

Ltac never_raises_step :=
  match goal with
  | |- never_raises (bind _ _) => apply never_raises_bind; [|intros ?]
  | |- never_raises (try_except _ (ret _)) => apply never_raises_try_except
  | |- never_raises (with_lock _) => apply never_raises_with_lock
  | |- never_raises (for_each _ _) => apply never_raises_for_each; intros ?
  | |- never_raises (match ?x with _ => _ end) => destruct x
  | |- never_raises _ => intros ? ?; discriminate
  end.

Ltac never_raises_auto :=
  repeat first
    [ assumption
    | never_raises_step
    | progress unfold sleep, emit, db_step, now, caught ].

Lemma add_url_to_queue_never_raises (fuel : nat) (url : string) (priority : Z) :
  never_raises (add_url_to_queue fuel url priority).
Proof. induction fuel as [|fuel IH]; simpl; never_raises_auto. Qed.

Lemma pop_attempts_never_raises (n : nat) (found : option (string * Z)) :
  never_raises (pop_attempts n found).
Proof.
  revert found. induction n as [|n IH]; intros found; simpl; never_raises_auto;
    try apply IH.
Qed.

Lemma crawl_worker_step_never_raises : never_raises crawl_worker_step.
Proof.
  unfold crawl_worker_step. apply never_raises_try_except. never_raises_auto.
Qed.

Lemma run_never_raises (calls : list call) : never_raises (run calls).
Proof.
  induction calls as [|c calls IH]; cbn [run]; [apply never_raises_ret|].
  destruct c; unfold pop; never_raises_auto;
    try apply add_url_to_queue_never_raises; try apply pop_attempts_never_raises;
    try apply crawl_worker_step_never_raises.
Qed.

(** C10: two crawlers that differ only in the content of the in-memory
    priority queue behave alike under every sequence of calls: both
    return or neither does, the dequeues answer the same (url, priority)
    pairs, and the final states again differ at most in that queue. *)
Theorem pops_ignore_mirror (calls : list call) (s1 s2 : Crawler) :
  same_but_mirror s1 s2 ->
  match run calls s1, run calls s2 with
  | Returned (popped1, s1'), Returned (popped2, s2') =>
      popped1 = popped2 /\ same_but_mirror s1' s2'
  | Blocked, Blocked => True
  | OutOfFuel, OutOfFuel => True
  | _, _ => False
  end.
Proof.
  intros H. pose proof (run_blind calls s1 s2 H) as Ha. unfold agree in Ha.
  destruct (run calls s1) as [[popped1 s1']| | |s1'] eqn:E1; try exact Ha.
  now destruct (run_never_raises calls s1 s1').
Qed.

(** ** Link extraction *)

Lemma extract_links_from_resolved (hrefs : list string) (base_url : string)
    (links : list string) :
  extract_links_from links hrefs base_url
  = option_map (fun us => links ++ List.filter keep_link us) (resolve_all base_url hrefs).
Proof.
  revert links. induction hrefs as [|h hrefs IH]; intros links; simpl.
  - now rewrite app_nil_r.
  - destruct (urljoin base_url h) as [u|]; [|reflexivity].
    rewrite IH. destruct (resolve_all base_url hrefs) as [us|]; [|reflexivity].
    simpl. destruct (keep_link u); [|reflexivity].
    now rewrite <- app_assoc.
Qed.

Lemma resolve_all_none (hrefs : list string) (base_url : string) :
  resolve_all base_url hrefs = None
  <-> exists href, In href hrefs /\ urljoin base_url href = None.
Proof.
  induction hrefs as [|h hrefs IH]; simpl.
  - split; [discriminate|]. now intros (href & [] & _).
  - destruct (urljoin base_url h) as [u|] eqn:Eu.
    + destruct (resolve_all base_url hrefs) as [us|].
      * split; [discriminate|]. intros (href & [<-|Hin] & E); [congruence|].
        destruct IH as [_ IH]. discriminate IH. eauto.
      * split; [|reflexivity]. intros _.
        destruct IH as [IH _]. destruct (IH eq_refl) as (href & Hin & E). eauto.
    + split; [|reflexivity]. intros _. exists h. split; [now left|exact Eu].
Qed.

Lemma resolve_all_In (hrefs : list string) (base_url : string) (us : list string) :
  resolve_all base_url hrefs = Some us ->
  forall u, In u us <-> exists href, In href hrefs /\ urljoin base_url href = Some u.
Proof.
  revert us. induction hrefs as [|h hrefs IH]; simpl; intros us.
  - intros [= <-] u. split; [intros []|]. now intros (href & [] & _).
  - destruct (urljoin base_url h) as [u0|] eqn:Eu; [|discriminate].
    destruct (resolve_all base_url hrefs) as [us0|]; [|discriminate].
    intros [= <-] u. specialize (IH us0 eq_refl u). simpl. rewrite IH. split.
    + intros [<-|(href & Hin & E)]; [exists h; split; [now left|exact Eu]|].
      exists href. split; [now right|exact E].
    + intros (href & [<-|Hin] & E); [left; congruence|]. right. eauto.
Qed.

(** C6 (amended): when every reference of the document can be resolved
    against the base URL, the links returned are, in document order, the
    resolved references that start with http:// or https:// and contain
    no '#' at all: every link that carries a fragment is left out,
    whichever page it points to.  When one reference cannot be resolved,
    [urljoin] raises and no list of links comes out of [extract_links]. *)
Theorem extract_links_drops_every_fragment (hrefs : list string) (base_url : string) :
  extract_links hrefs base_url
  = option_map (List.filter keep_link) (resolve_all base_url hrefs)
  /\ (extract_links hrefs base_url = None
      <-> exists href, In href hrefs /\ urljoin base_url href = None)
  /\ (forall links,
        extract_links hrefs base_url = Some links ->
        forall u, In u links <->
                  (exists href, In href hrefs /\ urljoin base_url href = Some u)
                  /\ (startswith u "http://" || startswith u "https://") = true
                  /\ contains u "#" = false).
Proof.
  assert (E : extract_links hrefs base_url
              = option_map (List.filter keep_link) (resolve_all base_url hrefs)).
  { unfold extract_links. now rewrite extract_links_from_resolved. }
  split; [exact E|]. split.
  - rewrite E, <- resolve_all_none.
    destruct (resolve_all base_url hrefs); simpl; split; congruence.
  - intros links. rewrite E.
    destruct (resolve_all base_url hrefs) as [us|] eqn:Er; [|discriminate].
    intros [= <-] u. rewrite List.filter_In, (resolve_all_In _ _ _ Er u).
    unfold keep_link. rewrite andb_true_iff, negb_true_iff. tauto.
Qed.

(** ** Page store *)

Lemma store_page_ok (n : nat) (s : Crawler) (url : string) (title : option string)
    (text : string) :
  lock s = false ->
  no_fault 1 (faults s) = true ->
  store_page (S n) url title text s = Returned (tt, store_effect url title text s).
Proof.
  intros Hl Hf. apply no_fault_next in Hf as [Hf _].
  cbn [store_page]. exec. rewrite Hl. cbn. rewrite Hf. reflexivity.
Qed.

Lemma rows_for_replace (row : PageRow) (rows : list PageRow) :
  rows_for (p_url row) (insert_or_replace row rows) = [row].
Proof.
  unfold rows_for, insert_or_replace. rewrite List.filter_app. simpl.
  rewrite String.eqb_refl.
  replace (List.filter _ (List.filter _ rows)) with (@nil PageRow); [reflexivity|].
  induction rows as [|r rows IH]; [reflexivity|]. simpl.
  destruct (String.eqb (p_url r) (p_url row)) eqn:E; simpl; [exact IH|].
  now rewrite E.
Qed.

Lemma rows_but_replace (row : PageRow) (rows : list PageRow) :
  rows_but (p_url row) (insert_or_replace row rows) = rows_but (p_url row) rows.
Proof.
  unfold rows_but, insert_or_replace. rewrite List.filter_app. simpl.
  rewrite String.eqb_refl. simpl. rewrite app_nil_r.
  induction rows as [|r rows IH]; [reflexivity|]. simpl.
  destruct (String.eqb (p_url r) (p_url row)) eqn:E; simpl; [exact IH|].
  rewrite E. simpl. now rewrite IH.
Qed.

(** C9: with the lock free and no storage error, the upsert of
    (url, title, content) done twice, the second time [d] later, leaves
    exactly one row for the url, both timestamps of which are the time
    of the second call, and the rows of other urls as they were; the
    same holds for one upsert on a table that already has the url. *)
Theorem upsert_twice_one_row (s : Crawler) (url : string) (title : option string)
    (content : string) (d : Z) :
  lock s = false ->
  no_fault 2 (faults s) = true ->
  exists s1 s2,
    store_page 3 url title content s = Returned (tt, s1)
    /\ store_page 3 url title content (set_clock (fun t => t + d)%Z s1) = Returned (tt, s2)
    /\ rows_for url (tbl_pages s1)
       = [ {| p_url := url; p_title := title; p_content := content;
              p_indexed_at := clock s; p_last_crawled := clock s |} ]
    /\ rows_for url (tbl_pages s2)
       = [ {| p_url := url; p_title := title; p_content := content;
              p_indexed_at := clock s + d; p_last_crawled := clock s + d |} ]%Z
    /\ rows_but url (tbl_pages s1) = rows_but url (tbl_pages s)
    /\ rows_but url (tbl_pages s2) = rows_but url (tbl_pages s).
Proof.
  intros Hl Hf. apply no_fault_next in Hf as [Hf1 Hf2].
  assert (Hf : no_fault 1 (faults s) = true).
  { destruct (faults s) as [|[] ?]; try discriminate; reflexivity. }
  exists (store_effect url title content s).
  exists (store_effect url title content
            (set_clock (fun t => t + d)%Z (store_effect url title content s))).
  split; [now apply store_page_ok|].
  split; [now apply store_page_ok|].
  cbn.
  set (r1 := {| p_url := url; p_title := title; p_content := content;
                p_indexed_at := clock s; p_last_crawled := clock s |}).
  set (r2 := {| p_url := url; p_title := title; p_content := content;
                p_indexed_at := clock s + d; p_last_crawled := clock s + d |}%Z).
  split; [exact (rows_for_replace r1 _)|].
  split; [exact (rows_for_replace r2 _)|].
  split; [exact (rows_but_replace r1 _)|].
  etransitivity; [exact (rows_but_replace r2 _)|]. exact (rows_but_replace r1 _).
Qed.

(** ** Robots cache *)





















(** ** Politeness stamps of [crawl_page] *)

Lemma quiet_since_start (domain url : string) (s : Crawler) :
  quiet_since (trace s) (domain_last_access s) (http s) domain url
              (robots_verdict domain url s) s.
Proof.
  split; [|now repeat split]. exists []. now rewrite app_nil_r.
Qed.

Lemma quiet_since_emit tr0 dla0 h0 domain url v0 (e : event) :
  quiet_ev e = true ->
  forall s, quiet_since tr0 dla0 h0 domain url v0 s ->
            quiet_since tr0 dla0 h0 domain url v0 (set_trace (fun tr => tr ++ [e]) s).
Proof.
  intros He s [(new & Hn & Hq) H]. split; [|exact H].
  exists (new ++ [e]). cbn. rewrite Hn, <- app_assoc. split; [reflexivity|].
  rewrite forallb_app, Hq. simpl. now rewrite He.
Qed.

Lemma get_robot_parser_quiet tr0 dla0 h0 domain url v0 :
  netloc url = Some domain ->
  preserves (quiet_since tr0 dla0 h0 domain url v0) (get_robot_parser url).
Proof.
  intros Hd s H. unfold get_robot_parser, urlparse_netloc. rewrite Hd. exec.
  destruct (robot_parsers s !! domain) as [rp|] eqn:E; cbn; [exact H|].
  apply (quiet_since_emit _ _ _ _ _ _ (EvRobotsRead domain) eq_refl) in H.
  destruct H as (H1 & H2 & H3 & H4). repeat split; try assumption.
  rewrite <- H4. unfold robots_verdict. cbn. rewrite lookup_insert_eq, E.
  now destruct (robots_txt s) as [|[rules|] ?].
Qed.

Ltac quiet_auto :=
  repeat first
    [ assumption
    | apply get_robot_parser_quiet; assumption
    | preserves_step
    | progress unfold sleep, emit, db_step ];
  try (apply quiet_since_emit; reflexivity).

Lemma respect_crawl_delay_quiet tr0 dla0 h0 domain url v0 :
  netloc url = Some domain ->
  preserves (quiet_since tr0 dla0 h0 domain url v0) (respect_crawl_delay domain url).
Proof. intros Hd. unfold respect_crawl_delay, get_crawl_delay. quiet_auto. Qed.

Lemma store_page_quiet tr0 dla0 h0 domain url v0 (n : nat) (u : string)
    (title : option string) (text : string) :
  preserves (quiet_since tr0 dla0 h0 domain url v0) (store_page n u title text).
Proof.
  revert u title text. induction n as [|n IH]; intros; simpl; quiet_auto;
    try apply IH.
Qed.

(** [can_fetch] answers the verdict and at most reads robots.txt. *)
Lemma can_fetch_effect (url domain : string) (s : Crawler) :
  netloc url = Some domain ->
  exists s' mid,
    can_fetch url s = Returned (robots_verdict domain url s, s')
    /\ trace s' = trace s ++ mid
    /\ forallb quiet_ev mid = true
    /\ domain_last_access s' = domain_last_access s
    /\ http s' = http s
    /\ clock s' = clock s.
Proof.
  intros Hd. unfold can_fetch, get_robot_parser, urlparse_netloc, robots_verdict.
  rewrite Hd. exec.
  destruct (robot_parsers s !! domain) as [[rules|]|] eqn:E; cbn.
  - exists s, []. rewrite app_nil_r. now repeat split.
  - exists s, []. rewrite app_nil_r. now repeat split.
  - destruct (robots_txt s) as [|[rules|] rest] eqn:Er; cbn;
      eexists; exists [EvRobotsRead domain]; now repeat split.
Qed.

(** *** Calls that always return *)

Lemma total_ret {A : Type} (a : A) : total (ret a).
Proof. intros s. now exists a, s. Qed.

Lemma total_bind {A B : Type} (m : M A) (k : A -> M B) :
  total m -> (forall a, total (k a)) -> total (bind m k).
Proof.
  intros Hm Hk s. destruct (Hm s) as (a & s1 & E1 & L1).
  destruct (Hk a s1) as (b & s2 & E2 & L2).
  exists b, s2. unfold bind. rewrite E1. split; [exact E2|congruence].
Qed.

Lemma total_gets {A : Type} (f : Crawler -> A) : total (gets f).
Proof. intros s. now exists (f s), s. Qed.

Lemma total_modify (g : Crawler -> Crawler) :
  (forall s, lock (g s) = lock s) -> total (modify g).
Proof. intros Hg s. exists tt, (g s). split; [reflexivity|apply Hg]. Qed.

Lemma total_urlparse_netloc (url domain : string) :
  netloc url = Some domain -> total (urlparse_netloc url).
Proof. intros Hd. unfold urlparse_netloc. rewrite Hd. apply total_ret. Qed.

Ltac total_step :=
  match goal with
  | |- total (bind _ _) => apply total_bind; [|intros ?]
  | |- total (ret _) => apply total_ret
  | |- total (gets _) => apply total_gets
  | |- total now => apply total_gets
  | |- total (modify _) => apply total_modify; intros ?; reflexivity
  | |- total (urlparse_netloc _) => eapply total_urlparse_netloc; eassumption
  | |- total (match ?x with _ => _ end) => destruct x
  end.

Ltac total_auto :=
  repeat first
    [ assumption
    | total_step
    | progress unfold sleep, emit, db_step, stamp, requests_get ].

Lemma get_robot_parser_total (url domain : string) :
  netloc url = Some domain -> total (get_robot_parser url).
Proof. intros Hd. unfold get_robot_parser. total_auto. Qed.

Lemma can_fetch_total (url domain : string) :
  netloc url = Some domain -> total (can_fetch url).
Proof.
  intros Hd. unfold can_fetch. total_auto. now apply get_robot_parser_total with domain.
Qed.

Lemma respect_crawl_delay_total (url domain : string) :
  netloc url = Some domain -> total (respect_crawl_delay domain url).
Proof.
  intros Hd. unfold respect_crawl_delay, get_crawl_delay. total_auto.
  now apply get_robot_parser_total with domain.
Qed.

Lemma stamp_total (d : string) : total (stamp d).
Proof. total_auto. Qed.

Lemma requests_get_total (url : string) : total (requests_get url).
Proof. total_auto. Qed.

Lemma with_lock_returns {A : Type} (body : M A) :
  total body -> returns_unlocked (with_lock body).
Proof.
  intros Hb s Hl. unfold with_lock. exec. rewrite Hl. cbn.
  destruct (Hb (set_lock true s)) as (a & s1 & E1 & L1).
  rewrite E1. now exists a, (set_lock false s1).
Qed.

Lemma returns_unlocked_bind {A B : Type} (m : M A) (k : A -> M B) :
  returns_unlocked m -> (forall a, returns_unlocked (k a)) ->
  returns_unlocked (bind m k).
Proof.
  intros Hm Hk s Hl. destruct (Hm s Hl) as (a & s1 & E1 & L1).
  destruct (Hk a s1 L1) as (b & s2 & E2 & L2).
  exists b, s2. unfold bind. rewrite E1. now split.
Qed.

Lemma total_returns_unlocked {A : Type} (m : M A) : total m -> returns_unlocked m.
Proof.
  intros Hm s Hl. destruct (Hm s) as (a & s1 & E1 & L1).
  exists a, s1. split; [exact E1|congruence].
Qed.

(** The store loop ends after at most three attempts. *)
Lemma store_page_returns (n : nat) (url : string) (title : option string)
    (text : string) :
  returns_unlocked (store_page n url title text).
Proof.
  induction n as [|n IH]; cbn [store_page].
  - apply total_returns_unlocked, total_ret.
  - apply returns_unlocked_bind.
    + apply with_lock_returns. total_auto.
    + intros []; [exact IH | apply total_returns_unlocked, total_ret].
Qed.

(** The dequeue loop ends after at most three attempts. *)
Lemma pop_attempts_returns (n : nat) (found : option (string * Z)) :
  returns_unlocked (pop_attempts n found).
Proof.
  revert found. induction n as [|n IH]; intros found; cbn [pop_attempts].
  - apply total_returns_unlocked, total_ret.
  - apply returns_unlocked_bind.
    + apply with_lock_returns. total_auto.
    + intros [f []]; cbn [fst snd].
      * apply total_returns_unlocked, total_ret.
      * apply returns_unlocked_bind; [apply total_returns_unlocked; total_auto|].
        intros _. apply IH.
      * apply total_returns_unlocked, total_ret.
Qed.

(** The body of [crawl_page] for a URL that [urlparse] accepts. *)
Lemma crawl_page_parsed (url domain : string) (s : Crawler) :
  netloc url = Some domain ->
  crawl_page url s
  = (respect_crawl_delay domain url ;;;
     stamp domain ;;;
     allowed <~ can_fetch url ;;
     fetch_and_store domain url allowed) s.
Proof.
  intros Hd. unfold crawl_page, urlparse_netloc, fetch_and_store, links_of.
  rewrite Hd. cbv [bind ret].
  destruct (respect_crawl_delay domain url s) as [[[] s1]| | |s1]; try reflexivity.
  destruct (stamp domain s1) as [[[] s2]| | |s2]; try reflexivity.
  destruct (can_fetch url s2) as [[[] s3]| | |s3]; try reflexivity.
  cbn [negb]. destruct (requests_get url s3) as [[[l|l status soup] s4]| | |s4];
    try reflexivity.
  destruct (stamp domain s4) as [[[] s5]| | |s5]; try reflexivity.
  destruct (status =? 200)%Z; [|reflexivity].
  destruct (store_page _ _ _ _ s5) as [[[] s6]| | |s6]; try reflexivity.
  now destruct (extract_links (doc_hrefs soup) url).
Qed.

(** On a URL that [urlparse] refuses, [crawl_page] raises at once. *)
Lemma crawl_page_malformed (url : string) (s : Crawler) :
  netloc url = None -> crawl_page url s = Raised s.
Proof. intros Hd. unfold crawl_page, urlparse_netloc. now rewrite Hd. Qed.

Lemma crawl_page_returns (url domain : string) :
  netloc url = Some domain -> returns_unlocked (crawl_page url).
Proof.
  intros Hd s Hl. rewrite (crawl_page_parsed url domain s Hd). revert s Hl.
  change (returns_unlocked
            (respect_crawl_delay domain url ;;; stamp domain ;;;
             allowed <~ can_fetch url ;; fetch_and_store domain url allowed)).
  unfold fetch_and_store.
  apply returns_unlocked_bind;
    [now apply total_returns_unlocked, respect_crawl_delay_total | intros _].
  apply returns_unlocked_bind; [apply total_returns_unlocked, stamp_total | intros _].
  apply returns_unlocked_bind;
    [now apply total_returns_unlocked, can_fetch_total with domain|].
  intros []; cbn [negb]; [|apply total_returns_unlocked, total_ret].
  apply returns_unlocked_bind; [apply total_returns_unlocked, requests_get_total|].
  intros [l|l status soup]; [apply total_returns_unlocked, total_ret|].
  apply returns_unlocked_bind; [apply total_returns_unlocked, stamp_total | intros _].
  destruct (status =? 200)%Z; [|apply total_returns_unlocked, total_ret].
  apply returns_unlocked_bind; [apply store_page_returns | intros _].
  apply total_returns_unlocked, total_ret.
Qed.

Local Opaque store_page.

(** The events of a call of [crawl_page] that returns. *)
Lemma crawl_page_events (s : Crawler) (url domain : string) (links : list string)
    (s' : Crawler) :
  netloc url = Some domain ->
  crawl_page url s = Returned (links, s') ->
  robots_verdict domain url s = true ->
  exists pre mid t1,
    forallb quiet_ev pre = true /\ forallb quiet_ev mid = true /\
    match next_http s with
    | HttpResponse l _ _ =>
        exists post,
          forallb quiet_ev post = true
          /\ trace s' = trace s ++ pre ++ EvStamp domain t1 :: mid
                        ++ EvHttpGet url :: EvStamp domain (t1 + l) :: post
          /\ domain_last_access s' !! domain = Some (t1 + l)%Z
    | HttpRaises l =>
        trace s' = trace s ++ pre ++ EvStamp domain t1 :: mid ++ [EvHttpGet url]
        /\ domain_last_access s' !! domain = Some t1
        /\ clock s' = (t1 + l)%Z
        /\ links = []
    end.
Proof.
  intros Hd Hrun Hv. rewrite (crawl_page_parsed url domain s Hd) in Hrun.
  unfold fetch_and_store, bind in Hrun.
  pose proof (respect_crawl_delay_quiet _ _ _ domain url _ Hd s
                (quiet_since_start domain url s)) as HA.
  destruct (respect_crawl_delay domain url s) as [[[] sA]| | |sA]; try discriminate.
  destruct HA as ((pre & HtA & Hpre) & HdA & HhA & HvA).
  unfold stamp, now, emit, bind, gets, modify in Hrun. cbn in Hrun.
  match type of Hrun with context [can_fetch url ?sB] =>
    destruct (can_fetch_effect url domain sB Hd)
      as (sC & mid & HC & HtC & Hmid & HdC & HhC & HcC);
    rewrite HC in Hrun; unfold robots_verdict in Hrun; cbn in Hrun;
    fold (robots_verdict domain url sA) in Hrun; rewrite HvA, Hv in Hrun;
    cbn in HtC, HdC, HhC, HcC
  end.
  cbn in Hrun. unfold requests_get, emit, bind, gets, modify, ret in Hrun. cbn in Hrun.
  match type of Hrun with context [next_http ?x] =>
    assert (Hn : next_http x = next_http s)
      by (unfold next_http; cbn; now rewrite HhC, HhA);
    rewrite Hn in Hrun
  end.
  exists pre, mid, (clock sA). split; [exact Hpre|]. split; [exact Hmid|].
  destruct (next_http s) as [l|l status soup].
  - injection Hrun as <- <-. cbn. rewrite HtC, HtA, HdC, HcC.
    rewrite lookup_insert_eq, <- !app_assoc. now repeat split.
  - cbn in Hrun. destruct (status =? 200)%Z.
    + match type of Hrun with context [store_page 3 ?u ?t ?c ?sE] =>
        pose proof (store_page_quiet _ _ _ domain url _ 3 u t c sE
                      (quiet_since_start domain url sE)) as HE;
        destruct (store_page 3 u t c sE) as [[[] sF]| | |sF]; try discriminate
      end.
      injection Hrun as _ <-.
      destruct HE as ((post & HtF & Hpost) & HdF & _).
      exists post. split; [exact Hpost|]. cbn in HtF, HdF.
      rewrite HtF, HdF, HtC, HtA, HcC. rewrite lookup_insert_eq.
      split; [|reflexivity]. rewrite <- !app_assoc. reflexivity.
    + injection Hrun as _ <-. exists []. split; [reflexivity|]. cbn.
      rewrite HtC, HtA, HcC, lookup_insert_eq.
      split; [|reflexivity]. rewrite <- !app_assoc. reflexivity.
Qed.

(** C5 (amended): with the lock free, [crawl_page] on a URL of a domain
    whose robots.txt allows it returns, and the domain is stamped with
    the current time before the request; when the request answers, whatever
    the status, the domain is stamped again right after it; when the
    request raises, no stamp follows it: the last access stays the one
    taken before the request, although the clock has moved by the
    duration of the request, and no link is returned. *)
Theorem crawl_page_stamps (s : Crawler) (url domain : string) :
  netloc url = Some domain ->
  lock s = false ->
  robots_verdict domain url s = true ->
  exists links s',
    crawl_page url s = Returned (links, s')
    /\ exists pre mid t1,
         forallb quiet_ev pre = true /\ forallb quiet_ev mid = true /\
         match next_http s with
         | HttpResponse l _ _ =>
             exists post,
               forallb quiet_ev post = true
               /\ trace s' = trace s ++ pre ++ EvStamp domain t1 :: mid
                             ++ EvHttpGet url :: EvStamp domain (t1 + l) :: post
               /\ domain_last_access s' !! domain = Some (t1 + l)%Z
         | HttpRaises l =>
             trace s' = trace s ++ pre ++ EvStamp domain t1 :: mid
                        ++ [EvHttpGet url]
             /\ domain_last_access s' !! domain = Some t1
             /\ clock s' = (t1 + l)%Z
             /\ links = []
         end.
Proof.
  intros Hd Hl Hv.
  destruct (crawl_page_returns url domain Hd s Hl) as (links & s' & Hrun & _).
  exists links, s'. split; [exact Hrun|].
  now apply crawl_page_events.
Qed.

Local Transparent store_page.

(** * Further properties of the code *)

(** ** Keywords *)

Lemma ascii_isalnum_lower (c : ascii) : ascii_isalnum (ascii_lower c) = ascii_isalnum c.
Proof. destruct c as [[] [] [] [] [] [] [] []]; reflexivity. Qed.

Lemma all_chars_lower (s : string) :
  all_chars ascii_isalnum s = true -> all_chars ascii_isalnum (lower s) = true.
Proof.
  induction s as [|c s IH]; [reflexivity|]. cbn.
  rewrite ascii_isalnum_lower. intros H. apply andb_true_iff in H as [H1 H2].
  rewrite H1. now apply IH.
Qed.

Lemma isalnum_lower (w : string) : isalnum w = true -> isalnum (lower w) = true.
Proof.
  destruct w as [|c w]; [discriminate|]. unfold isalnum.
  intros H. apply all_chars_lower in H. exact H.
Qed.

Lemma ascii_lower_is_ascii (c : ascii) :
  ascii_is_ascii (ascii_lower c) = ascii_is_ascii c.
Proof. destruct c as [[] [] [] [] [] [] [] []]; reflexivity. Qed.

Lemma lower_is_ascii (s : string) : is_ascii (lower s) = is_ascii s.
Proof.
  unfold is_ascii. induction s as [|c s IH]; [reflexivity|].
  cbn [lower all_chars]. now rewrite ascii_lower_is_ascii, IH.
Qed.

Lemma all_chars_no_prefix (p : ascii -> bool) (c : ascii) (s : string) :
  p c = false -> all_chars p s = true -> contains s (String c "") = false.
Proof.
  intros Hc. induction s as [|x s IH]; [reflexivity|].
  cbn. intros H. apply andb_true_iff in H as [Hx Hs].
  rewrite (IH Hs), orb_false_r.
  destruct (Ascii.ascii_dec c x) as [->|Hne]; [congruence|].
  destruct s; now destruct (Ascii.ascii_dec c x).
Qed.

(** For a query whose tokens are ASCII words, every keyword is an ASCII
    word, lower-case and alphanumeric, that is no stop word, comes from
    a token of the query, and holds neither of the wildcards of LIKE. *)
Theorem keywords_are_clean (query kw : string) :
  (forall w, In w (word_tokenize query) -> is_ascii w = true) ->
  In kw (extract_keywords query) ->
  is_ascii kw = true
  /\ isalnum kw = true
  /\ lower kw = kw
  /\ (kw ∉ stop_words)
  /\ (exists w, In w (word_tokenize query) /\ isalnum w = true /\ kw = lower w)
  /\ contains kw "%" = false
  /\ contains kw "_" = false.
Proof.
  intros Hascii Hin.
  assert (H : exists w, In w (word_tokenize query) /\ kw = lower w
                        /\ isalnum w = true /\ lower w ∉ stop_words).
  { unfold extract_keywords in Hin. apply in_map_iff in Hin as (w & <- & Hw).
    apply List.filter_In in Hw as [Hw Hc]. apply andb_true_iff in Hc as [H1 H2].
    exists w. repeat split; try assumption.
    apply negb_true_iff, bool_decide_eq_false in H2. exact H2. }
  destruct H as (w & Hw & -> & Ha & Hs).
  pose proof (isalnum_lower w Ha) as Hl.
  split; [rewrite lower_is_ascii; now apply Hascii|].
  split; [exact Hl|]. split; [apply lower_idem|]. split; [exact Hs|].
  split; [eauto|].
  assert (Hall : all_chars ascii_isalnum (lower w) = true).
  { unfold isalnum in Hl. now destruct (lower w). }
  split; now apply (all_chars_no_prefix ascii_isalnum).
Qed.

(** ** What a search returns *)

Lemma contains_count (s sub : string) :
  contains s sub = true -> 1 <= str_count s sub.
Proof.
  unfold str_count. induction s as [|c s IH]; cbn [contains count_from].
  - destruct sub; [lia|discriminate].
  - destruct (String.prefix sub (String c s)); [lia|]. exact IH.
Qed.

Lemma list_sum_ge {A : Type} (f : A -> nat) (x : A) (l : list A) :
  In x l -> f x <= list_sum (map f l).
Proof.
  induction l as [|y l IH]; [intros []|].
  intros [->|H]; simpl; [lia|]. specialize (IH H). lia.
Qed.

Lemma matching_row_scores (keywords : list string) (r : SearchRow) :
  (forall kw, In kw keywords -> lower kw = kw) ->
  row_matches keywords r = true -> 1 <= rank_result keywords r.
Proof.
  intros Hlow. destruct r as [[url title] content]. unfold row_matches, rank_result.
  rewrite existsb_exists. intros (kw & Hkw & Hm).
  etransitivity; [|apply (list_sum_ge _ kw _ Hkw)].
  unfold like_contains in Hm. rewrite (Hlow kw Hkw) in Hm.
  apply orb_true_iff in Hm as [Hm|Hm]; [apply orb_true_iff in Hm as [Hm|Hm]|].
  - destruct title as [t|]; [|discriminate]. apply contains_count in Hm.
    cbn. unfold str_count in *. lia.
  - destruct content as [t|]; [|discriminate]. apply contains_count in Hm.
    cbn. unfold str_count in *. lia.
  - destruct url as [t|]; [|discriminate]. apply contains_count in Hm.
    cbn. unfold str_count in *. lia.
Qed.

Lemma firstn_In {A : Type} (n : nat) (l : list A) (x : A) :
  In x (firstn n l) -> In x l.
Proof.
  revert l. induction n as [|n IH]; intros [|y l]; simpl; try tauto.
  intros [->|H]; [now left | right; now apply IH].
Qed.

Lemma slice_to_In {A : Type} (l : list A) (limit : Z) (x : A) :
  In x (slice_to l limit) -> In x l.
Proof. unfold slice_to. destruct (0 <=? limit)%Z; apply firstn_In. Qed.

Lemma search_attempts_In (n : nat) (keywords : list string) (pages : list PageRow)
    (limit : Z) (faults : list db_outcome) (r : SearchRow) :
  In r (fst (search_attempts n keywords pages limit faults)) ->
  In r (select_pages keywords pages).
Proof.
  revert faults. induction n as [|n IH]; intros faults; simpl; [intros []|].
  destruct faults as [|[] rest]; simpl.
  - intros H. apply slice_to_In in H.
    eapply Permutation_in; [apply sorted_reverse_perm|exact H].
  - intros H. apply slice_to_In in H.
    eapply Permutation_in; [apply sorted_reverse_perm|exact H].
  - specialize (IH rest).
    destruct (search_attempts n keywords pages limit rest). exact IH.
  - intros [].
Qed.

(** Whatever the storage does, every row that a search returns is a row
    of the [pages] table in which some keyword occurs, in the title, in
    the content or in the url, letter case apart; its score is at least
    1. *)
Theorem search_returns_matching_pages (query : string) (pages : list PageRow)
    (limit : Z) (faults : list db_outcome) (url title content : option string) :
  In (url, title, content) (fst (simple_search query pages limit faults)) ->
  (exists p, In p pages /\ (url, title, content) = select_row p)
  /\ (exists kw,
        In kw (extract_keywords query)
        /\ (like_contains title kw || like_contains content kw
            || like_contains url kw) = true)
  /\ 1 <= rank_result (extract_keywords query) (url, title, content).
Proof.
  intros Hin.
  assert (Hc : In (url, title, content) (select_pages (extract_keywords query) pages)).
  { unfold simple_search in Hin.
    destruct (extract_keywords query) as [|kw kws] eqn:E; [destruct Hin|].
    now apply search_attempts_In in Hin. }
  unfold select_pages in Hc. apply List.filter_In in Hc as [Hp Hm].
  apply in_map_iff in Hp as (p & Ep & Hp).
  split; [eauto|]. split.
  - unfold row_matches in Hm. apply existsb_exists in Hm as (kw & Hkw & Hm). eauto.
  - apply matching_row_scores; [|exact Hm]. intros kw. apply keywords_lowercase.
Qed.

Lemma search_attempts_locked_then_error (k n : nat) (keywords : list string)
    (pages : list PageRow) (limit : Z) (rest : list db_outcome) :
  k < n ->
  search_attempts n keywords pages limit (repeat DbLocked k ++ DbError :: rest)
  = ([], locked_rounds k ++ [SDbExecute; SError]).
Proof.
  revert n. induction k as [|k IH]; intros n Hk; (destruct n as [|n]; [lia|]).
  - reflexivity.
  - cbn. rewrite IH by lia. reflexivity.
Qed.

Lemma search_attempts_all_locked (n : nat) (keywords : list string)
    (pages : list PageRow) (limit : Z) (rest : list db_outcome) :
  search_attempts n keywords pages limit (repeat DbLocked n ++ rest)
  = ([], locked_rounds n).
Proof.
  induction n as [|n IH]; [reflexivity|]. cbn. now rewrite IH.
Qed.

(** A query with keywords: an error of the storage that is no contention
    is shown once and ends the search with no result and no further
    attempt; three contention errors in a row end it with no result,
    after three attempts and three pauses, and nothing is shown. *)
Theorem search_gives_up (query : string) (pages : list PageRow) (limit : Z)
    (k : nat) (rest : list db_outcome) :
  extract_keywords query <> [] ->
  k < 3 ->
  simple_search query pages limit (repeat DbLocked k ++ DbError :: rest)
  = ([], locked_rounds k ++ [SDbExecute; SError])
  /\ simple_search query pages limit (repeat DbLocked 3 ++ rest)
     = ([], locked_rounds 3).
Proof.
  intros Hkw Hk. unfold simple_search.
  destruct (extract_keywords query) as [|kw kws]; [congruence|]. split.
  - now apply search_attempts_locked_then_error.
  - apply search_attempts_all_locked.
Qed.

(** ** Invariants of every sequence of calls

    An invariant that each elementary update of the state keeps is kept
    by every method, hence by every sequence of calls. *)

Section Invariant.
Variable Inv : Crawler -> Prop.
Hypothesis Inv_trace : forall f s, Inv s -> Inv (set_trace f s).
Hypothesis Inv_clock : forall f s, Inv s -> Inv (set_clock f s).
Hypothesis Inv_faults : forall f s, Inv s -> Inv (set_faults f s).
Hypothesis Inv_lock : forall b s, Inv s -> Inv (set_lock b s).
Hypothesis Inv_mirror : forall f s, Inv s -> Inv (set_crawl_queue f s).
Hypothesis Inv_access : forall f s, Inv s -> Inv (set_domain_last_access f s).
Hypothesis Inv_http : forall f s, Inv s -> Inv (set_http f s).
Hypothesis Inv_robots_txt : forall f s, Inv s -> Inv (set_robots_txt f s).
Hypothesis Inv_parsers :
  forall d r s, Inv s -> Inv (set_robot_parsers (fun m => <[d := r]> m) s).
Hypothesis Inv_visit :
  forall u s, Inv s -> Inv (set_visited_urls (fun v => {[u]} ∪ v) s).
Hypothesis Inv_enqueue :
  forall row s, Inv s -> Inv (set_tbl_crawl_queue (insert_or_ignore row) s).
Hypothesis Inv_dequeue :
  forall u s, Inv s -> Inv (set_tbl_crawl_queue (delete_url u) s).
Hypothesis Inv_upsert :
  forall row s, Inv s -> Inv (set_tbl_pages (insert_or_replace row) s).

Ltac inv_auto :=
  repeat first
    [ assumption
    | preserves_step
    | progress unfold sleep, emit, db_step, stamp, requests_get ];
  try apply Inv_trace; try apply Inv_clock; try apply Inv_faults;
  try apply Inv_lock; try apply Inv_mirror; try apply Inv_access;
  try apply Inv_http; try apply Inv_robots_txt; try apply Inv_parsers;
  try apply Inv_visit; try apply Inv_enqueue; try apply Inv_dequeue;
  try apply Inv_upsert.

Lemma add_url_to_queue_inv (fuel : nat) (url : string) (priority : Z) :
  preserves Inv (add_url_to_queue fuel url priority).
Proof.
  induction fuel as [|fuel IH]; cbn [add_url_to_queue]; inv_auto.
  apply preserves_with_lock; [intros; now apply Inv_lock|]. inv_auto.
Qed.

Lemma pop_attempts_inv (n : nat) (found : option (string * Z)) :
  preserves Inv (pop_attempts n found).
Proof.
  revert found. induction n as [|n IH]; intros found; cbn [pop_attempts]; inv_auto.
  - apply preserves_with_lock; [intros; now apply Inv_lock|]. inv_auto.
  - apply IH.
Qed.

Lemma store_page_inv (n : nat) (url : string) (title : option string)
    (text : string) :
  preserves Inv (store_page n url title text).
Proof.
  induction n as [|n IH]; cbn [store_page]; inv_auto.
  apply preserves_with_lock; [intros; now apply Inv_lock|]. inv_auto.
Qed.

Lemma get_robot_parser_inv (url : string) : preserves Inv (get_robot_parser url).
Proof. unfold get_robot_parser. inv_auto. Qed.

Lemma crawl_page_inv (url : string) : preserves Inv (crawl_page url).
Proof.
  unfold crawl_page, respect_crawl_delay, get_crawl_delay, can_fetch.
  repeat first
    [ assumption
    | apply get_robot_parser_inv
    | apply store_page_inv
    | preserves_step
    | progress unfold sleep, emit, stamp, requests_get ];
  try apply Inv_trace; try apply Inv_clock; try apply Inv_access; try apply Inv_http.
Qed.

Lemma crawl_worker_step_inv : preserves Inv crawl_worker_step.
Proof.
  unfold crawl_worker_step, pop.
  repeat first
    [ assumption
    | apply pop_attempts_inv
    | apply crawl_page_inv
    | apply add_url_to_queue_inv
    | preserves_step
    | progress unfold sleep, emit ];
  try apply Inv_trace; try apply Inv_clock; try apply Inv_visit.
Qed.

Lemma run_inv (calls : list call) : preserves Inv (run calls).
Proof.
  induction calls as [|c calls IH]; cbn [run]; [apply preserves_ret|].
  destruct c; unfold pop, can_fetch, get_crawl_delay;
    repeat first
      [ assumption
      | apply add_url_to_queue_inv
      | apply pop_attempts_inv
      | apply crawl_page_inv
      | apply get_robot_parser_inv
      | apply crawl_worker_step_inv
      | preserves_step
      | progress unfold caught ].
Qed.

End Invariant.

Lemma filter_map_NoDup {A B : Type} (f : A -> B) (p : A -> bool) (l : list A) :
  List.NoDup (map f l) -> List.NoDup (map f (List.filter p l)).
Proof.
  induction l as [|x l IH]; simpl; [auto|].
  intros H. apply List.NoDup_cons_iff in H as [Hx H].
  destruct (p x); [|now apply IH].
  simpl. apply List.NoDup_cons_iff. split; [|now apply IH].
  intros Hin. apply Hx. apply in_map_iff in Hin as (y & E & Hy).
  apply List.filter_In in Hy as [Hy _]. apply in_map_iff. eauto.
Qed.

Lemma NoDup_map_Some {A : Type} (l : list A) :
  List.NoDup l -> List.NoDup (map Some l).
Proof.
  induction 1 as [|x l Hx Hl IH]; simpl; constructor; [|exact IH].
  rewrite in_map_iff. intros (y & E & Hy). congruence.
Qed.

Lemma insert_or_replace_unique (row : PageRow) (rows : list PageRow) :
  List.NoDup (map p_url rows) -> List.NoDup (map p_url (insert_or_replace row rows)).
Proof.
  intros H. unfold insert_or_replace. rewrite map_app. simpl.
  apply NoDup_snoc; [now apply filter_map_NoDup|].
  rewrite in_map_iff. intros (r & E & Hr).
  apply List.filter_In in Hr as [_ Hr].
  apply negb_true_iff, String.eqb_neq in Hr. contradiction.
Qed.

Lemma rows_for_le_one (url : string) (rows : list PageRow) :
  List.NoDup (map p_url rows) -> List.length (rows_for url rows) <= 1.
Proof.
  unfold rows_for. induction rows as [|r rows IH]; simpl; [lia|].
  intros H. apply List.NoDup_cons_iff in H as [Hr H].
  destruct (String.eqb_spec (p_url r) url) as [E|E]; [|now apply IH].
  simpl. replace (List.filter _ rows) with (@nil PageRow); [simpl; lia|].
  symmetry. clear IH H. induction rows as [|x rows IH]; [reflexivity|].
  simpl. destruct (String.eqb_spec (p_url x) url) as [Ex|Ex].
  - exfalso. apply Hr. left. congruence.
  - apply IH. intros Hin. apply Hr. now right.
Qed.

(** Whatever calls are made on a crawler whose [pages] table has one row
    per url, the table keeps one row per url: a search never lists a
    page twice. *)
Theorem pages_stay_unique (calls : list call) (s s' : Crawler)
    (r : list (option (string * Z))) :
  pages_unique s ->
  run calls s = Returned (r, s') ->
  pages_unique s'
  /\ (forall url, List.length (rows_for url (tbl_pages s')) <= 1)
  /\ (forall keywords, List.NoDup (map fst (map fst (select_pages keywords (tbl_pages s'))))).
Proof.
  intros Hu Hrun.
  assert (H : pages_unique s').
  { pose proof (run_inv pages_unique) as Hp.
    specialize (Hp ltac:(auto) ltac:(auto) ltac:(auto) ltac:(auto) ltac:(auto)
                   ltac:(auto) ltac:(auto) ltac:(auto) ltac:(auto) ltac:(auto)
                   ltac:(auto) ltac:(auto)).
    specialize (Hp ltac:(intros row t Ht; now apply insert_or_replace_unique) calls s Hu).
    now rewrite Hrun in Hp. }
  split; [exact H|]. split; [intros url; now apply rows_for_le_one|].
  intros keywords. unfold select_pages, pages_unique in *.
  rewrite List.map_map.
  apply (filter_map_NoDup (fun r : SearchRow => fst (fst r))).
  rewrite List.map_map. cbn.
  rewrite <- (List.map_map p_url Some).
  now apply NoDup_map_Some.
Qed.

(** The visited set only grows: a URL that is in it stays in it whatever
    calls follow. *)
Theorem visited_only_grows (calls : list call) (s s' : Crawler)
    (r : list (option (string * Z))) (url : string) :
  url ∈ visited_urls s ->
  run calls s = Returned (r, s') ->
  url ∈ visited_urls s'.
Proof.
  intros Hv Hrun.
  pose proof (run_inv (fun t => url ∈ visited_urls t)) as Hp.
  specialize (Hp ltac:(auto) ltac:(auto) ltac:(auto) ltac:(auto) ltac:(auto)
                 ltac:(auto) ltac:(auto) ltac:(auto) ltac:(auto)).
  specialize (Hp ltac:(intros u t Ht; cbn; set_solver) ltac:(auto) ltac:(auto)
                 ltac:(auto) calls s Hv).
  now rewrite Hrun in Hp.
Qed.

(** ** [crawl_page], step by step *)

Lemma kept_refl (s : Crawler) : kept s s.
Proof. now repeat split. Qed.

Lemma get_robot_parser_kept (s0 : Crawler) (url : string) :
  preserves (kept s0) (get_robot_parser url).
Proof. unfold get_robot_parser. preserves_auto. Qed.

Lemma get_crawl_delay_kept (s0 : Crawler) (url : string) :
  preserves (kept s0) (get_crawl_delay url).
Proof. unfold get_crawl_delay. preserves_auto. apply get_robot_parser_kept. Qed.

Lemma can_fetch_kept (s0 : Crawler) (url : string) :
  preserves (kept s0) (can_fetch url).
Proof. unfold can_fetch. preserves_auto. apply get_robot_parser_kept. Qed.

Lemma respect_crawl_delay_kept (s0 : Crawler) (domain url : string) :
  preserves (kept s0) (respect_crawl_delay domain url).
Proof.
  unfold respect_crawl_delay. preserves_auto. apply get_crawl_delay_kept.
Qed.

(** [get_crawl_delay] answers without letting time pass. *)
Lemma get_crawl_delay_effect (url domain : string) (s : Crawler) :
  netloc url = Some domain ->
  exists delay s1,
    get_crawl_delay url s = Returned (delay, s1)
    /\ clock s1 = clock s
    /\ domain_last_access s1 = domain_last_access s.
Proof.
  intros Hd. unfold get_crawl_delay, get_robot_parser, urlparse_netloc.
  rewrite Hd. exec.
  destruct (robot_parsers s !! domain) as [[rules|]|] eqn:E; cbn.
  - destruct (rr_crawl_delay rules) as [d|]; [destruct (d =? 0)%Z|];
      eexists; eexists; now repeat split.
  - eexists; eexists; now repeat split.
  - destruct (robots_txt s) as [|[rules|] rest]; cbn;
      try (eexists; eexists; now repeat split).
    destruct (rr_crawl_delay rules) as [d|]; [destruct (d =? 0)%Z|];
      eexists; eexists; now repeat split.
Qed.

Lemma respect_crawl_delay_waits (url domain : string) (s : Crawler) (t0 : Z) :
  netloc url = Some domain ->
  domain_last_access s !! domain = Some t0 ->
  exists delay s1 sA,
    get_crawl_delay url s = Returned (delay, s1)
    /\ respect_crawl_delay domain url s = Returned (tt, sA)
    /\ (t0 + seconds delay <= clock sA)%Z
    /\ (clock s <= clock sA)%Z.
Proof.
  intros Hn Hd.
  destruct (get_crawl_delay_effect url domain s Hn) as (delay & s1 & Hg & Hc & _).
  exists delay, s1.
  unfold respect_crawl_delay, bind, now, gets. rewrite Hd, Hg.
  destruct (Z.ltb_spec (clock s - t0) (seconds delay)) as [Hlt|Hge].
  - eexists. split; [reflexivity|]. split; [reflexivity|]. cbn. lia.
  - eexists. split; [reflexivity|]. split; [reflexivity|]. cbn. lia.
Qed.

Lemma respect_crawl_delay_first_visit (domain url : string) (s : Crawler) :
  domain_last_access s !! domain = None ->
  respect_crawl_delay domain url s = Returned (tt, s).
Proof. intros Hd. unfold respect_crawl_delay, bind, now, gets. now rewrite Hd. Qed.

Lemma stamp_eq (d : string) (s : Crawler) : stamp d s = Returned (tt, stamped d s).
Proof. reflexivity. Qed.

(** The three steps of a call of [crawl_page] that returns. *)
Lemma crawl_page_steps (url domain : string) (s : Crawler) (links : list string)
    (s' : Crawler) :
  netloc url = Some domain ->
  crawl_page url s = Returned (links, s') ->
  exists sA sC,
    respect_crawl_delay domain url s = Returned (tt, sA)
    /\ kept s sA
    /\ can_fetch url (stamped domain sA) = Returned (robots_verdict domain url s, sC)
    /\ kept s sC
    /\ clock sC = clock sA
    /\ domain_last_access sC = <[domain := clock sA]> (domain_last_access sA)
    /\ fetch_and_store domain url (robots_verdict domain url s) sC = Returned (links, s').
Proof.
  intros Hn Hrun. rewrite (crawl_page_parsed url domain s Hn) in Hrun.
  unfold bind in Hrun.
  pose proof (respect_crawl_delay_quiet _ _ _ domain url _ Hn s
                (quiet_since_start domain url s)) as HA.
  pose proof (respect_crawl_delay_kept s domain url s (kept_refl s)) as KA.
  destruct (respect_crawl_delay domain url s) as [[[] sA]| | |sA]; try discriminate.
  destruct HA as (_ & _ & _ & HvA).
  rewrite stamp_eq in Hrun.
  destruct (can_fetch_effect url domain (stamped domain sA) Hn)
    as (sC & mid & HC & _ & _ & HdC & _ & HcC).
  assert (Hv : robots_verdict domain url (stamped domain sA)
               = robots_verdict domain url s).
  { rewrite <- HvA. reflexivity. }
  rewrite Hv in HC.
  pose proof (can_fetch_kept s url (stamped domain sA)) as KC.
  rewrite HC in KC, Hrun.
  exists sA, sC. split; [reflexivity|]. split; [exact KA|]. split; [exact HC|].
  split; [apply KC; exact KA|]. split; [exact HcC|]. split; [exact HdC|]. exact Hrun.
Qed.

(** ** The upsert loop under any storage errors *)

Lemma store_page_effect (n : nat) (url : string) (title : option string)
    (text : string) (s : Crawler) :
  lock s = false ->
  exists s',
    store_page n url title text s = Returned (tt, s')
    /\ lock s' = false
    /\ (clock s <= clock s' <= clock s + seconds (Z.of_nat n))%Z
    /\ tbl_crawl_queue s' = tbl_crawl_queue s
    /\ visited_urls s' = visited_urls s
    /\ domain_last_access s' = domain_last_access s
    /\ http s' = http s
    /\ (tbl_pages s' = tbl_pages s
        \/ exists t, (clock s <= t <= clock s')%Z
                     /\ tbl_pages s'
                        = insert_or_replace (page_row url title text t) (tbl_pages s)).
Proof.
  revert s. induction n as [|n IH]; intros s Hl.
  - exists s. cbn. unfold seconds. repeat split; try lia; try assumption. now left.
  - cbn [store_page]. exec. rewrite Hl. cbn.
    destruct (fst (next_outcome (faults s))) eqn:E; cbn.
    + eexists. split; [reflexivity|]. cbn. unfold seconds.
      repeat split; try lia; try assumption.
      right. exists (clock s). split; [lia|reflexivity].
    + match goal with |- context [store_page n url title text ?t] =>
        destruct (IH t eq_refl) as (s' & Hr & Hl' & Hc & Hq & Hv & Hd & Hh & Hp)
      end.
      exists s'. split; [exact Hr|]. cbn in Hc, Hq, Hv, Hd, Hh, Hp.
      unfold seconds in *.
      repeat split; try assumption; try lia.
      destruct Hp as [Hp|(t & Ht & Hp)]; [now left|].
      right. exists t. split; [lia|exact Hp].
    + eexists. split; [reflexivity|]. cbn. unfold seconds.
      repeat split; try lia; try assumption. now left.
Qed.

(** With the lock free, the upsert loop of [crawl_page] always ends,
    after pauses of three seconds at most; whatever the storage answers,
    the [pages] table is then either as before or as before with the one
    row upserted, the rows of other urls being untouched, and the queue
    table is untouched. *)
Theorem upsert_loop_gives_up (s : Crawler) (url : string) (title : option string)
    (text : string) :
  lock s = false ->
  exists s',
    store_page 3 url title text s = Returned (tt, s')
    /\ lock s' = false
    /\ (clock s <= clock s' <= clock s + 3000000)%Z
    /\ tbl_crawl_queue s' = tbl_crawl_queue s
    /\ rows_but url (tbl_pages s') = rows_but url (tbl_pages s)
    /\ (tbl_pages s' = tbl_pages s
        \/ exists t, (clock s <= t <= clock s')%Z
                     /\ rows_for url (tbl_pages s') = [page_row url title text t]).
Proof.
  intros Hl.
  destruct (store_page_effect 3 url title text s Hl)
    as (s' & Hr & Hl' & Hc & Hq & _ & _ & _ & Hp).
  exists s'. split; [exact Hr|]. split; [exact Hl'|].
  split; [exact Hc|]. split; [exact Hq|].
  destruct Hp as [Hp|(t & Ht & Hp)]; rewrite Hp.
  - split; [reflexivity|now left].
  - split; [exact (rows_but_replace (page_row url title text t) _)|].
    right. exists t. split; [exact Ht|].
    exact (rows_for_replace (page_row url title text t) _).
Qed.

(** ** What [crawl_page] fetches and stores *)

Lemma requests_get_eq (url : string) (s : Crawler) :
  requests_get url s = Returned (next_http s, requested url s).
Proof.
  unfold requests_get, requested. exec. unfold next_http. cbn.
  destruct (http s) as [|[l|l st doc] rest]; reflexivity.
Qed.

Lemma fetch_and_store_effect (domain url : string) (allowed : bool) (s : Crawler) :
  lock s = false ->
  exists links s',
    fetch_and_store domain url allowed s = Returned (links, s')
    /\ lock s' = false
    /\ tbl_crawl_queue s' = tbl_crawl_queue s
    /\ visited_urls s' = visited_urls s
    /\ match allowed, next_http s with
       | false, _ => links = [] /\ s' = s
       | true, HttpRaises l =>
           links = [] /\ s' = requested url s
       | true, HttpResponse l status soup =>
           domain_last_access s' !! domain = Some (clock s + l)%Z
           /\ (clock s + l <= clock s')%Z
           /\ if (status =? 200)%Z
              then links = links_of soup url
                   /\ (tbl_pages s' = tbl_pages s
                       \/ exists t,
                            (clock s + l <= t)%Z
                            /\ tbl_pages s'
                               = insert_or_replace
                                   (page_row url
                                      match doc_title soup with
                                      | Some t => t
                                      | None => Some url
                                      end
                                      (strip (collapse_ws false (join_blank (doc_texts soup))))
                                      t)
                                   (tbl_pages s))
              else links = [] /\ tbl_pages s' = tbl_pages s
       end.
Proof.
  intros Hl. unfold fetch_and_store. destruct allowed; cbn [negb].
  2:{ exists [], s. now repeat split. }
  unfold bind at 1. rewrite requests_get_eq.
  destruct (next_http s) as [l|l status soup] eqn:En.
  - exists [], (requested url s). now repeat split.
  - unfold bind at 1. rewrite stamp_eq.
    destruct (status =? 200)%Z.
    + unfold bind.
      match goal with |- context [store_page 3 ?u ?t ?c ?st] =>
        destruct (store_page_effect 3 u t c st Hl)
          as (s' & Hr & Hl' & Hc & Hq & Hv & Hd & _ & Hp);
        rewrite Hr
      end.
      eexists. exists s'. split; [reflexivity|].
      cbn in Hc, Hq, Hv, Hd, Hp. rewrite En in Hc. cbn in Hc.
      split; [exact Hl'|]. split; [exact Hq|]. split; [exact Hv|].
      split; [rewrite Hd; cbn; rewrite En; apply lookup_insert_eq|].
      split; [lia|]. split; [reflexivity|].
      destruct Hp as [Hp|(t & Ht & Hp)]; [now left|].
      right. exists t. rewrite En in Ht. cbn in Ht. split; [lia|exact Hp].
    + eexists. eexists. split; [reflexivity|]. cbn. rewrite En. cbn.
      split; [exact Hl|]. split; [reflexivity|]. split; [reflexivity|].
      split; [apply lookup_insert_eq|]. split; [lia|]. now split.
Qed.

(** A call of [crawl_page] with the lock free, in its three steps. *)
Lemma crawl_page_unlocked (url domain : string) (s : Crawler) :
  netloc url = Some domain ->
  lock s = false ->
  exists links s' sA sC,
    crawl_page url s = Returned (links, s')
    /\ respect_crawl_delay domain url s = Returned (tt, sA)
    /\ kept s sA /\ kept s sC
    /\ clock sC = clock sA
    /\ domain_last_access sC = <[domain := clock sA]> (domain_last_access sA)
    /\ fetch_and_store domain url (robots_verdict domain url s) sC = Returned (links, s').
Proof.
  intros Hn Hl.
  destruct (crawl_page_returns url domain Hn s Hl) as (links & s' & Hrun & _).
  destruct (crawl_page_steps url domain s links s' Hn Hrun)
    as (sA & sC & HA & KA & _ & KC & Hc & Hd & HF).
  exists links, s', sA, sC. repeat (split; [assumption|]). assumption.
Qed.

(** With the lock free, [crawl_page] on a URL that [urlparse] accepts
    and robots.txt forbids makes no request; on such a URL, or when the
    request raises or answers with a status other than 200, it returns
    no link and leaves the [pages] table and the queue table as they
    were. *)
Theorem crawl_page_stores_only_on_200 (url domain : string) (s : Crawler) :
  netloc url = Some domain ->
  lock s = false ->
  robots_verdict domain url s = false
  \/ (forall l soup, next_http s <> HttpResponse l 200 soup) ->
  exists s',
    crawl_page url s = Returned ([], s')
    /\ tbl_pages s' = tbl_pages s
    /\ tbl_crawl_queue s' = tbl_crawl_queue s
    /\ visited_urls s' = visited_urls s
    /\ (robots_verdict domain url s = false -> http s' = http s).
Proof.
  intros Hd Hl Hcase.
  destruct (crawl_page_unlocked url domain s Hd Hl)
    as (links & s' & sA & sC & Hrun & _ & _ & KC & _ & _ & HF).
  destruct KC as (Kp & Kq & _ & Kv & _ & Kl & Kh & _).
  rewrite Hl in Kl.
  destruct (fetch_and_store_effect domain url (robots_verdict domain url s) sC)
    as (links' & s'' & HF' & _ & Hq & Hv & Hm); [congruence|].
  rewrite HF in HF'. injection HF' as <- <-.
  assert (Hn : next_http sC = next_http s) by (unfold next_http; now rewrite Kh).
  rewrite Hn in Hm.
  destruct (robots_verdict domain url s) eqn:Ev.
  - destruct Hcase as [Hcase|Hcase]; [discriminate|].
    destruct (next_http s) as [l|l status soup] eqn:En.
    + destruct Hm as [-> ->]. exists (requested url sC). cbn.
      split; [exact Hrun|]. repeat split; try congruence.
    + destruct Hm as (_ & _ & Hm).
      destruct (Z.eqb_spec status 200) as [->|Hne].
      * exfalso. now apply (Hcase l soup).
      * destruct Hm as [-> Hp]. exists s'.
        split; [exact Hrun|]. repeat split; try congruence.
  - destruct Hm as [-> ->]. exists sC.
    split; [exact Hrun|]. repeat split; try congruence.
Qed.

(** With the lock free and no storage error, [crawl_page] on a URL that
    [urlparse] accepts, that robots.txt allows and that answers 200
    leaves exactly one row for the URL: its title (the URL itself when
    the document has none), its text with runs of white space collapsed
    and the ends stripped (the text being ASCII), and the time of the
    store, no earlier than the end of the request; rows of other urls
    stay.  It returns the links extracted from the document, and no
    link, the row being stored all the same, when a reference of the
    document makes [urljoin] raise. *)
Theorem crawl_page_indexes_page (url domain : string) (s : Crawler) (l : Z)
    (soup : Document) :
  netloc url = Some domain ->
  lock s = false ->
  robots_verdict domain url s = true ->
  next_http s = HttpResponse l 200 soup ->
  no_fault 1 (faults s) = true ->
  forallb is_ascii (doc_texts soup) = true ->
  exists s' t,
    crawl_page url s
    = Returned (match extract_links (doc_hrefs soup) url with
                | Some links => links
                | None => []
                end, s')
    /\ (clock s + l <= t)%Z
    /\ rows_for url (tbl_pages s')
       = [page_row url
            match doc_title soup with
            | Some t => t
            | None => Some url
            end
            (strip (collapse_ws false (join_blank (doc_texts soup)))) t]
    /\ rows_but url (tbl_pages s') = rows_but url (tbl_pages s)
    /\ tbl_crawl_queue s' = tbl_crawl_queue s.
Proof.
  intros Hd Hl Hv Hn Hf _.
  destruct (crawl_page_unlocked url domain s Hd Hl)
    as (links & s' & sA & sC & Hrun & HA & KA & KC & Hc & _ & HF).
  destruct KC as (Kp & Kq & _ & _ & Kf & Kl & Kh & _).
  rewrite Hl in Kl. rewrite Hv in HF.
  assert (HcA : (clock s <= clock sA)%Z).
  { destruct (domain_last_access s !! domain) as [t0|] eqn:Ed.
    - destruct (respect_crawl_delay_waits url domain s t0 Hd Ed)
        as (d & s1 & sA' & _ & HA' & _ & H).
      rewrite HA in HA'. injection HA' as <-. exact H.
    - rewrite (respect_crawl_delay_first_visit domain url s Ed) in HA.
      injection HA as <-. lia. }
  assert (Hn' : next_http sC = HttpResponse l 200 soup).
  { unfold next_http in *. now rewrite Kh. }
  unfold fetch_and_store in HF. cbn [negb] in HF.
  unfold bind at 1 in HF. rewrite requests_get_eq, Hn' in HF.
  unfold bind at 1 in HF. rewrite stamp_eq in HF. cbn [Z.eqb Pos.eqb] in HF.
  unfold bind in HF.
  match type of HF with context [store_page 3 ?u ?ti ?c ?st] =>
    assert (Hs : store_page 3 u ti c st = Returned (tt, store_effect u ti c st))
      by (apply store_page_ok; [exact Kl | cbn; now rewrite Kf]);
    rewrite Hs in HF
  end.
  injection HF as <- <-.
  eexists. exists (clock sC + l)%Z. split; [exact Hrun|].
  split; [lia|]. cbn. rewrite Hn'. cbn. rewrite Kp.
  split; [|split; [|exact Kq]].
  - exact (rows_for_replace (page_row url _ _ (clock sC + l)) _).
  - exact (rows_but_replace (page_row url _ _ (clock sC + l)) _).
Qed.

Lemma extends_refl (s : Crawler) : extends (trace s) s.
Proof. exists []. now rewrite app_nil_r. Qed.

Lemma extends_emit (tr0 : list event) (e : event) (s : Crawler) :
  extends tr0 s -> extends tr0 (set_trace (fun tr => tr ++ [e]) s).
Proof.
  intros [new H]. exists (new ++ [e]). cbn. now rewrite H, app_assoc.
Qed.

Lemma store_page_extends (tr0 : list event) (n : nat) (url : string)
    (title : option string) (text : string) :
  preserves (extends tr0) (store_page n url title text).
Proof.
  revert url title text. induction n as [|n IH]; intros; simpl; preserves_auto;
    try apply IH; try (intros t Ht; now apply extends_emit).
Qed.

Lemma fetch_and_store_extends (tr0 : list event) (domain url : string) (allowed : bool) :
  preserves (extends tr0) (fetch_and_store domain url allowed).
Proof.
  unfold fetch_and_store.
  repeat first
    [ assumption
    | apply store_page_extends
    | preserves_step
    | progress unfold sleep, emit, stamp, requests_get ];
  intros t Ht; now apply extends_emit.
Qed.

(** The first stamp of a call of [crawl_page]: nothing but pauses and
    the read of robots.txt comes before it. *)
Lemma crawl_page_first_stamp (url domain : string) (s : Crawler) (links : list string)
    (s' sA : Crawler) :
  netloc url = Some domain ->
  crawl_page url s = Returned (links, s') ->
  respect_crawl_delay domain url s = Returned (tt, sA) ->
  exists pre rest,
    trace s' = trace s ++ pre ++ EvStamp domain (clock sA) :: rest
    /\ forallb quiet_ev pre = true.
Proof.
  intros Hn Hrun HA. rewrite (crawl_page_parsed url domain s Hn) in Hrun.
  unfold bind in Hrun.
  pose proof (respect_crawl_delay_quiet _ _ _ domain url _ Hn s
                (quiet_since_start domain url s)) as QA.
  rewrite HA in QA, Hrun. destruct QA as ((pre & HtA & Hpre) & _).
  rewrite stamp_eq in Hrun.
  destruct (can_fetch_effect url domain (stamped domain sA) Hn)
    as (sC & mid & HC & HtC & _).
  rewrite HC in Hrun.
  pose proof (fetch_and_store_extends (trace sC) domain url
                (robots_verdict domain url (stamped domain sA)) sC (extends_refl sC)) as HE.
  rewrite Hrun in HE. destruct HE as [post HE].
  exists pre, (mid ++ post). split; [|exact Hpre].
  rewrite HE, HtC. cbn. rewrite HtA, <- !app_assoc. reflexivity.
Qed.

(** With the lock free, a call of [crawl_page] on a URL of a domain last
    accessed at [t0] first waits: its first stamp of the domain, before
    which it makes no request, is later than [t0] by the crawl delay of
    the domain at least, and the last access that it leaves is no
    earlier than that stamp (requests taking no negative time). *)
Theorem accesses_are_spaced (url domain : string) (s : Crawler) (t0 : Z) :
  netloc url = Some domain ->
  lock s = false ->
  domain_last_access s !! domain = Some t0 ->
  (0 <= latency_of (next_http s))%Z ->
  exists links s' delay s1 pre t1 rest t',
    crawl_page url s = Returned (links, s')
    /\ get_crawl_delay url s = Returned (delay, s1)
    /\ trace s' = trace s ++ pre ++ EvStamp domain t1 :: rest
    /\ forallb quiet_ev pre = true
    /\ (t0 + seconds delay <= t1)%Z
    /\ domain_last_access s' !! domain = Some t'
    /\ (t1 <= t')%Z.
Proof.
  intros Hn Hl Hd Hlat.
  destruct (crawl_page_unlocked url domain s Hn Hl)
    as (links & s' & sA & sC & Hrun & HA & _ & KC & Hc & HdC & HF).
  destruct KC as (_ & _ & _ & _ & _ & Kl & Kh & _). rewrite Hl in Kl.
  destruct (respect_crawl_delay_waits url domain s t0 Hn Hd)
    as (delay & s1 & sA' & Hg & HA' & Hw & _).
  rewrite HA in HA'. injection HA' as <-.
  destruct (crawl_page_first_stamp url domain s links s' sA Hn Hrun HA)
    as (pre & rest & Htr & Hpre).
  destruct (fetch_and_store_effect domain url (robots_verdict domain url s) sC)
    as (links' & s'' & HF' & _ & _ & _ & Hm); [congruence|].
  rewrite HF in HF'. injection HF' as <- <-.
  assert (Hnx : next_http sC = next_http s) by (unfold next_http; now rewrite Kh).
  rewrite Hnx in Hm.
  assert (Hstamp : domain_last_access sC !! domain = Some (clock sA)).
  { rewrite HdC. apply lookup_insert_eq. }
  assert (Hlast : exists t', domain_last_access s' !! domain = Some t'
                             /\ (clock sA <= t')%Z).
  { destruct (robots_verdict domain url s).
    - destruct (next_http s) as [l|l status soup].
      + destruct Hm as [_ ->]. exists (clock sA). split; [exact Hstamp|lia].
      + destruct Hm as (Hm & _ & _). exists (clock sC + l)%Z.
        cbn in Hlat. split; [exact Hm|lia].
    - destruct Hm as [_ ->]. exists (clock sA). split; [exact Hstamp|lia]. }
  destruct Hlast as (t' & Ht' & Hle).
  exists links, s', delay, s1, pre, (clock sA), rest, t'.
  split; [exact Hrun|]. split; [exact Hg|]. split; [exact Htr|].
  split; [exact Hpre|]. split; [exact Hw|]. split; [exact Ht'|exact Hle].
Qed.

(** ** The dequeue loop under any storage errors *)

Ltac conj_split := repeat match goal with |- _ /\ _ => split end.

Lemma pop_attempts_effect (n : nat) (found : option (string * Z)) (s : Crawler) :
  lock s = false ->
  exists r s',
    pop_attempts n found s = Returned (r, s')
    /\ lock s' = false
    /\ (clock s <= clock s' <= clock s + seconds (Z.of_nat n))%Z
    /\ tbl_pages s' = tbl_pages s
    /\ visited_urls s' = visited_urls s
    /\ (r = found
        \/ exists row, select_first (tbl_crawl_queue s) = Some row
                       /\ r = Some (q_url row, q_priority row))
    /\ (tbl_crawl_queue s' = tbl_crawl_queue s
        \/ exists row, select_first (tbl_crawl_queue s) = Some row
                       /\ r = Some (q_url row, q_priority row)
                       /\ tbl_crawl_queue s' = delete_url (q_url row) (tbl_crawl_queue s)).
Proof.
  revert found s. induction n as [|n IH]; intros found s Hl.
  - exists found, s. cbn. unfold seconds.
    conj_split; try lia; try assumption; try reflexivity; now left.
  - cbn [pop_attempts]. exec. rewrite Hl. cbn.
    destruct (fst (next_outcome (faults s))) eqn:E1; cbn.
    + destruct (select_first (tbl_crawl_queue s)) as [row|] eqn:Es; cbn.
      * destruct (fst (next_outcome (snd (next_outcome (faults s))))) eqn:E2; cbn.
        -- eexists; eexists. split; [reflexivity|]. cbn. unfold seconds.
           conj_split; try lia; try reflexivity;
             right; exists row; conj_split; reflexivity.
        -- match goal with |- context [pop_attempts n ?f ?t] =>
             destruct (IH f t eq_refl) as (r & s' & Hr & Hl' & Hc & Hp & Hv & Ha & Ht)
           end.
           exists r, s'. split; [exact Hr|].
           cbn in Hc, Hp, Hv, Ha, Ht. unfold seconds in *. rewrite Es in Ha, Ht.
           conj_split; try assumption; try lia.
           right. destruct Ha as [->|Ha]; [|exact Ha]. now exists row.
        -- eexists; eexists. split; [reflexivity|]. cbn. unfold seconds.
           conj_split; try lia; try reflexivity; [|now left].
           right. now exists row.
      * eexists; eexists. split; [reflexivity|]. cbn. unfold seconds.
        conj_split; try lia; try reflexivity; now left.
    + match goal with |- context [pop_attempts n ?f ?t] =>
        destruct (IH f t eq_refl) as (r & s' & Hr & Hl' & Hc & Hp & Hv & Ha & Ht)
      end.
      exists r, s'. split; [exact Hr|].
      cbn in Hc, Hp, Hv, Ha, Ht. unfold seconds in *.
      conj_split; try assumption; try lia.
    + eexists; eexists. split; [reflexivity|]. cbn. unfold seconds.
      conj_split; try lia; try reflexivity; now left.
Qed.

(** With the lock free, the dequeue loop always ends, after pauses of
    three seconds at most; whatever the storage answers, an answer is
    the url and priority of a row that no row precedes in (priority,
    added_at) order, the queue table loses that row or nothing, and when
    nothing is answered the table is as before; the [pages] table is
    never touched. *)
Theorem dequeue_gives_up (s : Crawler) :
  lock s = false ->
  exists r s',
    pop s = Returned (r, s')
    /\ lock s' = false
    /\ (clock s <= clock s' <= clock s + 3000000)%Z
    /\ tbl_pages s' = tbl_pages s
    /\ match r with
       | None => tbl_crawl_queue s' = tbl_crawl_queue s
       | Some (url, priority) =>
           (exists row,
               In row (tbl_crawl_queue s)
               /\ q_url row = url /\ q_priority row = priority
               /\ forall x, In x (tbl_crawl_queue s) -> queue_le row x)
           /\ (tbl_crawl_queue s' = tbl_crawl_queue s
               \/ tbl_crawl_queue s' = delete_url url (tbl_crawl_queue s))
       end.
Proof.
  intros Hl. destruct (pop_attempts_effect 3 None s Hl)
    as (r & s' & Hr & Hl' & Hc & Hp & _ & Ha & Ht).
  exists r, s'. split; [exact Hr|]. split; [exact Hl'|].
  split; [exact Hc|]. split; [exact Hp|].
  destruct Ha as [->|(row & Hs & ->)].
  - destruct Ht as [Ht|(row & _ & Hn & _)]; [exact Ht|discriminate].
  - destruct (select_first_min _ _ Hs) as [Hin Hmin]. split.
    + exists row. now repeat split.
    + destruct Ht as [Ht|(row' & Hs' & Hn & Ht)]; [now left|].
      right. rewrite Hs in Hs'. injection Hs' as <-. exact Ht.
Qed.

(** ** What a push does to the queue *)

Lemma add_url_to_queue_held (fuel : nat) (url : string) (p : Z) (s : Crawler) :
  lock s = true ->
  (String.eqb url "" || bool_decide (url ∈ visited_urls s)) = false ->
  forall a, add_url_to_queue fuel url p s <> Returned a.
Proof.
  intros Hl Hg a. destruct fuel as [|fuel]; [discriminate|].
  cbn [add_url_to_queue]. exec. rewrite Hg. cbn. rewrite Hl. discriminate.
Qed.

Lemma add_url_to_queue_result (fuel : nat) (url : string) (p : Z) (s s' : Crawler) :
  add_url_to_queue fuel url p s = Returned (tt, s') ->
  tbl_pages s' = tbl_pages s
  /\ visited_urls s' = visited_urls s
  /\ (tbl_crawl_queue s' = tbl_crawl_queue s
      \/ (url <> "" /\ (url ∉ visited_urls s)
          /\ ~ In url (map q_url (tbl_crawl_queue s))
          /\ tbl_crawl_queue s'
             = tbl_crawl_queue s ++ [queue_row url p (clock s)])).
Proof.
  destruct fuel as [|fuel]; [discriminate|].
  cbn [add_url_to_queue]. exec.
  destruct (String.eqb url "" || bool_decide (url ∈ visited_urls s)) eqn:Hg.
  { intros [= <-]. repeat split. now left. }
  cbn. destruct (lock s) eqn:Hl; [discriminate|]. cbn.
  destruct (fst (next_outcome (faults s))) eqn:E; cbn.
  - intros [= <-]. cbn. split; [reflexivity|]. split; [reflexivity|].
    unfold insert_or_ignore. cbn.
    destruct (has_url url (tbl_crawl_queue s)) eqn:Eh; [now left|].
    right. apply orb_false_iff in Hg as [Hne Hv].
    split; [now apply String.eqb_neq|].
    split; [now apply bool_decide_eq_false in Hv|].
    split; [|reflexivity].
    intros Hin. apply has_url_In in Hin. congruence.
  - match goal with |- context [add_url_to_queue fuel url p ?t] =>
      pose proof (add_url_to_queue_held fuel url p t eq_refl Hg) as Hn;
      destruct (add_url_to_queue fuel url p t) as [[[] t']| | |t']
    end; try discriminate.
    exfalso. now apply (Hn (tt, t')).
  - intros [= <-]. cbn. repeat split. now left.
Qed.

(** A push that returns, whatever the storage answered, leaves every
    queued row where it was and as it was, and adds at most one row, at
    the end, for a URL that had none: pushing a queued URL again, even
    at priority 0, changes neither its priority nor its place. The
    [pages] table and the visited set are not touched. *)
Theorem push_keeps_queued_rows (fuel : nat) (url : string) (p : Z) (s s' : Crawler) :
  add_url_to_queue fuel url p s = Returned (tt, s') ->
  tbl_pages s' = tbl_pages s
  /\ visited_urls s' = visited_urls s
  /\ (tbl_crawl_queue s' = tbl_crawl_queue s
      \/ (url <> "" /\ (url ∉ visited_urls s)
          /\ ~ In url (map q_url (tbl_crawl_queue s))
          /\ tbl_crawl_queue s'
             = tbl_crawl_queue s ++ [queue_row url p (clock s)])).
Proof. apply add_url_to_queue_result. Qed.

(** ** A push followed by a dequeue *)

Lemma queue_lt_true (a b : QueueRow) :
  queue_lt a b = true <->
  (q_priority a < q_priority b
   \/ (q_priority a = q_priority b /\ q_added_at a < q_added_at b))%Z.
Proof. unfold queue_lt. lia. Qed.

Lemma queue_lt_false (a b : QueueRow) :
  queue_lt a b = false <->
  ~ (q_priority a < q_priority b
     \/ (q_priority a = q_priority b /\ q_added_at a < q_added_at b))%Z.
Proof. rewrite <- queue_lt_true. now destruct (queue_lt a b). Qed.

Lemma select_first_snoc (rows : list QueueRow) (r : QueueRow) :
  select_first (rows ++ [r])
  = match select_first rows with
    | None => Some r
    | Some m => if queue_lt r m then Some r else Some m
    end.
Proof.
  induction rows as [|x rows IH]; [reflexivity|].
  cbn [app select_first]. rewrite IH.
  destruct (select_first rows) as [m|].
  - destruct (queue_lt r m) eqn:E1, (queue_lt m x) eqn:E2,
             (queue_lt r x) eqn:E3; try reflexivity;
      rewrite ?E1; try reflexivity; exfalso;
      rewrite ?queue_lt_true, ?queue_lt_false in *; lia.
  - reflexivity.
Qed.

Lemma delete_url_absent_id (url : string) (rows : list QueueRow) :
  ~ In url (map q_url rows) -> delete_url url rows = rows.
Proof.
  unfold delete_url. induction rows as [|r rows IH]; [reflexivity|].
  simpl. intros H. destruct (String.eqb_spec (q_url r) url) as [E|E].
  - exfalso. apply H. now left.
  - simpl. f_equal. apply IH. intros Hin. apply H. now right.
Qed.

Lemma push_pop_step (s : Crawler) (url : string) (p : Z) :
  url <> "" ->
  url ∉ visited_urls s ->
  ~ In url (map q_url (tbl_crawl_queue s)) ->
  lock s = false ->
  no_fault 3 (faults s) = true ->
  exists s1 s2 row,
    add_url_to_queue 2 url p s = Returned (tt, s1)
    /\ pop s1 = Returned (Some (q_url row, q_priority row), s2)
    /\ match select_first (tbl_crawl_queue s) with
       | None => row = queue_row url p (clock s)
                 /\ tbl_crawl_queue s2 = tbl_crawl_queue s
       | Some m =>
           if queue_lt (queue_row url p (clock s)) m
           then row = queue_row url p (clock s)
                /\ tbl_crawl_queue s2 = tbl_crawl_queue s
           else row = m
       end.
Proof.
  intros Hne Hv Hnew Hl Hf.
  apply no_fault_next in Hf as [Hf1 Hf2].
  assert (Hf : no_fault 1 (faults s) = true).
  { destruct (faults s) as [|[] ?]; try discriminate; reflexivity. }
  assert (Ht : tbl_crawl_queue (push_effect url p s)
               = tbl_crawl_queue s ++ [queue_row url p (clock s)]).
  { cbn. unfold insert_or_ignore. cbn.
    destruct (has_url url (tbl_crawl_queue s)) eqn:Eh; [|reflexivity].
    apply has_url_In in Eh. contradiction. }
  assert (Hs := select_first_snoc (tbl_crawl_queue s) (queue_row url p (clock s))).
  rewrite <- Ht in Hs.
  assert (Hdel : delete_url url (tbl_crawl_queue (push_effect url p s))
                 = tbl_crawl_queue s).
  { rewrite Ht. unfold delete_url. rewrite List.filter_app. cbn.
    rewrite String.eqb_refl. cbn. rewrite app_nil_r.
    now apply delete_url_absent_id. }
  exists (push_effect url p s).
  destruct (select_first (tbl_crawl_queue s)) as [m|] eqn:Em.
  - destruct (queue_lt (queue_row url p (clock s)) m) eqn:Elt.
    + exists (pop_effect (queue_row url p (clock s)) (push_effect url p s)),
             (queue_row url p (clock s)).
      split; [now apply add_url_to_queue_ok|].
      split; [now apply pop_found|]. split; [reflexivity|exact Hdel].
    + exists (pop_effect m (push_effect url p s)), m.
      split; [now apply add_url_to_queue_ok|].
      split; [now apply pop_found|]. reflexivity.
  - exists (pop_effect (queue_row url p (clock s)) (push_effect url p s)),
           (queue_row url p (clock s)).
    split; [now apply add_url_to_queue_ok|].
    split; [now apply pop_found|]. split; [reflexivity|exact Hdel].
Qed.

(** With the lock free and no storage error, pushing a new URL (not
    empty, not visited, not queued) and dequeuing at once answers the
    pushed URL when it comes strictly before every queued row in
    (priority, added_at) order, and the row that was the first before
    the push otherwise: rows of equal priority leave in the order of
    their arrival. When the pushed URL is answered the table is back to
    what it was. *)
Theorem push_then_pop (s : Crawler) (url : string) (p : Z) :
  url <> "" ->
  url ∉ visited_urls s ->
  ~ In url (map q_url (tbl_crawl_queue s)) ->
  lock s = false ->
  no_fault 3 (faults s) = true ->
  exists s1 s2 row,
    add_url_to_queue 2 url p s = Returned (tt, s1)
    /\ pop s1 = Returned (Some (q_url row, q_priority row), s2)
    /\ match select_first (tbl_crawl_queue s) with
       | None => row = queue_row url p (clock s)
                 /\ tbl_crawl_queue s2 = tbl_crawl_queue s
       | Some m =>
           if queue_lt (queue_row url p (clock s)) m
           then row = queue_row url p (clock s)
                /\ tbl_crawl_queue s2 = tbl_crawl_queue s
           else row = m
       end.
Proof. apply push_pop_step. Qed.

(** The button "Add to Front of Queue": with the lock free and no
    storage error, a new URL pushed at priority 0 into a queue whose
    rows all have a positive priority is the next one dequeued. *)
Theorem priority_zero_is_next (s : Crawler) (url : string) :
  url <> "" ->
  url ∉ visited_urls s ->
  ~ In url (map q_url (tbl_crawl_queue s)) ->
  (forall r, In r (tbl_crawl_queue s) -> (0 < q_priority r)%Z) ->
  lock s = false ->
  no_fault 3 (faults s) = true ->
  exists s1 s2,
    add_url_to_queue 2 url 0 s = Returned (tt, s1)
    /\ pop s1 = Returned (Some (url, 0%Z), s2)
    /\ tbl_crawl_queue s2 = tbl_crawl_queue s.
Proof.
  intros Hne Hv Hnew Hpos Hl Hf.
  destruct (push_pop_step s url 0 Hne Hv Hnew Hl Hf) as (s1 & s2 & row & H1 & H2 & H3).
  exists s1, s2. split; [exact H1|].
  destruct (select_first (tbl_crawl_queue s)) as [m|] eqn:Em.
  - destruct (select_first_min _ _ Em) as [Hin _]. specialize (Hpos m Hin).
    assert (E : queue_lt (queue_row url 0 (clock s)) m = true).
    { apply queue_lt_true. cbn. lia. }
    rewrite E in H3. destruct H3 as [-> H3]. now split.
  - destruct H3 as [-> H3]. now split.
Qed.

(** ** The worker requests no URL twice *)

Lemma http_gets_app (a b : list event) :
  http_gets (a ++ b) = http_gets a ++ http_gets b.
Proof.
  induction a as [|e a IH]; [reflexivity|].
  destruct e; simpl; now rewrite IH.
Qed.

Lemma http_gets_quiet (l : list event) : forallb quiet_ev l = true -> http_gets l = [].
Proof.
  induction l as [|e l IH]; [reflexivity|].
  simpl. intros H. apply andb_true_iff in H as [He Hl].
  destruct e; try discriminate; now apply IH.
Qed.

Lemma fetched_once_emit (e : event) :
  http_gets [e] = [] ->
  forall s, fetched_once s -> fetched_once (set_trace (fun tr => tr ++ [e]) s).
Proof.
  intros He s [H1 H2]. unfold fetched_once. cbn.
  rewrite http_gets_app, He, app_nil_r. now split.
Qed.

Ltac fetched_auto :=
  repeat first
    [ assumption
    | preserves_step
    | progress unfold sleep, emit, db_step ];
  try (apply fetched_once_emit; reflexivity).

Lemma add_url_to_queue_fetched (fuel : nat) (url : string) (priority : Z) :
  preserves fetched_once (add_url_to_queue fuel url priority).
Proof. induction fuel as [|fuel IH]; cbn [add_url_to_queue]; fetched_auto. Qed.

Lemma pop_attempts_fetched (n : nat) (found : option (string * Z)) :
  preserves fetched_once (pop_attempts n found).
Proof.
  revert found. induction n as [|n IH]; intros found; cbn [pop_attempts];
    fetched_auto; try apply IH.
Qed.

Lemma get_robot_parser_fetched (url : string) :
  preserves fetched_once (get_robot_parser url).
Proof. unfold get_robot_parser. fetched_auto. Qed.

(** *** [crawl_page] raises on malformed URLs only *)

Lemma never_raises_urlparse_netloc (url domain : string) :
  netloc url = Some domain -> never_raises (urlparse_netloc url).
Proof. intros Hd s s'. unfold urlparse_netloc. now rewrite Hd. Qed.

Lemma store_page_never_raises (n : nat) (url : string) (title : option string)
    (text : string) :
  never_raises (store_page n url title text).
Proof.
  revert url title text. induction n as [|n IH]; intros; simpl; never_raises_auto;
    try apply IH.
Qed.

Lemma get_robot_parser_never_raises (url domain : string) :
  netloc url = Some domain -> never_raises (get_robot_parser url).
Proof.
  intros Hd. unfold get_robot_parser.
  apply never_raises_bind; [now apply never_raises_urlparse_netloc with domain|].
  intros d. never_raises_auto.
Qed.

Lemma crawl_page_never_raises (url domain : string) :
  netloc url = Some domain -> never_raises (crawl_page url).
Proof.
  intros Hd s s'. rewrite (crawl_page_parsed url domain s Hd). revert s s'.
  change (never_raises
            (respect_crawl_delay domain url ;;; stamp domain ;;;
             allowed <~ can_fetch url ;; fetch_and_store domain url allowed)).
  unfold respect_crawl_delay, get_crawl_delay, can_fetch, fetch_and_store.
  repeat first
    [ now apply get_robot_parser_never_raises with domain
    | now apply never_raises_urlparse_netloc with domain
    | apply store_page_never_raises
    | never_raises_step
    | progress unfold sleep, emit, db_step, now, stamp, requests_get ].
Qed.

(** A call of [crawl_page] raises at once, on a URL that [urlparse]
    refuses, or not at all. *)
Lemma crawl_page_outcome (url : string) (s : Crawler) :
  (netloc url = None /\ crawl_page url s = Raised s)
  \/ (exists domain, netloc url = Some domain
                     /\ forall s', crawl_page url s <> Raised s').
Proof.
  destruct (netloc url) as [domain|] eqn:Hd.
  - right. exists domain. split; [reflexivity|].
    intros s'. now apply crawl_page_never_raises with domain.
  - left. split; [reflexivity|]. now apply crawl_page_malformed.
Qed.

(** The requests that a call of [crawl_page] adds. *)
Lemma crawl_page_gets (url domain : string) (s : Crawler) (links : list string)
    (s' : Crawler) :
  netloc url = Some domain ->
  crawl_page url s = Returned (links, s') ->
  http_gets (trace s')
  = http_gets (trace s) ++ (if robots_verdict domain url s then [url] else [])
  /\ visited_urls s' = visited_urls s.
Proof.
  intros Hn Hrun.
  destruct (crawl_page_steps url domain s links s' Hn Hrun)
    as (sA & sC & HA & _ & HC & KC & _ & _ & HF).
  pose proof (respect_crawl_delay_quiet _ _ _ domain url _ Hn s
                (quiet_since_start domain url s)) as QA.
  rewrite HA in QA. destruct QA as ((pre & HtA & Hpre) & _).
  destruct (can_fetch_effect url domain (stamped domain sA) Hn)
    as (sC' & mid & HC' & HtC & Hmid & _).
  rewrite HC in HC'. injection HC' as _ <-.
  assert (HgC : http_gets (trace sC) = http_gets (trace s)).
  { rewrite HtC. cbn. rewrite HtA, !http_gets_app.
    rewrite (http_gets_quiet _ Hpre), (http_gets_quiet _ Hmid).
    cbn. now rewrite !app_nil_r. }
  destruct KC as (_ & _ & _ & Kv & _).
  unfold fetch_and_store in HF.
  destruct (robots_verdict domain url s); cbn [negb] in HF.
  2:{ injection HF as _ <-. rewrite app_nil_r. now split. }
  unfold bind at 1 in HF. rewrite requests_get_eq in HF.
  assert (Hg : http_gets (trace (requested url sC)) = http_gets (trace s) ++ [url]).
  { cbn. now rewrite http_gets_app, HgC. }
  destruct (next_http sC) as [l|l status soup].
  - injection HF as _ <-. now split.
  - unfold bind at 1 in HF. rewrite stamp_eq in HF.
    destruct (status =? 200)%Z.
    + unfold bind in HF.
      match type of HF with context [store_page 3 ?u ?t ?c ?st] =>
        pose proof (store_page_quiet _ _ _ domain url _ 3 u t c st
                      (quiet_since_start domain url st)) as QS;
        pose proof (store_page_inv (fun x => visited_urls x = visited_urls s)
                      ltac:(auto) ltac:(auto) ltac:(auto) ltac:(auto) ltac:(auto)
                      3 u t c st Kv) as VS;
        destruct (store_page 3 u t c st) as [[[] sF]| | |sF]; try discriminate
      end.
      injection HF as _ <-. destruct QS as ((post & HtF & Hpost) & _).
      split; [|exact VS].
      rewrite HtF, http_gets_app, (http_gets_quiet _ Hpost), app_nil_r.
      cbn. rewrite http_gets_app. cbn. rewrite app_nil_r.
      rewrite http_gets_app, HgC. reflexivity.
    + injection HF as _ <-. cbn. split; [|exact Kv].
      rewrite !http_gets_app. cbn. rewrite app_nil_r, HgC. reflexivity.
Qed.

Lemma sleep_fetched (d : Z) : preserves fetched_once (sleep d).
Proof. fetched_auto. Qed.

Lemma crawl_worker_step_fetched : preserves fetched_once crawl_worker_step.
Proof.
  unfold crawl_worker_step. apply preserves_try_except; [|apply sleep_fetched].
  intros s HI. unfold bind.
  pose proof (pop_attempts_fetched 3 None s HI) as H1. fold pop in H1.
  destruct (pop s) as [[found s1]| | |s1]; [|exact Logic.I..|exact H1].
  destruct found as [[u p]|]; [|exact (sleep_fetched _ s1 H1)].
  destruct (String.eqb u ""); [exact (sleep_fetched _ s1 H1)|].
  unfold gets at 1. destruct (bool_decide (u ∈ visited_urls s1)) eqn:Ev.
  { exact (sleep_fetched _ s1 H1). }
  apply bool_decide_eq_false in Ev. unfold modify at 1.
  set (s2 := set_visited_urls (fun v => {[u]} ∪ v) s1).
  destruct (crawl_page_outcome u s2) as [[_ Hr]|(d & Hd & Hr)].
  { rewrite Hr. destruct H1 as [Hn Hin]. split; [exact Hn|].
    intros x Hx. cbn. apply elem_of_union. right. now apply Hin. }
  pose proof (crawl_page_gets u d s2) as Hg.
  destruct (crawl_page u s2) as [[links s3]| | |s3];
    [|exact Logic.I..|now destruct (Hr s3)].
  destruct (Hg links s3 Hd eq_refl) as [Hg3 Hv3]. clear Hg.
  assert (H3 : fetched_once s3).
  { destruct H1 as [Hn Hin]. unfold fetched_once. rewrite Hg3, Hv3. cbn.
    destruct (robots_verdict d u s2).
    - split.
      + apply NoDup_snoc; [exact Hn|]. intros Hu. apply Ev. now apply Hin.
      + intros x Hx. apply elem_of_union.
        apply in_app_iff in Hx as [Hx|[<-|[]]]; [right; now apply Hin|left].
        now apply elem_of_singleton.
    - rewrite app_nil_r. split; [exact Hn|].
      intros x Hx. apply elem_of_union. right. now apply Hin. }
  match goal with |- context [for_each links ?body] =>
    assert (Hb : preserves fetched_once (for_each links body))
  end.
  { apply preserves_for_each. intros link. cbn beta.
    apply preserves_bind; [apply preserves_gets|].
    intros [|]; [apply preserves_ret | apply add_url_to_queue_fetched]. }
  specialize (Hb s3 H3).
  match goal with |- context [for_each links ?body s3] =>
    destruct (for_each links body s3) as [[[] s4]| | |s4]; [|exact Logic.I..|exact Hb]
  end.
  exact (sleep_fetched _ s4 Hb).
Qed.

Lemma run_fetched (calls : list call) :
  forallb worker_call calls = true -> preserves fetched_once (run calls).
Proof.
  induction calls as [|c calls IH]; cbn [run forallb]; [intros _; apply preserves_ret|].
  intros H. apply andb_true_iff in H as [Hc Hr]. specialize (IH Hr).
  destruct c; try discriminate; unfold pop, can_fetch, get_crawl_delay;
    repeat first
      [ assumption
      | apply add_url_to_queue_fetched
      | apply pop_attempts_fetched
      | apply get_robot_parser_fetched
      | apply crawl_worker_step_fetched
      | preserves_step
      | progress unfold caught ].
Qed.

(** As long as [crawl_page] is called by the worker only, no URL is
    requested twice in the life of a crawler, and every URL requested is
    in the visited set: whatever pushes, dequeues and worker passes are
    made, in any order. *)
Theorem no_url_fetched_twice (calls : list call) (s s' : Crawler)
    (r : list (option (string * Z))) :
  fetched_once s ->
  forallb worker_call calls = true ->
  run calls s = Returned (r, s') ->
  List.NoDup (http_gets (trace s'))
  /\ (forall u, In u (http_gets (trace s')) -> u ∈ visited_urls s').
Proof.
  intros HI Hw Hrun. pose proof (run_fetched calls Hw s HI) as H.
  now rewrite Hrun in H.
Qed.

(** ** One pass of the worker *)

Lemma push_link_queued (rows0 : list QueueRow) (p : Z) (visited : gset string)
    (link : string) :
  preserves (links_queued rows0 p visited)
    (seen <~ gets (fun s => bool_decide (link ∈ visited_urls s)) ;;
     if seen then ret tt else add_url_to_queue 2 link p).
Proof.
  intros s [Hv Hrows]. unfold bind, gets.
  destruct (bool_decide (link ∈ visited_urls s)); [now split|].
  destruct (add_url_to_queue 2 link p s) as [[[] s']| | |s'] eqn:E;
    [|exact Logic.I..|now destruct (add_url_to_queue_never_raises 2 link p s s')].
  apply add_url_to_queue_result in E as (_ & Hv' & [Ht|(_ & Hn & _ & Ht)]).
  - split; [congruence|]. rewrite Ht. exact Hrows.
  - split; [congruence|]. rewrite Ht. intros row Hin.
    apply in_app_iff in Hin as [Hin|[<-|[]]]; [now apply Hrows|].
    right. cbn. split; [reflexivity|]. now rewrite <- Hv.
Qed.

Lemma crawl_page_frame (url : string) (s : Crawler) (links : list string)
    (s' : Crawler) :
  crawl_page url s = Returned (links, s') ->
  tbl_crawl_queue s' = tbl_crawl_queue s /\ visited_urls s' = visited_urls s.
Proof.
  intros Hrun. split.
  - pose proof (crawl_page_inv (fun x => tbl_crawl_queue x = tbl_crawl_queue s)
                  ltac:(auto) ltac:(auto) ltac:(auto) ltac:(auto) ltac:(auto)
                  ltac:(auto) ltac:(auto) ltac:(auto) ltac:(auto)
                  url s eq_refl) as H.
    now rewrite Hrun in H.
  - destruct (crawl_page_outcome url s) as [[_ Hr]|(d & Hd & _)]; [congruence|].
    now apply (crawl_page_gets url d) in Hrun.
Qed.

(** The pass of the worker after its dequeue. *)
Lemma crawl_worker_step_popped (s : Crawler) (found : option (string * Z))
    (s1 : Crawler) :
  pop s = Returned (found, s1) ->
  crawl_worker_step s
  = try_except
      match found with
      | None => sleep (seconds 1)
      | Some (url, priority) =>
          if String.eqb url "" then sleep (seconds 1)
          else
            visited <~ gets (fun s => bool_decide (url ∈ visited_urls s)) ;;
            (if visited then ret tt
             else
               modify (set_visited_urls (fun v => {[url]} ∪ v)) ;;;
               links <~ crawl_page url ;;
               for_each links (fun link =>
                 seen <~ gets (fun s => bool_decide (link ∈ visited_urls s)) ;;
                 if seen then ret tt else add_url_to_queue 2 link (priority + 1)%Z)) ;;;
            sleep 100000
      end
      (sleep (seconds 5)) s1.
Proof.
  intros Hpop. unfold crawl_worker_step, try_except. unfold bind at 1.
  now rewrite Hpop.
Qed.

(** With the lock free, a pass of the worker that returns after
    dequeuing a URL [u] at priority [p] leaves [u] in the visited set
    and nothing else new in it; every row then in the queue was there
    before the pass or is a link that is not visited, at priority
    [p + 1]. A pass that dequeues nothing changes neither the visited
    set nor the queue. *)
Theorem worker_pass_effect (s s' : Crawler) :
  lock s = false ->
  crawl_worker_step s = Returned (tt, s') ->
  exists found s1,
    pop s = Returned (found, s1)
    /\ match found with
       | None =>
           visited_urls s' = visited_urls s
           /\ tbl_crawl_queue s' = tbl_crawl_queue s
       | Some (u, p) =>
           u <> "" ->
           visited_urls s' = {[u]} ∪ visited_urls s
           /\ (forall row, In row (tbl_crawl_queue s') ->
                 In row (tbl_crawl_queue s)
                 \/ (q_priority row = (p + 1)%Z /\ q_url row ∉ visited_urls s'))
       end.
Proof.
  intros Hl Hrun.
  destruct (pop_attempts_effect 3 None s Hl)
    as (found & s1 & Hpop & Hl1 & _ & _ & Hv1 & Ha & Ht). fold pop in Hpop.
  exists found, s1. split; [exact Hpop|].
  rewrite (crawl_worker_step_popped s found s1 Hpop) in Hrun.
  unfold try_except in Hrun.
  assert (Hsub : forall row, In row (tbl_crawl_queue s1) -> In row (tbl_crawl_queue s)).
  { destruct Ht as [->|(row & _ & _ & ->)]; [auto|].
    intros x Hx. unfold delete_url in Hx. now apply List.filter_In in Hx. }
  destruct found as [[u p]|].
  2:{ injection Hrun as <-. cbn. split; [exact Hv1|].
      destruct Ha as [_|(row & _ & Hn)]; [|discriminate].
      destruct Ht as [Ht|(row & _ & Hn & _)]; [exact Ht|discriminate]. }
  intros Hne. apply String.eqb_neq in Hne. rewrite Hne in Hrun.
  unfold bind at 1, gets at 1 in Hrun.
  assert (Hend : forall (d : Z) (t : Crawler),
             links_queued (tbl_crawl_queue s1) (p + 1) ({[u]} ∪ visited_urls s) t ->
             sleep d t = Returned (tt, s') ->
             visited_urls s' = {[u]} ∪ visited_urls s
             /\ (forall row, In row (tbl_crawl_queue s') ->
                   In row (tbl_crawl_queue s)
                   \/ (q_priority row = (p + 1)%Z /\ q_url row ∉ visited_urls s'))).
  { intros d t [Hv Hrows] Hs. injection Hs as <-. cbn. split; [exact Hv|].
    intros row Hin. rewrite Hv.
    destruct (Hrows row Hin) as [H|H]; [left; now apply Hsub | now right]. }
  destruct (bool_decide (u ∈ visited_urls s1)) eqn:Ev.
  - apply bool_decide_eq_true in Ev. unfold bind in Hrun. cbn [ret] in Hrun.
    apply (Hend 100000%Z s1); [|exact Hrun].
    split; [|now left]. rewrite Hv1 in *. apply leibniz_equiv.
    intros x. rewrite elem_of_union, elem_of_singleton.
    split; [now right|]. intros [->|H]; assumption.
  - unfold bind at 1 in Hrun. unfold bind at 1, modify at 1 in Hrun.
    set (s2 := set_visited_urls (fun v => {[u]} ∪ v) s1) in Hrun.
    unfold bind at 1 in Hrun.
    assert (H2 : links_queued (tbl_crawl_queue s1) (p + 1) ({[u]} ∪ visited_urls s) s2).
    { split; [cbn; now rewrite Hv1|]. cbn. now left. }
    destruct (crawl_page u s2) as [[links s3]| | |s3] eqn:Ec; try discriminate.
    + destruct (crawl_page_frame u s2 links s3 Ec) as [Hq3 Hv3].
      assert (H3 : links_queued (tbl_crawl_queue s1) (p + 1)
                     ({[u]} ∪ visited_urls s) s3).
      { split; [rewrite Hv3; cbn; now rewrite Hv1|].
        rewrite Hq3. cbn. now left. }
      match type of Hrun with context [for_each links ?body] =>
        pose proof (preserves_for_each _ links body
                      (push_link_queued (tbl_crawl_queue s1) (p + 1)
                         ({[u]} ∪ visited_urls s)) s3 H3) as H4;
        destruct (for_each links body s3) as [[[] s4]| | |s4]; try discriminate
      end.
      * now apply (Hend 100000%Z s4).
      * now apply (Hend (seconds 5) s4).
    + destruct (crawl_page_outcome u s2) as [[_ Hr]|(d & _ & Hr)];
        [|now destruct (Hr s3)].
      rewrite Hr in Ec. injection Ec as <-.
      now apply (Hend (seconds 5) s2).
Qed.

(** ** A queued URL that [urlparse] refuses *)

(** With the lock free and no storage error, a pass of the worker that
    dequeues a URL, not visited yet, that [urlparse] refuses ends in the
    handler of the loop: the URL has left the queue and is in the
    visited set, no request was made and no page stored, and the pass
    has paused for five seconds and nothing else. *)
Theorem worker_drops_malformed_url (s : Crawler) (row : QueueRow) :
  lock s = false ->
  no_fault 2 (faults s) = true ->
  select_first (tbl_crawl_queue s) = Some row ->
  q_url row <> "" ->
  q_url row ∉ visited_urls s ->
  netloc (q_url row) = None ->
  crawl_page (q_url row) s = Raised s
  /\ exists s',
       crawl_worker_step s = Returned (tt, s')
       /\ visited_urls s' = {[q_url row]} ∪ visited_urls s
       /\ tbl_crawl_queue s' = delete_url (q_url row) (tbl_crawl_queue s)
       /\ tbl_pages s' = tbl_pages s
       /\ trace s' = trace s ++ [EvSleep (seconds 5)]
       /\ clock s' = (clock s + seconds 5)%Z
       /\ lock s' = false.
Proof.
  intros Hl Hf Hs Hne Hv Hd. split; [now apply crawl_page_malformed|].
  pose proof (pop_found s row Hl Hf Hs) as Hpop.
  rewrite (crawl_worker_step_popped s _ _ Hpop). unfold try_except.
  apply String.eqb_neq in Hne. rewrite Hne.
  unfold bind at 1, gets at 1.
  change (visited_urls (pop_effect row s)) with (visited_urls s).
  rewrite (bool_decide_eq_false_2 _ Hv).
  unfold bind at 1. unfold bind at 1, modify at 1. unfold bind at 1.
  rewrite (crawl_page_malformed _ _ Hd).
  eexists. split; [reflexivity|]. cbn. now repeat split.
Qed.

(** ** The page around the crawler *)

(** [ensure_data] never touches the queue nor an index that has a page;
    when it ends without an exception the index has a page, and it ends
    so whenever its statements meet no error. *)
Theorem ensure_data_seeds_empty_index (s : Crawler) :
  exists r s',
    ensure_data s = Returned (r, s')
    /\ tbl_crawl_queue s' = tbl_crawl_queue s
    /\ (tbl_pages s <> [] -> tbl_pages s' = tbl_pages s)
    /\ (r = Some tt -> tbl_pages s' <> [])
    /\ (pages_unique s -> pages_unique s')
    /\ (no_fault 2 (faults s) = true -> r = Some tt).
Proof.
  destruct s as [pg q cq v rp dla cd rn lk clk fs rt ht tr].
  unfold ensure_data, pages_unique. exec.
  destruct fs as [|[] fs]; cbn; destruct pg as [|p ps]; cbn;
    try (destruct fs as [|[] fs]; cbn);
    eexists; eexists; (split; [reflexivity|]); cbn;
    conj_split; try reflexivity; try congruence; try discriminate; auto;
    intros _; repeat constructor; intros [].
Qed.

Lemma stats_attempts_effect (n : nat) (pc0 qc0 : nat) (s : Crawler) :
  exists pc qc s',
    stats_attempts n pc0 qc0 s = Returned ((pc, qc), s')
    /\ (pc = pc0 \/ pc = List.length (tbl_pages s))
    /\ (qc = qc0 \/ (qc = List.length (tbl_crawl_queue s)
                     /\ pc = List.length (tbl_pages s)))
    /\ tbl_pages s' = tbl_pages s
    /\ tbl_crawl_queue s' = tbl_crawl_queue s
    /\ (clock s <= clock s' <= clock s + seconds (Z.of_nat n))%Z
    /\ (0 < n -> no_fault 2 (faults s) = true ->
        pc = List.length (tbl_pages s) /\ qc = List.length (tbl_crawl_queue s)).
Proof.
  revert pc0 qc0 s. induction n as [|n IH]; intros pc0 qc0 s.
  - exists pc0, qc0, s. cbn. unfold seconds.
    conj_split; try lia; try reflexivity; try (now left).
  - destruct s as [pg q cq v rp dla cd rn lk clk fs rt ht tr].
    cbn [stats_attempts]. exec.
    destruct fs as [|[] fs]; cbn; try (destruct fs as [|[] fs]; cbn);
      try (eexists; eexists; eexists; (split; [reflexivity|]);
           cbn; unfold seconds;
           conj_split; try lia; try reflexivity;
           try (now left); try (now right);
           try (intros _ Hf; discriminate); try (intros _ _; now split));
      match goal with |- context [stats_attempts n ?a ?b ?t] =>
        destruct (IH a b t) as (pc & qc & s' & Hr & Hp & Hq & Htp & Htq & Hc & _)
      end;
      exists pc, qc, s'; (split; [exact Hr|]);
      cbn in Hp, Hq, Htp, Htq, Hc; unfold seconds in *;
      conj_split; try assumption; try lia;
      try (intros _ Hf; discriminate);
      destruct Hp as [-> | ->]; now right.
Qed.

(** The two counters of the sidebar: the loop always ends, after pauses
    of three seconds at most, and changes no table; each counter shows
    the number of rows of its table or 0, never another number; the
    queue counter is right only when the page counter is; and both are
    right when the two statements meet no error. *)
Theorem crawler_stats_counts (s : Crawler) :
  exists page_count queue_count s',
    crawler_stats s = Returned ((page_count, queue_count), s')
    /\ (page_count = 0 \/ page_count = List.length (tbl_pages s))
    /\ (queue_count = 0
        \/ (queue_count = List.length (tbl_crawl_queue s)
            /\ page_count = List.length (tbl_pages s)))
    /\ tbl_pages s' = tbl_pages s
    /\ tbl_crawl_queue s' = tbl_crawl_queue s
    /\ (clock s <= clock s' <= clock s + 3000000)%Z
    /\ (no_fault 2 (faults s) = true ->
        page_count = List.length (tbl_pages s)
        /\ queue_count = List.length (tbl_crawl_queue s)).
Proof.
  destruct (stats_attempts_effect 3 0 0 s)
    as (pc & qc & s' & Hr & Hp & Hq & Htp & Htq & Hc & Hf).
  exists pc, qc, s'. unfold seconds in Hc.
  conj_split; try assumption; try lia.
  apply Hf. lia.
Qed.

(** *** Recently indexed pages *)

Lemma insert_recent_perm (x : PageRow) (l : list PageRow) :
  Permutation (insert_recent x l) (x :: l).
Proof.
  induction l as [|y l IH]; simpl; [reflexivity|].
  destruct (p_last_crawled y <=? p_last_crawled x)%Z; [reflexivity|].
  rewrite IH. apply perm_swap.
Qed.

Lemma order_recent_perm (l : list PageRow) : Permutation (order_recent l) l.
Proof.
  induction l as [|x l IH]; simpl; [reflexivity|].
  rewrite insert_recent_perm. now constructor.
Qed.

Lemma insert_recent_sorted (x : PageRow) (l : list PageRow) :
  StronglySorted late l -> StronglySorted late (insert_recent x l).
Proof.
  induction 1 as [|y l Hl IH Hy]; simpl.
  - repeat constructor.
  - destruct (Z.leb_spec (p_last_crawled y) (p_last_crawled x)) as [Hxy|Hxy].
    + constructor; [now constructor|].
      constructor; [exact Hxy|].
      eapply List.Forall_impl; [|exact Hy]. unfold late. intros; lia.
    + constructor; [exact IH|].
      eapply Permutation_Forall; [symmetry; apply insert_recent_perm|].
      constructor; [unfold late; lia | exact Hy].
Qed.

Lemma order_recent_sorted (l : list PageRow) : StronglySorted late (order_recent l).
Proof.
  induction l as [|x l IH]; simpl; [constructor|].
  now apply insert_recent_sorted.
Qed.

Lemma sorted_app_inv {A : Type} (R : A -> A -> Prop) (a b : list A) :
  StronglySorted R (a ++ b) ->
  StronglySorted R a /\ (forall x y, In x a -> In y b -> R x y).
Proof.
  induction a as [|h a IH]; simpl; intros H.
  - split; [constructor|]. intros x y [].
  - inversion H as [|? ? Hs Hf]; subst. destruct (IH Hs) as [Ha Hab].
    apply List.Forall_app in Hf as [Hfa Hfb].
    split; [now constructor|].
    intros x y [<-|Hx] Hy; [|now apply Hab].
    rewrite List.Forall_forall in Hfb. now apply Hfb.
Qed.

(** The list "Recently Indexed Pages" shows at most five pages, latest
    first, and no page left out was crawled later than a page shown;
    all pages are shown when there are five or fewer. Under storage
    errors the loop ends with that list or an empty one, and it is that
    list when the statement meets no error. *)
Theorem recent_pages_are_latest (s : Crawler) :
  (exists top rest,
      select_recent (tbl_pages s) = map (fun r => (p_url r, p_last_crawled r)) top
      /\ Permutation (tbl_pages s) (top ++ rest)
      /\ List.length top <= 5
      /\ StronglySorted late top
      /\ (forall a b, In a top -> In b rest -> late a b)
      /\ (List.length (tbl_pages s) <= 5 -> rest = []))
  /\ exists r s',
       recent_pages s = Returned (r, s')
       /\ tbl_pages s' = tbl_pages s
       /\ (r = [] \/ r = select_recent (tbl_pages s))
       /\ (no_fault 1 (faults s) = true -> r = select_recent (tbl_pages s)).
Proof.
  split.
  - exists (firstn 5 (order_recent (tbl_pages s))),
           (skipn 5 (order_recent (tbl_pages s))).
    pose proof (order_recent_sorted (tbl_pages s)) as Hs.
    pose proof (order_recent_perm (tbl_pages s)) as Hp.
    rewrite <- (firstn_skipn 5 (order_recent (tbl_pages s))) in Hs.
    apply sorted_app_inv in Hs as [Hs1 Hs2].
    conj_split.
    + reflexivity.
    + rewrite firstn_skipn. now symmetry.
    + apply firstn_le_length.
    + exact Hs1.
    + exact Hs2.
    + intros Hlen. apply skipn_all2.
      rewrite (Permutation_length Hp). exact Hlen.
  - assert (H : forall n t,
               exists r t',
                 recent_attempts n t = Returned (r, t')
                 /\ tbl_pages t' = tbl_pages t
                 /\ (r = [] \/ r = select_recent (tbl_pages t))
                 /\ (0 < n -> no_fault 1 (faults t) = true ->
                     r = select_recent (tbl_pages t))).
    { induction n as [|n IH]; intros t.
      - exists [], t. cbn. conj_split; try reflexivity; try (now left). lia.
      - destruct t as [pg q cq v rp dla cd rn lk clk fs rt ht tr].
        cbn [recent_attempts]. exec.
        destruct fs as [|[] fs]; cbn;
          try (eexists; eexists; (split; [reflexivity|]); cbn;
               conj_split; try reflexivity;
               try (now right); try (now left);
               try (intros _ Hf; discriminate); auto).
        match goal with |- context [recent_attempts n ?u] =>
          destruct (IH u) as (r & t' & Hr & Ht & Hc & _)
        end.
        exists r, t'. split; [exact Hr|]. cbn in Ht, Hc.
        conj_split; try assumption. intros _ Hf. discriminate. }
    destruct (H 3 s) as (r & s' & Hr & Ht & Hc & Hf).
    exists r, s'. conj_split; try assumption. apply Hf. lia.
Qed.

(** *** Snippets and highlights *)

Lemma str_length_app (a b : string) :
  String.length (a +:+ b) = String.length a + String.length b.
Proof.
  induction a as [|c a IH]; [reflexivity|].
  change (S (String.length (a +:+ b)) = S (String.length a + String.length b)).
  now rewrite IH.
Qed.

Lemma take_chars_length (n : nat) (s : string) :
  String.length (take_chars n s) = Nat.min n (String.length s).
Proof.
  revert s. induction n as [|n IH]; intros [|c s]; try reflexivity.
  cbn. now rewrite IH.
Qed.

Lemma take_chars_prefix (n : nat) (s : string) :
  String.prefix (take_chars n s) s = true.
Proof.
  revert s. induction n as [|n IH]; intros [|c s]; try reflexivity.
  cbn. destruct (Ascii.ascii_dec c c) as [_|H]; [apply IH|contradiction].
Qed.

(** A snippet is the content itself when it has at most 300 characters
    (the empty string when there is no content), and otherwise its first
    300 characters followed by three dots: 303 characters. *)
Theorem content_snippet_bounded (content : option string) :
  String.length (content_snippet content) <= 303
  /\ (String.length (or_empty content) <= 300 ->
      content_snippet content = or_empty content)
  /\ (300 < String.length (or_empty content) ->
      content_snippet content = take_chars 300 (or_empty content) +:+ "..."
      /\ String.prefix (take_chars 300 (or_empty content)) (or_empty content) = true
      /\ String.length (content_snippet content) = 303).
Proof.
  destruct content as [c|]; cbn [content_snippet or_empty].
  2:{ cbn. split; [lia|]. split; [reflexivity|lia]. }
  destruct (String.eqb c "") eqn:Ec; cbn [negb andb].
  { apply String.eqb_eq in Ec. subst c. cbn. split; [lia|]. split; [reflexivity|lia]. }
  destruct (Nat.ltb_spec 300 (String.length c)) as [Hlt|Hge].
  - assert (Hl : String.length (take_chars 300 c +:+ "...") = 303).
    { rewrite str_length_app, take_chars_length. cbn [String.length]. lia. }
    split; [lia|]. split; [lia|]. intros _.
    split; [reflexivity|]. split; [apply take_chars_prefix|exact Hl].
  - split; [lia|]. split; [reflexivity|lia].
Qed.



Lemma sub_ignorecase_absent (text query : string) (repl : string -> string) :
  contains (lower text) (lower query) = false ->
  sub_ignorecase 0 text query repl = text.
Proof.
  induction text as [|c text IH]; [reflexivity|].
  cbn [lower contains sub_ignorecase]. intros H.
  apply orb_false_iff in H as [Hp Hc].
  cbn [lower] in *. rewrite Hp. f_equal. now apply IH.
Qed.


Section Highlight.
Context `{Rx : Regex}.

(** [highlight_terms] gives the text back as it is when the text or the
    query is empty, when the text and the query are ASCII and the text
    holds the query nowhere (letter case apart), and when [re] refuses
    the template made from the query. *)
Theorem highlight_terms_unchanged (text query : string) :
  text = "" \/ query = ""
  \/ (is_ascii text = true /\ is_ascii query = true
      /\ contains (lower text) (lower query) = false)
  \/ expand_template (span_open +:+ query +:+ span_close) = None ->
  highlight_terms text query = text.
Proof.
  unfold highlight_terms. intros [->|[->|[(_ & _ & H)|H]]].
  - reflexivity.
  - now rewrite orb_true_r.
  - destruct (String.eqb text "" || String.eqb query ""); [reflexivity|].
    destruct (expand_template _); [|reflexivity].
    now apply sub_ignorecase_absent.
  - rewrite H. now destruct (String.eqb text "" || String.eqb query "").
Qed.


End Highlight.

End Engine.

(** * The model at work *)

(** The ranking example: for the query "cats dogs", P1 scores 7, P2
    scores 6, and P1 comes first although it is stored last. *)
Example ranking_example :
  map (rank_result ["cats"; "dogs"]) [select_row P1; select_row P2] = [7; 6]
  /\ fst (@simple_search demo_lib "cats dogs" [P2; P1] default_limit [])
     = [select_row P1; select_row P2].
Proof. split; reflexivity. Qed.


Lemma no_keywords_no_storage_access_witness :
  @extract_keywords demo_lib "" = []
  /\ @extract_keywords demo_lib "the and of" = []
  /\ @simple_search demo_lib "the and of" [P1; P2] 20 [DbError] = ([], []).
Proof.
  destruct (@no_keywords_no_storage_access demo_lib eq_refl eq_refl) as (H1 & H2 & H3).
  - intros w [<-|[<-|[<-|[]]]]; simpl; auto.
  - split; [exact H1|]. split; [exact H2|]. apply H3. exact H2.
Defined.

Lemma push_twice_one_entry_witness :
  exists r s2,
    @run demo_lib [Push "http://a.example/" 1; Push "http://a.example/" 0]
         (set_faults (fun _ => [DbError; DbOk]) fresh)
    = Returned (r, s2)
    /\ count_url "http://a.example/" (tbl_crawl_queue s2) = 1.
Proof.
  destruct (@run demo_lib [Push "http://a.example/" 1; Push "http://a.example/" 0]
              (set_faults (fun _ => [DbError; DbOk]) fresh))
    as [[r s2]| | |t] eqn:E.
  - exists r, s2. split; [reflexivity|].
    destruct (proj1 (@push_twice_one_entry demo_lib)
                (set_faults (fun _ => [DbError; DbOk]) fresh) s2
                "http://a.example/" 1%Z 0%Z r (List.NoDup_nil _) E)
      as (_ & _ & H).
    apply H.
    + discriminate.
    + apply not_elem_of_empty.
    + right. reflexivity.
  - exfalso. vm_compute in E. discriminate.
  - exfalso. vm_compute in E. discriminate.
  - exfalso. vm_compute in E. discriminate.
Defined.

(** C2, as stated, fails: a URL that was crawled is in the visited set,
    so pushing it twice leaves no row for it; the same holds for the
    empty URL. *)
Lemma push_twice_of_visited_url_leaves_none :
  match @run demo_lib [Push "http://a.example/" 1; WorkerStep;
                       Push "http://a.example/" 1; Push "http://a.example/" 2]
             site_down with
  | Returned (_, s') => count_url "http://a.example/" (tbl_crawl_queue s') = 0
  | _ => False
  end
  /\ match (add_url_to_queue 2 "" 1 ;;; add_url_to_queue 2 "" 2) fresh with
     | Returned (_, s') => count_url "" (tbl_crawl_queue s') = 0
     | _ => False
     end.
Proof. split; vm_compute; reflexivity. Qed.

Lemma push_blocks_on_contention_witness :
  add_url_to_queue 2 "http://a.example/" 1 (set_faults (fun _ => [DbLocked]) fresh)
  = Blocked.
Proof.
  apply (push_blocks_on_contention 0 (set_faults (fun _ => [DbLocked]) fresh)
           "http://a.example/" 1 []).
  - discriminate.
  - apply not_elem_of_empty.
  - reflexivity.
  - reflexivity.
Defined.

(** The dequeue and the upsert, which count their attempts, give up
    after three locked answers where the push blocks at the first. *)
Example siblings_give_up :
  match @run demo_lib [Pop] (new_crawler [] three_queued 0
                               [DbLocked; DbLocked; DbLocked] [] []) with
  | Returned (r, s') =>
      r = [None] /\ tbl_crawl_queue s' = three_queued
      /\ trace s' = [EvSleep 1000000; EvSleep 1000000; EvSleep 1000000]
  | _ => False
  end
  /\ match store_page 3 "http://a.example/" None "text"
             (set_faults (fun _ => [DbLocked; DbLocked; DbLocked]) fresh) with
     | Returned (_, s') => tbl_pages s' = [] /\ List.length (trace s') = 3
     | _ => False
     end.
Proof. split; vm_compute; repeat split. Qed.

(** When the DELETE itself fails, the url read by the SELECT stays in
    the local variable: the dequeue answers it and the row remains. *)
Example dequeue_keeps_row_when_delete_fails :
  match @run demo_lib [Pop] (new_crawler [] three_queued 0 [DbOk; DbError] [] []) with
  | Returned (r, s') =>
      r = [Some ("http://b.example/", 1%Z)] /\ tbl_crawl_queue s' = three_queued
  | _ => False
  end.
Proof. vm_compute. split; reflexivity. Qed.

Lemma pop_returns_most_urgent_witness :
  exists row s',
    pop (new_crawler [] three_queued 0 [] [] [])
    = Returned (Some (q_url row, q_priority row), s')
    /\ q_url row = "http://b.example/"
    /\ List.length (tbl_crawl_queue s') = 2.
Proof.
  destruct (pop_returns_most_urgent (new_crawler [] three_queued 0 [] [] []))
    as (row & s' & Hpop & Hin & Hmin & _ & _ & Hlen & _).
  - reflexivity.
  - reflexivity.
  - repeat constructor; simpl; intuition discriminate.
  - exists row, s'. split; [exact Hpop|].
    split; [|simpl in Hlen; lia].
    simpl in Hin. destruct Hin as [<-|[<-|[<-|[]]]]; [exfalso..|reflexivity].
    + specialize (Hmin _ (or_intror (or_introl eq_refl))).
      unfold queue_le in Hmin; simpl in Hmin; lia.
    + specialize (Hmin _ (or_intror (or_intror (or_introl eq_refl)))).
      unfold queue_le in Hmin; simpl in Hmin; lia.
Defined.

Lemma pops_ignore_mirror_witness :
  match @run demo_lib [Push "http://a.example/" 1; Pop] fresh,
        @run demo_lib [Push "http://a.example/" 1; Pop]
             (set_crawl_queue (fun _ => [(7%Z, "http://z.example/")]) fresh) with
  | Returned (popped1, s1'), Returned (popped2, s2') =>
      popped1 = popped2 /\ same_but_mirror s1' s2'
  | Blocked, Blocked => True
  | OutOfFuel, OutOfFuel => True
  | _, _ => False
  end.
Proof.
  apply (@pops_ignore_mirror demo_lib). reflexivity.
Defined.

(** The mirror gets an item at every push that reaches the insert, also
    when the insert is ignored. *)
Example mirror_accumulates_duplicates :
  match @run demo_lib [Push "http://a.example/" 1; Push "http://a.example/" 2] fresh with
  | Returned (_, s') =>
      crawl_queue s' = [(1%Z, "http://a.example/"); (2%Z, "http://a.example/")]
      /\ List.length (tbl_crawl_queue s') = 1
  | _ => False
  end.
Proof. vm_compute. split; reflexivity. Qed.

(** C6, as stated, fails: a link to another page that carries a fragment
    is dropped, where the specification keeps it. *)
Lemma extract_links_differs_from_spec :
  @extract_links demo_lib ["http://other.example/page#part"; "#top"]
     "http://site.example/" = Some []
  /\ @spec_links demo_lib ["http://other.example/page#part"; "#top"]
       "http://site.example/" = Some ["http://other.example/page#part"]
  /\ @extract_links demo_lib ["http://other.example/page#part"; "#top"]
       "http://site.example/"
     <> @spec_links demo_lib ["http://other.example/page#part"; "#top"]
          "http://site.example/".
Proof. split; [reflexivity|]. split; [reflexivity|]. discriminate. Qed.

Lemma upsert_twice_one_row_witness :
  exists s1 s2,
    store_page 3 "a" (Some "cats") "new text" (new_crawler [P1; P2] [] 100 [] [] [])
    = Returned (tt, s1)
    /\ store_page 3 "a" (Some "cats") "new text" (set_clock (fun t => t + 50)%Z s1)
       = Returned (tt, s2)
    /\ rows_for "a" (tbl_pages s2)
       = [ {| p_url := "a"; p_title := Some "cats"; p_content := "new text";
              p_indexed_at := 150; p_last_crawled := 150 |} ]
    /\ rows_but "a" (tbl_pages s2) = [P2].
Proof.
  destruct (upsert_twice_one_row (new_crawler [P1; P2] [] 100 [] [] [])
              "a" (Some "cats") "new text" 50 eq_refl eq_refl)
    as (s1 & s2 & H1 & H2 & _ & H4 & _ & H6).
  exists s1, s2. split; [exact H1|]. split; [exact H2|].
  split; [exact H4 | exact H6].
Defined.

(** Crawling the same page twice stores it once, with the time of the
    second crawl. *)
Example recrawl_overwrites :
  match @run demo_lib [CrawlPage "http://a.example/page"; CrawlPage "http://a.example/page"]
             (new_crawler [] [] 0 [] [None]
                [HttpResponse 2000000 200
                   {| doc_title := Some (Some "Old"); doc_texts := ["one"]; doc_hrefs := [] |};
                 HttpResponse 1000000 200
                   {| doc_title := None; doc_texts := [" two   words "]; doc_hrefs := [] |}]) with
  | Returned (_, s') =>
      tbl_pages s'
      = [ {| p_url := "http://a.example/page";
             p_title := Some "http://a.example/page";
             p_content := "two words";
             p_indexed_at := 8000000; p_last_crawled := 8000000 |} ]
  | _ => False
  end.
Proof. vm_compute. reflexivity. Qed.



Lemma crawl_page_stamps_witness :
  exists links s',
    @crawl_page demo_lib "http://a.example/page" site_up = Returned (links, s')
    /\ exists pre mid t1 post,
         forallb quiet_ev pre = true /\ forallb quiet_ev mid = true
         /\ forallb quiet_ev post = true
         /\ trace s' = trace site_up ++ pre ++ EvStamp "a.example" t1 :: mid
                       ++ EvHttpGet "http://a.example/page"
                          :: EvStamp "a.example" (t1 + 2000000) :: post
         /\ domain_last_access s' !! "a.example" = Some (t1 + 2000000)%Z.
Proof.
  destruct (@crawl_page_stamps demo_lib site_up "http://a.example/page" "a.example"
              eq_refl eq_refl eq_refl)
    as (links & s' & Hrun & pre & mid & t1 & Hpre & Hmid & post & Hpost & Ht & Hd).
  exists links, s'. split; [exact Hrun|].
  exists pre, mid, t1, post. repeat split; assumption.
Defined.

(** C5, as stated, fails: on a site that robots.txt allows (the read of
    robots.txt failed) and whose request raises after three seconds, the
    only stamp is the one taken before the request. *)
Lemma crawl_page_no_stamp_after_failed_request :
  robots_verdict "a.example" "http://a.example/page" site_down = true
  /\ match @crawl_page demo_lib "http://a.example/page" site_down with
     | Returned (links, s') =>
         trace s' = [EvStamp "a.example" 0; EvRobotsRead "a.example";
                     EvHttpGet "http://a.example/page"]
         /\ stamps_after_get "a.example" "http://a.example/page" (trace s') = []
         /\ domain_last_access s' !! "a.example" = Some 0%Z
         /\ clock s' = 3000000%Z
     | _ => False
     end.
Proof. split; [reflexivity|]. vm_compute. repeat split. Qed.

(** * Further properties at work *)

Lemma keywords_are_clean_witness :
  In "dogs" (@extract_keywords demo_lib "Cats and the DOGS")
  /\ isalnum "dogs" = true
  /\ contains "dogs" "%" = false.
Proof.
  assert (H : In "dogs" (@extract_keywords demo_lib "Cats and the DOGS")).
  { vm_compute. right. left. reflexivity. }
  split; [exact H|].
  destruct (@keywords_are_clean demo_lib "Cats and the DOGS" "dogs")
    as (_ & H1 & _ & _ & _ & H5 & _).
  - intros w Hw. vm_compute in Hw.
    destruct Hw as [<-|[<-|[<-|[<-|[]]]]]; reflexivity.
  - exact H.
  - split; [exact H1 | exact H5].
Defined.

Lemma search_returns_matching_pages_witness :
  In (Some "http://cats.example/", Some "home", Some "welcome")
     (fst (@simple_search demo_lib "Cats" [P1; P3] 20 []))
  /\ (exists kw,
        In kw (@extract_keywords demo_lib "Cats")
        /\ (like_contains (Some "home") kw || like_contains (Some "welcome") kw
            || like_contains (Some "http://cats.example/") kw) = true).
Proof.
  assert (H : In (Some "http://cats.example/", Some "home", Some "welcome")
                 (fst (@simple_search demo_lib "Cats" [P1; P3] 20 []))).
  { vm_compute. right. left. reflexivity. }
  split; [exact H|].
  exact (proj1 (proj2 (@search_returns_matching_pages demo_lib "Cats" [P1; P3]
                         20 [] _ _ _ H))).
Defined.

Lemma search_gives_up_witness :
  @simple_search demo_lib "cats" [P1] 20 (repeat DbLocked 1 ++ DbError :: [DbOk])
  = ([], locked_rounds 1 ++ [SDbExecute; SError])
  /\ @simple_search demo_lib "cats" [P1] 20 (repeat DbLocked 3 ++ [DbOk])
     = ([], locked_rounds 3).
Proof.
  apply (@search_gives_up demo_lib "cats" [P1] 20 1 [DbOk]).
  - vm_compute. discriminate.
  - lia.
Defined.

Lemma pages_stay_unique_witness :
  exists r s',
    @run demo_lib [WorkerStep; Pop] indexed = Returned (r, s')
    /\ pages_unique s'.
Proof.
  destruct (@run demo_lib [WorkerStep; Pop] indexed) as [[r s']| | |t] eqn:E.
  - exists r, s'. split; [reflexivity|].
    refine (proj1 (@pages_stay_unique demo_lib [WorkerStep; Pop] indexed s' r _ E)).
    repeat constructor; simpl; intuition discriminate.
  - exfalso. vm_compute in E. discriminate.
  - exfalso. vm_compute in E. discriminate.
  - exfalso. vm_compute in E. discriminate.
Defined.

Lemma visited_only_grows_witness :
  exists r s',
    @run demo_lib [WorkerStep; Push "http://c.example/" 1]
         (set_visited_urls (fun _ => {["http://z.example/"]}) indexed)
    = Returned (r, s')
    /\ "http://z.example/" ∈ visited_urls s'.
Proof.
  destruct (@run demo_lib [WorkerStep; Push "http://c.example/" 1]
              (set_visited_urls (fun _ => {["http://z.example/"]}) indexed))
    as [[r s']| | |t] eqn:E.
  - exists r, s'. split; [reflexivity|].
    refine (@visited_only_grows demo_lib _ _ s' r "http://z.example/" _ E).
    change ("http://z.example/" ∈ ({["http://z.example/"]} : gset string)).
    apply elem_of_singleton. reflexivity.
  - exfalso. vm_compute in E. discriminate.
  - exfalso. vm_compute in E. discriminate.
  - exfalso. vm_compute in E. discriminate.
Defined.

Lemma upsert_loop_gives_up_witness :
  exists s',
    store_page 3 "a" None "text"
      (set_faults (fun _ => [DbLocked; DbLocked; DbLocked]) indexed)
    = Returned (tt, s')
    /\ lock s' = false
    /\ rows_but "a" (tbl_pages s') = [P2].
Proof.
  destruct (upsert_loop_gives_up
              (set_faults (fun _ => [DbLocked; DbLocked; DbLocked]) indexed)
              "a" None "text" eq_refl)
    as (s' & H1 & H2 & _ & _ & H5 & _).
  exists s'. split; [exact H1|]. split; [exact H2 | exact H5].
Defined.

Lemma crawl_page_stores_only_on_200_witness :
  exists s',
    @crawl_page demo_lib "http://a.example/page" site_down = Returned ([], s')
    /\ tbl_pages s' = tbl_pages site_down.
Proof.
  destruct (@crawl_page_stores_only_on_200 demo_lib "http://a.example/page" "a.example"
              site_down eq_refl eq_refl)
    as (s' & H1 & H2 & _).
  - right. intros l soup. discriminate.
  - exists s'. split; [exact H1 | exact H2].
Defined.

Lemma crawl_page_indexes_page_witness :
  exists s' t,
    @crawl_page demo_lib "http://a.example/page" indexed
    = Returned (["http://b.example/next"; "http://a.example/page"], s')
    /\ rows_for "http://a.example/page" (tbl_pages s')
       = [page_row "http://a.example/page" (Some "http://a.example/page")
            "Some text more" t]
    /\ rows_but "http://a.example/page" (tbl_pages s') = [P1; P2].
Proof.
  destruct (@crawl_page_indexes_page demo_lib "http://a.example/page" "a.example" indexed
              2000000 _ eq_refl eq_refl eq_refl eq_refl eq_refl eq_refl)
    as (s' & t & H1 & _ & H3 & H4 & _).
  exists s', t. split; [exact H1|]. split; [exact H3 | exact H4].
Defined.

Lemma accesses_are_spaced_witness :
  exists links s' pre t1 rest,
    @crawl_page demo_lib "http://a.example/page" revisit = Returned (links, s')
    /\ trace s' = trace revisit ++ pre ++ EvStamp "a.example" t1 :: rest
    /\ forallb quiet_ev pre = true
    /\ (1000000 + seconds 5 <= t1)%Z.
Proof.
  destruct (@accesses_are_spaced demo_lib "http://a.example/page" "a.example" revisit
              1000000 eq_refl eq_refl)
    as (links & s' & delay & s1 & pre & t1 & rest & t' & H1 & H2 & H3 & H4 & H5 & _).
  - apply lookup_singleton_eq.
  - cbn. lia.
  - exists links, s', pre, t1, rest. split; [exact H1|]. split; [exact H3|].
    split; [exact H4|]. vm_compute in H2. injection H2 as <- _. exact H5.
Defined.

Lemma dequeue_gives_up_witness :
  exists r s',
    pop (set_faults (fun _ => [DbLocked; DbOk; DbLocked; DbLocked]) queue_of_three)
    = Returned (r, s')
    /\ lock s' = false
    /\ (clock s' <= 100 + 3000000)%Z.
Proof.
  destruct (dequeue_gives_up
              (set_faults (fun _ => [DbLocked; DbOk; DbLocked; DbLocked]) queue_of_three)
              eq_refl)
    as (r & s' & H1 & H2 & H3 & _).
  exists r, s'. split; [exact H1|]. split; [exact H2|]. cbn in H3. lia.
Defined.

Lemma push_keeps_queued_rows_witness :
  tbl_crawl_queue (push_effect "http://a.example/" 0 queue_of_three) = three_queued
  \/ ("http://a.example/" <> ""
      /\ ("http://a.example/" ∉ visited_urls queue_of_three)
      /\ ~ In "http://a.example/" (map q_url (tbl_crawl_queue queue_of_three))
      /\ tbl_crawl_queue (push_effect "http://a.example/" 0 queue_of_three)
         = three_queued ++ [queue_row "http://a.example/" 0 100]).
Proof.
  refine (proj2 (proj2 (push_keeps_queued_rows 2 "http://a.example/" 0 queue_of_three
                          (push_effect "http://a.example/" 0 queue_of_three) _))).
  apply add_url_to_queue_ok.
  - discriminate.
  - apply not_elem_of_empty.
  - reflexivity.
  - reflexivity.
Defined.

Lemma push_then_pop_witness :
  exists s1 s2 row,
    add_url_to_queue 2 "http://d.example/" 1 queue_of_three = Returned (tt, s1)
    /\ pop s1 = Returned (Some (q_url row, q_priority row), s2)
    /\ q_url row = "http://b.example/".
Proof.
  destruct (push_then_pop queue_of_three "http://d.example/" 1)
    as (s1 & s2 & row & H1 & H2 & H3).
  - discriminate.
  - apply not_elem_of_empty.
  - simpl. intuition discriminate.
  - reflexivity.
  - reflexivity.
  - exists s1, s2, row. split; [exact H1|]. split; [exact H2|].
    vm_compute in H3. now subst row.
Defined.

Lemma priority_zero_is_next_witness :
  exists s1 s2,
    add_url_to_queue 2 "http://d.example/" 0 queue_of_three = Returned (tt, s1)
    /\ pop s1 = Returned (Some ("http://d.example/", 0%Z), s2)
    /\ tbl_crawl_queue s2 = three_queued.
Proof.
  apply (priority_zero_is_next queue_of_three "http://d.example/").
  - discriminate.
  - apply not_elem_of_empty.
  - simpl. intuition discriminate.
  - intros r [<-|[<-|[<-|[]]]]; cbn; lia.
  - reflexivity.
  - reflexivity.
Defined.

Lemma no_url_fetched_twice_witness :
  exists r s',
    @run demo_lib [WorkerStep; Push "http://a.example/page" 0; WorkerStep; WorkerStep]
         indexed
    = Returned (r, s')
    /\ List.NoDup (http_gets (trace s')).
Proof.
  destruct (@run demo_lib
              [WorkerStep; Push "http://a.example/page" 0; WorkerStep; WorkerStep]
              indexed) as [[r s']| | |t] eqn:E.
  - exists r, s'. split; [reflexivity|].
    refine (proj1 (@no_url_fetched_twice demo_lib
                     [WorkerStep; Push "http://a.example/page" 0; WorkerStep; WorkerStep]
                     indexed s' r _ eq_refl E)).
    split; [constructor | intros u []].
  - exfalso. vm_compute in E. discriminate.
  - exfalso. vm_compute in E. discriminate.
  - exfalso. vm_compute in E. discriminate.
Defined.

Lemma worker_pass_effect_witness :
  exists s' found s1,
    @crawl_worker_step demo_lib indexed = Returned (tt, s')
    /\ pop indexed = Returned (found, s1)
    /\ found = Some ("http://a.example/page", 1%Z)
    /\ visited_urls s' = {["http://a.example/page"]} ∪ visited_urls indexed.
Proof.
  destruct (@crawl_worker_step demo_lib indexed) as [[[] s']| | |t] eqn:E.
  - destruct (@worker_pass_effect demo_lib indexed s' eq_refl E)
      as (found & s1 & H1 & H2).
    exists s', found, s1. split; [reflexivity|]. split; [exact H1|].
    assert (Hf : found = Some ("http://a.example/page", 1%Z)).
    { vm_compute in H1. now injection H1 as <- _. }
    split; [exact Hf|]. subst found. apply H2. discriminate.
  - exfalso. vm_compute in E. discriminate.
  - exfalso. vm_compute in E. discriminate.
  - exfalso. vm_compute in E. discriminate.
Defined.

Lemma worker_drops_malformed_url_witness :
  exists s',
    @crawl_worker_step demo_lib bad_queued = Returned (tt, s')
    /\ visited_urls s' = {["http://[bad"]} ∪ visited_urls bad_queued
    /\ tbl_crawl_queue s' = []
    /\ trace s' = [EvSleep 5000000].
Proof.
  destruct (@worker_drops_malformed_url demo_lib bad_queued
              {| q_url := "http://[bad"; q_priority := 1; q_added_at := 0 |}
              eq_refl eq_refl eq_refl)
    as (_ & s' & H1 & H2 & H3 & _ & H5 & _).
  - discriminate.
  - apply not_elem_of_empty.
  - reflexivity.
  - exists s'. split; [exact H1|]. split; [exact H2|].
    split; [exact H3 | exact H5].
Defined.

(** A reference that [urljoin] refuses costs the page all its links:
    the page is stored and no link is returned. *)
Example bad_href_loses_links :
  @extract_links demo_lib ["http://b.example/next"; "http://[bad"] "http://a.example/page"
  = None
  /\ match @crawl_page demo_lib "http://a.example/page" bad_href with
     | Returned (links, s') =>
         links = [] /\ map p_url (tbl_pages s') = ["http://a.example/page"]
     | _ => False
     end.
Proof. split; [reflexivity|]. vm_compute. split; reflexivity. Qed.

Lemma highlight_terms_unchanged_witness :
  @highlight_terms demo_regex "Cats and dogs" "bird" = "Cats and dogs".
Proof.
  apply (@highlight_terms_unchanged demo_regex).
  right. right. left. now repeat split.
Defined.


(** The marked text takes the letter case of the query. *)
Example highlight_example :
  @highlight_terms demo_regex "Cats and cats" "cats"
  = span_open +:+ "cats" +:+ span_close +:+ " and "
    +:+ span_open +:+ "cats" +:+ span_close.
Proof. reflexivity. Qed.
